(** * Verification of the ad-creative retrieval pipeline and the ad deduper

    Shallow embedding of [fb_ad_creative_retriever.py] and
    [ad_deduplication/ad_deduper.py].  Python values are modelled as follows:
    - [int] as [Z], non-negative fingerprints as [N];
    - [str] as [string], [bytes] as [string] as well (only equality and the
      digest functions ever look at them);
    - [None]-able values as [option];
    - objects with mutable attributes as records threaded through the calls;
    - exceptions as the left summand of a result type. *)

From Stdlib Require Import ZArith NArith Lia List Ascii String Bool HexString.
From stdpp Require Import base option list gmap strings sets pretty relations.

Open Scope Z_scope.

(** ** Python built-ins used by both modules *)

(** [range(0, stop, step)] for a positive [step]. *)
Definition py_range0 (stop : Z) (step : nat) : list nat :=
  (fun i => (i * step)%nat) <$> seq 0 (Z.to_nat ((stop + Z.of_nat step - 1) / Z.of_nat step)).

(** [s[x:x + n]] for [0 <= x]: slices are clamped to the string. *)
Definition py_slice (s : string) (x n : nat) : string := String.substring x n s.

(** [s.startswith('/')] *)
Definition startswith_sep (s : string) : bool :=
  match s with
  | EmptyString => false
  | String c _ => Ascii.eqb c "/"
  end.

(** [s.endswith('/')] *)
Fixpoint endswith_sep (s : string) : bool :=
  match s with
  | EmptyString => false
  | String c EmptyString => Ascii.eqb c "/"
  | String _ s' => endswith_sep s'
  end.

(** One iteration of the loop of [posixpath.join]. *)
Definition join_step (path b : string) : string :=
  if startswith_sep b then b
  else if (String.eqb path "" || endswith_sep path)%bool then (path ++ b)%string
  else (path ++ "/" ++ b)%string.

(** [os.path.join(a, *p)] *)
Definition posixpath_join (a : string) (p : list string) : string :=
  fold_left join_step p a.

(** [os.path.join] applied to an unpacked argument list.  Every call site
    passes at least the file name; a call without arguments would be a
    [TypeError] and is given the empty string here. *)
Definition os_path_join (args : list string) : string :=
  match args with
  | [] => ""
  | a :: p => posixpath_join a p
  end.

(** ** fb_ad_creative_retriever.py: constants and path derivation *)

Definition VIDEO_HASH_PATH_DIR_NAME_LENGTH : nat := 4.
Definition DEFAULT_MAX_VIDEO_DOWNLOAD_SIZE : Z := 512000000.
Definition DEFAULT_BATCH_SIZE : Z := 20.
Definition RESET_BROWSER_AFTER_PROCESSING_N_SNAPSHOTS : Z := 2000.
Definition TOO_MANY_REQUESTS_SLEEP_TIME : Z := 4 * 60 * 60.
Definition NO_AVAILABLE_WORK_SLEEP_TIME : Z := 1 * 60 * 60.

Definition video_hash_dirs (video_sha256_hash : string) : list string :=
  (fun x => py_slice video_sha256_hash x VIDEO_HASH_PATH_DIR_NAME_LENGTH)
    <$> py_range0 (Z.of_nat (String.length video_sha256_hash)
                   - Z.of_nat VIDEO_HASH_PATH_DIR_NAME_LENGTH)
                  VIDEO_HASH_PATH_DIR_NAME_LENGTH.

Definition make_video_sha256_hash_file_path (video_sha256_hash : string) : string :=
  let base_file_name := (video_sha256_hash ++ ".mp4")%string in
  os_path_join (video_hash_dirs video_sha256_hash ++ [base_file_name]).

Definition make_image_hash_file_path (image_hash : string) : string :=
  let base_file_name := (image_hash ++ ".jpg")%string in
  os_path_join [py_slice image_hash 0 4; py_slice image_hash 4 4; py_slice image_hash 8 4;
                py_slice image_hash 12 4; py_slice image_hash 16 4; py_slice image_hash 20 4;
                py_slice image_hash 24 4; base_file_name].


(** ** fb_ad_creative_retriever.py: data model *)

Inductive SnapshotFetchStatus :=
| UNKNOWN
| SUCCESS
| NO_CONTENT_FOUND
| INVALID_ID_ERROR
| AGE_RESTRICTION_ERROR
| NO_AD_CREATIVES_FOUND
| INTELLECTUAL_PROPERTY_VIOLATION_ERROR
| SNAPSHOT_PERMANENTLY_UNAVAILABLE_ERROR.

(** The value of each member of the [IntEnum]. *)
Definition status_value (s : SnapshotFetchStatus) : Z :=
  match s with
  | UNKNOWN => 0
  | SUCCESS => 1
  | NO_CONTENT_FOUND => 2
  | INVALID_ID_ERROR => 3
  | AGE_RESTRICTION_ERROR => 4
  | NO_AD_CREATIVES_FOUND => 5
  | INTELLECTUAL_PROPERTY_VIOLATION_ERROR => 6
  | SNAPSHOT_PERMANENTLY_UNAVAILABLE_ERROR => 7
  end.

Module AdCreativeRecord.
Record t := mk {
  archive_id : Z;
  ad_creative_body : option string;
  ad_creative_body_language : option string;
  ad_creative_link_url : option string;
  ad_creative_link_caption : option string;
  ad_creative_link_title : option string;
  ad_creative_link_description : option string;
  ad_creative_link_button_text : option string;
  text_sha256_hash : option string;
  image_sha256_hash : option string;
  image_downloaded_url : option string;
  image_bucket_path : option string;
  text_sim_hash : option string;
  image_sim_hash : option string;
  video_sha256_hash : option string;
  video_downloaded_url : option string;
  video_bucket_path : option string
}.
End AdCreativeRecord.

(** [AdCreativeRecordUniqueConstraintAttributes] is the plain 4-tuple
    [(archive_id, text_sha256_hash, image_sha256_hash, video_sha256_hash)];
    Python compares and hashes named tuples as tuples, [None] being equal to
    itself. *)
Abbreviation AdCreativeRecordUniqueConstraintAttributes :=
  (Z * option string * option string * option string)%type.

Module AdSnapshotMetadataRecord.
Record t := mk {
  archive_id : Z;
  snapshot_fetch_time : Z;
  snapshot_fetch_status : SnapshotFetchStatus
}.
End AdSnapshotMetadataRecord.

Module DownloadedVideoAttributes.
Record t := mk {
  video_sha256_hash : string;
  video_bucket_path : string
}.
End DownloadedVideoAttributes.

(** What the extractor of [fbactiveads] hands back: only the attributes the
    pipeline reads. *)
Module FetchedImage.
Record t := mk { binary_data : string; url : option string }.
End FetchedImage.

Module LinkAttributes.
Record t := mk {
  url : option string;
  caption : option string;
  title : option string;
  description : option string;
  button : option string
}.
End LinkAttributes.

Module Creative.
Record t := mk {
  image : option FetchedImage.t;
  video_url : option string;
  body : option string;
  link_attributes : option LinkAttributes.t
}.
End Creative.

Module ScreenshotAndCreatives.
Record t := mk {
  screenshot_binary_data : option string;
  creatives : list Creative.t
}.
End ScreenshotAndCreatives.

(** The exception classes the pipeline distinguishes.  The class hierarchy of
    the extractor library is not part of the repository; its classes are taken
    as pairwise unrelated, so each [except] clause matches exactly the classes
    it names.  The two rate-limit signals may carry the attribute
    [wait_before_next_batch_seconds]. *)
Inductive Exn :=
| BrowserTimeoutError
| WebDriverException
| RequestException
| SnapshotNoContentFoundError
| SnapshotMissingMediaError
| SnapshotAgeRestrictionError
| SnapshotIntellectualPropertyViolationError
| SnapshotInvalidIdError
| SnapshotWrongAdArchiveIdError
| SnapshotPermanentlyUnavailableError
| TooManyRequestsError (wait_before_next_batch_seconds : option Z)
| EndBatchCrawlerException (wait_before_next_batch_seconds : option Z)
| GoogleCloudError
| RetryError
| ValueError
| NameError (name : string)
| UnboundLocalError (name : string)
| OtherError (name : string).

(** A [requests] response as [download_video] uses it: [status_ok] is false
    when [raise_for_status] raises, header names are the lower-cased keys of
    the case-insensitive header dictionary, and [content] is [None] when
    reading the streamed body raises a [RequestException]. *)
Module Response.
Record t := mk {
  status_ok : bool;
  headers : gmap string string;
  content : option string
}.
End Response.

(** [requests.get]: raises a [RequestException] or returns a response. *)
Inductive HttpResult :=
| HttpRaises
| HttpResponse (r : Response.t).

(** A batch as [get_archive_id_batch_to_fetch] returns it. *)
Module Batch.
Record t := mk { batch_id : Z; archive_ids : list Z }.
End Batch.

(** Effects on the outside world, in the order they happen. *)
Inductive Event :=
| EvBlobUpload (bucket path data : string)
| EvInsertAdCreativeRecords (records : list AdCreativeRecord.t)
| EvUpdateAdSnapshotMetadata (records : list AdSnapshotMetadataRecord.t)
| EvReleaseUncompletedFetchBatch (batch_id : option Z)
| EvMarkFetchBatchCompleted (batch_id : option Z)
| EvSlack (url msg : string)
| EvSleep (seconds : Z).

(** The attributes of a [FacebookAdCreativeRetriever] instance.  The bucket
    clients, the database parameters and the browser factories are handles to
    the outside world and live in [World]; [start_time] only feeds the
    logged statistics and is left out together with [log_stats]. *)
Record FacebookAdCreativeRetriever := mkRetriever {
  max_video_download_size : Z;
  num_snapshots_processed : Z;
  num_snapshots_fetch_failed : Z;
  num_ad_creatives_found : Z;
  num_snapshots_without_creative_found : Z;
  num_image_download_success : Z;
  num_image_download_failure : Z;
  num_image_uploade_to_gcs_bucket : Z;
  num_video_download_success : Z;
  num_video_download_failure : Z;
  num_video_uploade_to_gcs_bucket : Z;
  current_batch_id : option Z;
  commit_to_db_every_n_processed : Z;
  slack_url : string;
  slack_user_id_to_include : option string
}.

Definition set_num_snapshots_processed (f : Z -> Z) (r : FacebookAdCreativeRetriever) : FacebookAdCreativeRetriever :=
  {| max_video_download_size := max_video_download_size r;
     num_snapshots_processed := f (num_snapshots_processed r);
     num_snapshots_fetch_failed := num_snapshots_fetch_failed r;
     num_ad_creatives_found := num_ad_creatives_found r;
     num_snapshots_without_creative_found := num_snapshots_without_creative_found r;
     num_image_download_success := num_image_download_success r;
     num_image_download_failure := num_image_download_failure r;
     num_image_uploade_to_gcs_bucket := num_image_uploade_to_gcs_bucket r;
     num_video_download_success := num_video_download_success r;
     num_video_download_failure := num_video_download_failure r;
     num_video_uploade_to_gcs_bucket := num_video_uploade_to_gcs_bucket r;
     current_batch_id := current_batch_id r;
     commit_to_db_every_n_processed := commit_to_db_every_n_processed r;
     slack_url := slack_url r;
     slack_user_id_to_include := slack_user_id_to_include r |}.

Definition set_num_snapshots_fetch_failed (f : Z -> Z) (r : FacebookAdCreativeRetriever) : FacebookAdCreativeRetriever :=
  {| max_video_download_size := max_video_download_size r;
     num_snapshots_processed := num_snapshots_processed r;
     num_snapshots_fetch_failed := f (num_snapshots_fetch_failed r);
     num_ad_creatives_found := num_ad_creatives_found r;
     num_snapshots_without_creative_found := num_snapshots_without_creative_found r;
     num_image_download_success := num_image_download_success r;
     num_image_download_failure := num_image_download_failure r;
     num_image_uploade_to_gcs_bucket := num_image_uploade_to_gcs_bucket r;
     num_video_download_success := num_video_download_success r;
     num_video_download_failure := num_video_download_failure r;
     num_video_uploade_to_gcs_bucket := num_video_uploade_to_gcs_bucket r;
     current_batch_id := current_batch_id r;
     commit_to_db_every_n_processed := commit_to_db_every_n_processed r;
     slack_url := slack_url r;
     slack_user_id_to_include := slack_user_id_to_include r |}.

Definition set_num_ad_creatives_found (f : Z -> Z) (r : FacebookAdCreativeRetriever) : FacebookAdCreativeRetriever :=
  {| max_video_download_size := max_video_download_size r;
     num_snapshots_processed := num_snapshots_processed r;
     num_snapshots_fetch_failed := num_snapshots_fetch_failed r;
     num_ad_creatives_found := f (num_ad_creatives_found r);
     num_snapshots_without_creative_found := num_snapshots_without_creative_found r;
     num_image_download_success := num_image_download_success r;
     num_image_download_failure := num_image_download_failure r;
     num_image_uploade_to_gcs_bucket := num_image_uploade_to_gcs_bucket r;
     num_video_download_success := num_video_download_success r;
     num_video_download_failure := num_video_download_failure r;
     num_video_uploade_to_gcs_bucket := num_video_uploade_to_gcs_bucket r;
     current_batch_id := current_batch_id r;
     commit_to_db_every_n_processed := commit_to_db_every_n_processed r;
     slack_url := slack_url r;
     slack_user_id_to_include := slack_user_id_to_include r |}.

Definition set_num_snapshots_without_creative_found (f : Z -> Z) (r : FacebookAdCreativeRetriever) : FacebookAdCreativeRetriever :=
  {| max_video_download_size := max_video_download_size r;
     num_snapshots_processed := num_snapshots_processed r;
     num_snapshots_fetch_failed := num_snapshots_fetch_failed r;
     num_ad_creatives_found := num_ad_creatives_found r;
     num_snapshots_without_creative_found := f (num_snapshots_without_creative_found r);
     num_image_download_success := num_image_download_success r;
     num_image_download_failure := num_image_download_failure r;
     num_image_uploade_to_gcs_bucket := num_image_uploade_to_gcs_bucket r;
     num_video_download_success := num_video_download_success r;
     num_video_download_failure := num_video_download_failure r;
     num_video_uploade_to_gcs_bucket := num_video_uploade_to_gcs_bucket r;
     current_batch_id := current_batch_id r;
     commit_to_db_every_n_processed := commit_to_db_every_n_processed r;
     slack_url := slack_url r;
     slack_user_id_to_include := slack_user_id_to_include r |}.

Definition set_num_image_download_success (f : Z -> Z) (r : FacebookAdCreativeRetriever) : FacebookAdCreativeRetriever :=
  {| max_video_download_size := max_video_download_size r;
     num_snapshots_processed := num_snapshots_processed r;
     num_snapshots_fetch_failed := num_snapshots_fetch_failed r;
     num_ad_creatives_found := num_ad_creatives_found r;
     num_snapshots_without_creative_found := num_snapshots_without_creative_found r;
     num_image_download_success := f (num_image_download_success r);
     num_image_download_failure := num_image_download_failure r;
     num_image_uploade_to_gcs_bucket := num_image_uploade_to_gcs_bucket r;
     num_video_download_success := num_video_download_success r;
     num_video_download_failure := num_video_download_failure r;
     num_video_uploade_to_gcs_bucket := num_video_uploade_to_gcs_bucket r;
     current_batch_id := current_batch_id r;
     commit_to_db_every_n_processed := commit_to_db_every_n_processed r;
     slack_url := slack_url r;
     slack_user_id_to_include := slack_user_id_to_include r |}.

Definition set_num_image_download_failure (f : Z -> Z) (r : FacebookAdCreativeRetriever) : FacebookAdCreativeRetriever :=
  {| max_video_download_size := max_video_download_size r;
     num_snapshots_processed := num_snapshots_processed r;
     num_snapshots_fetch_failed := num_snapshots_fetch_failed r;
     num_ad_creatives_found := num_ad_creatives_found r;
     num_snapshots_without_creative_found := num_snapshots_without_creative_found r;
     num_image_download_success := num_image_download_success r;
     num_image_download_failure := f (num_image_download_failure r);
     num_image_uploade_to_gcs_bucket := num_image_uploade_to_gcs_bucket r;
     num_video_download_success := num_video_download_success r;
     num_video_download_failure := num_video_download_failure r;
     num_video_uploade_to_gcs_bucket := num_video_uploade_to_gcs_bucket r;
     current_batch_id := current_batch_id r;
     commit_to_db_every_n_processed := commit_to_db_every_n_processed r;
     slack_url := slack_url r;
     slack_user_id_to_include := slack_user_id_to_include r |}.

Definition set_num_image_uploade_to_gcs_bucket (f : Z -> Z) (r : FacebookAdCreativeRetriever) : FacebookAdCreativeRetriever :=
  {| max_video_download_size := max_video_download_size r;
     num_snapshots_processed := num_snapshots_processed r;
     num_snapshots_fetch_failed := num_snapshots_fetch_failed r;
     num_ad_creatives_found := num_ad_creatives_found r;
     num_snapshots_without_creative_found := num_snapshots_without_creative_found r;
     num_image_download_success := num_image_download_success r;
     num_image_download_failure := num_image_download_failure r;
     num_image_uploade_to_gcs_bucket := f (num_image_uploade_to_gcs_bucket r);
     num_video_download_success := num_video_download_success r;
     num_video_download_failure := num_video_download_failure r;
     num_video_uploade_to_gcs_bucket := num_video_uploade_to_gcs_bucket r;
     current_batch_id := current_batch_id r;
     commit_to_db_every_n_processed := commit_to_db_every_n_processed r;
     slack_url := slack_url r;
     slack_user_id_to_include := slack_user_id_to_include r |}.

Definition set_num_video_download_success (f : Z -> Z) (r : FacebookAdCreativeRetriever) : FacebookAdCreativeRetriever :=
  {| max_video_download_size := max_video_download_size r;
     num_snapshots_processed := num_snapshots_processed r;
     num_snapshots_fetch_failed := num_snapshots_fetch_failed r;
     num_ad_creatives_found := num_ad_creatives_found r;
     num_snapshots_without_creative_found := num_snapshots_without_creative_found r;
     num_image_download_success := num_image_download_success r;
     num_image_download_failure := num_image_download_failure r;
     num_image_uploade_to_gcs_bucket := num_image_uploade_to_gcs_bucket r;
     num_video_download_success := f (num_video_download_success r);
     num_video_download_failure := num_video_download_failure r;
     num_video_uploade_to_gcs_bucket := num_video_uploade_to_gcs_bucket r;
     current_batch_id := current_batch_id r;
     commit_to_db_every_n_processed := commit_to_db_every_n_processed r;
     slack_url := slack_url r;
     slack_user_id_to_include := slack_user_id_to_include r |}.

Definition set_num_video_download_failure (f : Z -> Z) (r : FacebookAdCreativeRetriever) : FacebookAdCreativeRetriever :=
  {| max_video_download_size := max_video_download_size r;
     num_snapshots_processed := num_snapshots_processed r;
     num_snapshots_fetch_failed := num_snapshots_fetch_failed r;
     num_ad_creatives_found := num_ad_creatives_found r;
     num_snapshots_without_creative_found := num_snapshots_without_creative_found r;
     num_image_download_success := num_image_download_success r;
     num_image_download_failure := num_image_download_failure r;
     num_image_uploade_to_gcs_bucket := num_image_uploade_to_gcs_bucket r;
     num_video_download_success := num_video_download_success r;
     num_video_download_failure := f (num_video_download_failure r);
     num_video_uploade_to_gcs_bucket := num_video_uploade_to_gcs_bucket r;
     current_batch_id := current_batch_id r;
     commit_to_db_every_n_processed := commit_to_db_every_n_processed r;
     slack_url := slack_url r;
     slack_user_id_to_include := slack_user_id_to_include r |}.

Definition set_num_video_uploade_to_gcs_bucket (f : Z -> Z) (r : FacebookAdCreativeRetriever) : FacebookAdCreativeRetriever :=
  {| max_video_download_size := max_video_download_size r;
     num_snapshots_processed := num_snapshots_processed r;
     num_snapshots_fetch_failed := num_snapshots_fetch_failed r;
     num_ad_creatives_found := num_ad_creatives_found r;
     num_snapshots_without_creative_found := num_snapshots_without_creative_found r;
     num_image_download_success := num_image_download_success r;
     num_image_download_failure := num_image_download_failure r;
     num_image_uploade_to_gcs_bucket := num_image_uploade_to_gcs_bucket r;
     num_video_download_success := num_video_download_success r;
     num_video_download_failure := num_video_download_failure r;
     num_video_uploade_to_gcs_bucket := f (num_video_uploade_to_gcs_bucket r);
     current_batch_id := current_batch_id r;
     commit_to_db_every_n_processed := commit_to_db_every_n_processed r;
     slack_url := slack_url r;
     slack_user_id_to_include := slack_user_id_to_include r |}.

Definition set_current_batch_id (f : option Z -> option Z) (r : FacebookAdCreativeRetriever) : FacebookAdCreativeRetriever :=
  {| max_video_download_size := max_video_download_size r;
     num_snapshots_processed := num_snapshots_processed r;
     num_snapshots_fetch_failed := num_snapshots_fetch_failed r;
     num_ad_creatives_found := num_ad_creatives_found r;
     num_snapshots_without_creative_found := num_snapshots_without_creative_found r;
     num_image_download_success := num_image_download_success r;
     num_image_download_failure := num_image_download_failure r;
     num_image_uploade_to_gcs_bucket := num_image_uploade_to_gcs_bucket r;
     num_video_download_success := num_video_download_success r;
     num_video_download_failure := num_video_download_failure r;
     num_video_uploade_to_gcs_bucket := num_video_uploade_to_gcs_bucket r;
     current_batch_id := f (current_batch_id r);
     commit_to_db_every_n_processed := commit_to_db_every_n_processed r;
     slack_url := slack_url r;
     slack_user_id_to_include := slack_user_id_to_include r |}.

(** The collaborators outside the repository, as an interface.  [Ext] is
    their hidden state; every call may depend on it and change it. *)
Class Externals := {
  Ext : Type;
  (** [hashlib.sha256(data).hexdigest()] *)
  sha256_hexdigest : string -> string;
  (** [bytes(text, encoding='UTF-32')] *)
  encode_utf32 : string -> string;
  (** [get_image_dhash]: PIL decoding and [dhash]; [None] is [OSError]. *)
  get_image_dhash : string -> option string;
  (** [sim_hash_ad_creative_text.hash_ad_creative_text] *)
  hash_ad_creative_text : string -> Z;
  (** [langdetect.detect]; [None] is [LangDetectException]. *)
  detect : string -> option string;
  (** [int(s)] on a header value; [None] is [ValueError]. *)
  py_int : string -> option Z;
  (** [blob.id] of the blob handle for a bucket and a path. *)
  blob_id : string -> string -> string;
  (** [self.creative_retriever.retrieve_ad(str(archive_id))] *)
  creative_retriever_retrieve_ad : Ext -> Z -> Ext * (Exn + ScreenshotAndCreatives.t);
  (** [next(self.creative_retriever_generator)]: new browser, new extractor. *)
  next_creative_retriever : Ext -> Ext;
  (** [datetime.datetime.now()] *)
  datetime_now : Ext -> Ext * Z;
  (** [requests.get(video_url, timeout=30, stream=True)] *)
  requests_get : Ext -> string -> Ext * HttpResult;
  (** Whether the next request to the object store fails. *)
  gcs_request_fails : Ext -> Ext * bool;
  (** [db_interface.get_archive_id_batch_to_fetch()] *)
  get_archive_id_batch_to_fetch : Ext -> Ext * option Batch.t;
  (** The text of the operator alert for an error and a sleep time. *)
  rate_limit_slack_msg : Exn -> Z -> string
}.


(** ** Stateful, fallible computations

    A computation takes the state, returns the new state and either the
    exception it raised or its return value. *)
Definition M (S A : Type) : Type := S -> S * (Exn + A).

Definition ret {S A} (a : A) : M S A := fun s => (s, inr a).

Definition raise {S A} (e : Exn) : M S A := fun s => (s, inl e).

Definition bind {S A B} (m : M S A) (k : A -> M S B) : M S B :=
  fun s => match m s with
           | (s', inl e) => (s', inl e)
           | (s', inr a) => k a s'
           end.

Definition modify {S} (f : S -> S) : M S unit := fun s => (f s, inr tt).

Definition gets {S A} (f : S -> A) : M S A := fun s => (s, inr (f s)).

Notation "'let*' x ':=' m 'in' k" := (bind m (fun x => k))
  (at level 10, x name, m at level 100, k at level 200).
Notation "'let*' ' p ':=' m 'in' k" := (bind m (fun x => match x with p => k end))
  (at level 10, p strict pattern, m at level 100, k at level 200).
Notation "m ';;' k" := (bind m (fun _ => k))
  (at level 100, k at level 200, right associativity).

(** [try: m  except ...: handler]; the handler answers [None] for an
    exception no clause matches, which then propagates. *)
Definition try_except {S A} (m : M S A) (handler : Exn -> option (M S A)) : M S A :=
  fun s => match m s with
           | (s', inl e) => match handler e with
                            | Some h => h s'
                            | None => (s', inl e)
                            end
           | r => r
           end.

(** The [tenacity.retry(stop=stop_after_attempt(n))] decorator: the call is
    repeated while it raises, [RetryError] after the [n]-th failure.  The
    random waits between attempts change nothing in the state. *)
Fixpoint with_retry {S A} (attempts : nat) (m : M S A) : M S A :=
  match attempts with
  | O => raise RetryError
  | S k => fun s => match m s with
                    | (s', inl _) => with_retry k m s'
                    | r => r
                    end
  end.

(** [for x in l: body], with the loop-carried variables as accumulator. *)
Fixpoint for_each {S A B} (l : list A) (body : B -> A -> M S B) (acc : B) : M S B :=
  match l with
  | [] => ret acc
  | x :: l' => let* acc' := body acc x in for_each l' body acc'
  end.

(** Truth value of an optional string or bytes object: [None] and the empty
    string are false. *)
Definition truthy (o : option string) : bool :=
  match o with
  | Some s => negb (String.eqb s "")
  | None => false
  end.

(** ['%x' % n] *)
Definition format_hex (n : Z) : string :=
  match n with
  | Z0 => "0"
  | Zpos p => HexString.Raw.of_pos p ""
  | Zneg p => String "-" (HexString.Raw.of_pos p "")
  end.

(** [chunks(original_list, chunk_size)] for a positive chunk size. *)
Fixpoint chunks_from (fuel : nat) (original_list : list Z) (chunk_size : nat) : list (list Z) :=
  match fuel with
  | O => []
  | S fuel' =>
      match original_list with
      | [] => []
      | _ => take chunk_size original_list
             :: chunks_from fuel' (drop chunk_size original_list) chunk_size
      end
  end.

(** [chunks]: [range] raises [ValueError] for a zero step and is empty
    for a negative one. *)
Definition chunks (original_list : list Z) (chunk_size : Z) : Exn + list (list Z) :=
  if decide (chunk_size = 0) then inl ValueError
  else if decide (chunk_size < 0) then inr []
  else inr (chunks_from (length original_list) original_list (Z.to_nat chunk_size)).


(** ** ad_deduper.py: fingerprints and distances

    Fingerprints are read from hexadecimal columns and are non-negative. *)

Definition BIT_DIFFERENCE_THRESHOLD : nat := 3.

Fixpoint pos_popcount (p : positive) : nat :=
  match p with
  | xH => 1
  | xO p' => pos_popcount p'
  | xI p' => S (pos_popcount p')
  end.

(** Number of one bits. *)
Definition popcount (n : N) : nat :=
  match n with
  | N0 => O
  | Npos p => pos_popcount p
  end.

(** [dhash.get_num_bits_different(hash1, hash2)], that is
    [bin(hash1 ^ hash2).count('1')]. *)
Definition dhash_get_num_bits_different (hash1 hash2 : N) : nat :=
  popcount (N.lxor hash1 hash2).

(** [Simhash.distance] for [f]-bit fingerprints: the differing bits among
    the low [f] ones. *)
Definition simhash_distance (f : nat) (value another : N) : nat :=
  popcount (N.land (N.lxor value another) (N.ones (N.of_nat f))).

Module AdClusterRecord.
Record t := mk { archive_id : Z; ad_cluster_id : Z }.
End AdClusterRecord.

Module ArchiveIDAndSimHash.
Record t := mk { archive_id : Z; sim_hash : N }.
End ArchiveIDAndSimHash.

Definition get_num_bits_different
    (archive_id_and_simhash1 archive_id_and_simhash2 : ArchiveIDAndSimHash.t) : nat :=
  dhash_get_num_bits_different (ArchiveIDAndSimHash.sim_hash archive_id_and_simhash1)
                               (ArchiveIDAndSimHash.sim_hash archive_id_and_simhash2).

(** [itertools.combinations(l, 2)] *)
Fixpoint combinations2 {A} (l : list A) : list (A * A) :=
  match l with
  | [] => []
  | x :: l' => ((fun y => (x, y)) <$> l') ++ combinations2 l'
  end.

(** [min(l)]; [None] is the [ValueError] for an empty argument. *)
Definition py_min (l : list Z) : option Z :=
  match l with
  | [] => None
  | x :: l' => Some (foldl Z.min x l')
  end.

(** ** The near-duplicate index for text fingerprints

    Modelled from the spec: the [simhash] package is not among the sources.
    Section 9 describes its index: fingerprints of [f = 64] bits are split
    into [k + 1] bands, an entry is filed under each of its bands, and a query
    probes the bucket of each of its own bands and keeps the entries within
    distance [k] (section 4.6: all keys within Hamming distance [K]).  The
    pipeline hands the ids over as decimal strings and reads them back with
    [int]; the two conversions cancel and the ids stay integers here. *)
Module SimhashIndex.

Record t := mk {
  k : nat;
  f : nat;
  bucket : gmap (N * nat) (gset (N * Z))
}.

Definition offsets (f k : nat) : list nat :=
  (fun i => (f / (k + 1) * i)%nat) <$> seq 0 (k + 1).

(** The band keys of a fingerprint: the band's bits and its number. *)
Definition get_keys (f k : nat) (value : N) : list (N * nat) :=
  imap (fun i offset =>
          let m := if decide (i = length (offsets f k) - 1)%nat
                   then N.ones (N.of_nat (f - offset))
                   else N.ones (N.of_nat (default 0%nat (offsets f k !! S i) - offset)) in
          (N.land (N.shiftr value (N.of_nat offset)) m, i))
       (offsets f k).

Definition add (obj_id : Z) (value : N) (index : t) : t :=
  mk (k index) (f index)
     (foldl (fun b key => <[key := {[(value, obj_id)]} ∪ default ∅ (b !! key)]> b)
            (bucket index) (get_keys (f index) (k index) value)).

(** [SimhashIndex(objs, k=k)] *)
Definition new (objs : list (Z * N)) (k : nat) : t :=
  foldl (fun index q => add q.1 q.2 index) (mk k 64 ∅) objs.

Definition get_near_dups (index : t) (value : N) : list Z :=
  let ans : gset Z :=
    foldl (fun ans key =>
             foldl (fun ans dup =>
                      if (simhash_distance (f index) value dup.1 <=? k index)%nat
                      then {[dup.2]} ∪ ans else ans)
                   ans (elements (default ∅ (bucket index !! key))))
          ∅ (get_keys (f index) (k index) value) in
  elements ans.

End SimhashIndex.

(** ** The near-duplicate index for image fingerprints

    Modelled from the spec: the [pybktree] package is not among the sources.
    Section 9 asks for a BK-tree under the Hamming distance with inserts and
    range queries: a node holds an item and one subtree per distance to it;
    an insert walks down the subtree at the distance of the new item, a query
    visits the subtrees whose distance lies within the radius of the distance
    of the probe.  The children are kept in insertion order.  The caller only
    builds a set from the answer, so its order is not modelled. *)
Module BKTree.

#[local] Unset Elimination Schemes.
Inductive node :=
| Node (item : ArchiveIDAndSimHash.t) (children : list (nat * node)).
#[local] Set Elimination Schemes.

(** The tree attribute: [None] before the first insert. *)
Definition t := option node.

Fixpoint add_node (item : ArchiveIDAndSimHash.t) (n : node) : node :=
  match n with
  | Node parent children =>
      let distance := get_num_bits_different item parent in
      Node parent
        ((fix go (cs : list (nat * node)) : list (nat * node) :=
            match cs with
            | [] => [(distance, Node item [])]
            | (d, c) :: cs' =>
                if decide (d = distance) then (d, add_node item c) :: cs'
                else (d, c) :: go cs'
            end) children)
  end.

Definition add (item : ArchiveIDAndSimHash.t) (tree : t) : t :=
  match tree with
  | None => Some (Node item [])
  | Some n => Some (add_node item n)
  end.

Fixpoint find_node (item : ArchiveIDAndSimHash.t) (n : nat) (nd : node)
  : list (nat * ArchiveIDAndSimHash.t) :=
  match nd with
  | Node candidate children =>
      let distance := get_num_bits_different candidate item in
      (if (distance <=? n)%nat then [(distance, candidate)] else []) ++
      (fix go (cs : list (nat * node)) : list (nat * ArchiveIDAndSimHash.t) :=
         match cs with
         | [] => []
         | (d, c) :: cs' =>
             let lower := Z.of_nat distance - Z.of_nat n in
             let upper := Z.of_nat distance + Z.of_nat n in
             (if (lower <=? Z.of_nat d) && (Z.of_nat d <=? upper)
              then find_node item n c else []) ++ go cs'
         end) children
  end.

Definition find (tree : t) (item : ArchiveIDAndSimHash.t) (n : nat)
  : list (nat * ArchiveIDAndSimHash.t) :=
  match tree with
  | None => []
  | Some nd => find_node item n nd
  end.

End BKTree.

(** ** Union-find

    Modelled from the spec: [lib/unionfind] is not among the sources.
    Section 9: a standard disjoint-set with union by rank and path
    compression over integer ids, whose [components()] returns the sets.  The
    deduper starts from an empty structure and only ever calls [union], so
    [union] enters the elements it has not seen. *)
Module UnionFind.

Record t := mk {
  elts : list Z;
  par : gmap Z Z;
  rnk : gmap Z nat
}.

Definition new : t := mk [] ∅ ∅.

Definition rank_of (uf : t) (x : Z) : nat := default 0%nat (rnk uf !! x).

Definition add (x : Z) : M t unit :=
  modify (fun uf => match par uf !! x with
                    | Some _ => uf
                    | None => mk (elts uf ++ [x]) (<[x := x]> (par uf)) (<[x := 0%nat]> (rnk uf))
                    end).

(** The root of [x], with every node on the way re-attached to it; [None]
    for an id that is not an element or when the fuel runs out. *)
Fixpoint find_compress (fuel : nat) (parent : gmap Z Z) (x : Z) : option (Z * gmap Z Z) :=
  match fuel with
  | O => None
  | S fuel' =>
      match parent !! x with
      | None => None
      | Some p =>
          if decide (p = x) then Some (x, parent)
          else match find_compress fuel' parent p with
               | Some (root, parent') => Some (root, <[x := root]> parent')
               | None => None
               end
      end
  end.

Definition find (x : Z) : M t Z :=
  fun uf => match find_compress (size (par uf)) (par uf) x with
            | Some (root, parent') => (mk (elts uf) parent' (rnk uf), inr root)
            | None => (uf, inl ValueError)
            end.

Definition link (xroot yroot : Z) : M t unit :=
  modify (fun uf =>
            let rx := rank_of uf xroot in
            let ry := rank_of uf yroot in
            if (rx <? ry)%nat then mk (elts uf) (<[xroot := yroot]> (par uf)) (rnk uf)
            else if (ry <? rx)%nat then mk (elts uf) (<[yroot := xroot]> (par uf)) (rnk uf)
            else mk (elts uf) (<[yroot := xroot]> (par uf)) (<[xroot := S rx]> (rnk uf))).

Definition union (x y : Z) : M t unit :=
  add x ;;
  add y ;;
  let* xroot := find x in
  let* yroot := find y in
  if decide (xroot = yroot) then ret tt else link xroot yroot.

(** [components()]: the elements grouped by root, a group per root in the
    order the roots are first met. *)
Definition components : M t (list (list Z)) :=
  let* elements := gets elts in
  let* roots := for_each elements (fun acc x => let* r := find x in ret (acc ++ [(r, x)])) [] in
  let distinct_roots := remove_dups (roots.*1) in
  ret ((fun root => (filter (fun rx => rx.1 = root) roots).*2) <$> distinct_roots).

End UnionFind.

(** ** ad_deduper.py: the clustering passes *)

(** [for archive_id_pair in itertools.combinations(ids, 2): union(...)] *)
Definition union_all_pairs (ids : list Z) : M UnionFind.t unit :=
  for_each (combinations2 ids)
    (fun (_ : unit) archive_id_pair => UnionFind.union archive_id_pair.1 archive_id_pair.2) tt.

(** [_ad_creative_body_text_similarity_clusters]; the argument is what
    [all_ad_creative_text_simhashes] returned, a dictionary from fingerprint
    to set of archive ids, in the iteration order of the dictionary and of its
    sets; the union-find object is the state. *)
Definition _ad_creative_body_text_similarity_clusters
    (simhash_to_archive_ids : list (N * list Z)) : M UnionFind.t unit :=
  let* min_archive_id_and_sim_hash_tuples :=
    for_each simhash_to_archive_ids
      (fun tuples '(sim_hash, archive_id_set) =>
         match py_min archive_id_set with
         | None => raise ValueError
         | Some min_archive_id =>
             union_all_pairs archive_id_set ;;
             ret (tuples ++ [(min_archive_id, sim_hash)])
         end) [] in
  let text_simhash_index :=
    SimhashIndex.new min_archive_id_and_sim_hash_tuples BIT_DIFFERENCE_THRESHOLD in
  for_each simhash_to_archive_ids
    (fun (_ : unit) '(curr_simhash_as_int, _) =>
       let found := SimhashIndex.get_near_dups text_simhash_index curr_simhash_as_int in
       union_all_pairs found) tt.

(** [_ad_creative_image_similarity_clusters]; the tree is threaded through
    the first loop next to the union-find state. *)
Definition _ad_creative_image_similarity_clusters
    (simhash_to_archive_id_set : list (N * list Z)) : M UnionFind.t unit :=
  let* image_simhash_tree :=
    for_each simhash_to_archive_id_set
      (fun tree '(sim_hash, archive_id_set) =>
         match py_min archive_id_set with
         | None => raise ValueError
         | Some min_archive_id =>
             let tree := BKTree.add (ArchiveIDAndSimHash.mk min_archive_id sim_hash) tree in
             union_all_pairs archive_id_set ;;
             ret tree
         end) (None : BKTree.t) in
  for_each simhash_to_archive_id_set
    (fun (_ : unit) '(curr_simhash, _) =>
       let found := BKTree.find image_simhash_tree
                      (ArchiveIDAndSimHash.mk (-1) curr_simhash) BIT_DIFFERENCE_THRESHOLD in
       let found_archive_ids : gset Z :=
         list_to_set ((fun x => ArchiveIDAndSimHash.archive_id x.2) <$> found) in
       union_all_pairs (elements found_archive_ids)) tt.

(** ** ad_deduper.py: [update_ad_clusters] *)

(** What the function does to the database, in order.
    Modelled from the spec: [db_functions] is not among the sources; the
    cluster upserts of section 4.3 take the list of assignments. *)
Inductive DbEvent :=
| EvInsertOrUpdateAdTextClusterRecords (records : list AdClusterRecord.t)
| EvInsertOrUpdateAdImageClusterRecords (records : list AdClusterRecord.t)
| EvCommit
| EvRollback.

(** The values a name of the function can be bound to. *)
Inductive PyValue :=
| PyClusters (clusters : list (list Z))
| PyRecords (records : list AdClusterRecord.t)
| PyInt (z : Z)
| PyObject (description : string).

(** The names assigned somewhere in the body of [update_ad_clusters], its
    parameter included: the compiler makes exactly these local. *)
Definition update_ad_clusters_local_names : list string :=
  ["database_connection"; "text_clusters_union_find"; "text_clusters";
   "ad_cluster_records"; "next_new_cluster_id"; "component"; "cluster_id";
   "archive_id"; "db_interface"; "image_clusters_union_find"; "image_clusters"].

(** The names bound at the top level of [ad_deduper.py]. *)
Definition module_global_names : list string :=
  ["__name__"; "__doc__"; "__file__"; "__builtins__";
   "collections"; "itertools"; "logging"; "sys"; "dhash"; "pybktree"; "simhash";
   "config_utils"; "db_functions"; "unionfind";
   "BIT_DIFFERENCE_THRESHOLD"; "AdClusterRecord"; "ArchiveIDAndSimHash";
   "_ad_creative_body_text_similarity_clusters"; "get_num_bits_different";
   "_ad_creative_image_similarity_clusters"; "_get_lowest_archive_id_cluster_id";
   "update_ad_clusters"; "main"].

(** The functions, types and constants of the [builtins] module; the
    exception classes, whose names all end in Error, Exception, Warning,
    Exit, Interrupt or Iteration, are left out. *)
Definition builtin_names : list string :=
  ["abs"; "aiter"; "all"; "anext"; "any"; "ascii"; "bin"; "bool"; "breakpoint";
   "bytearray"; "bytes"; "callable"; "chr"; "classmethod"; "compile"; "complex";
   "copyright"; "credits"; "delattr"; "dict"; "dir"; "divmod"; "enumerate"; "eval";
   "exec"; "exit"; "filter"; "float"; "format"; "frozenset"; "getattr"; "globals";
   "hasattr"; "hash"; "help"; "hex"; "id"; "input"; "int"; "isinstance";
   "issubclass"; "iter"; "len"; "license"; "list"; "locals"; "map"; "max";
   "memoryview"; "min"; "next"; "object"; "oct"; "open"; "ord"; "pow"; "print";
   "property"; "quit"; "range"; "repr"; "reversed"; "round"; "set"; "setattr";
   "slice"; "sorted"; "staticmethod"; "str"; "sum"; "super"; "tuple"; "type";
   "vars"; "zip"; "__import__"; "__build_class__"; "__debug__";
   "True"; "False"; "None"; "Ellipsis"; "NotImplemented"].

(** Reading a name inside [update_ad_clusters]: a local name is read from the
    frame, any other name from the module and then from the built-ins. *)
Definition load_name (frame : list (string * PyValue)) (name : string) : Exn + PyValue :=
  if bool_decide (name ∈ update_ad_clusters_local_names)
  then match (list_to_map frame : gmap string PyValue) !! name with
       | Some v => inr v
       | None => inl (UnboundLocalError name)
       end
  else if bool_decide (name ∈ module_global_names ++ builtin_names)
  then inr (PyObject name)
  else inl (NameError name).

(** The two nested loops that number the components and build the records. *)
Definition make_ad_cluster_records (clusters : list (list Z)) : list AdClusterRecord.t :=
  mjoin (imap (fun cluster_id component =>
                 (fun archive_id => AdClusterRecord.mk archive_id (Z.of_nat cluster_id))
                   <$> component)
              clusters).

(** A clustering pass on a fresh union-find object, and its components. *)
Definition clusters_of (pass : M UnionFind.t unit) : Exn + list (list Z) :=
  ((pass ;; UnionFind.components) UnionFind.new).2.

(** [with database_connection: body]: the transaction is committed when the
    body ends and rolled back when it raises. *)
Definition with_database_connection {A} (body : M (list DbEvent) A) : M (list DbEvent) A :=
  fun db => match body db with
            | (db', inl e) => (db' ++ [EvRollback], inl e)
            | (db', inr a) => (db' ++ [EvCommit], inr a)
            end.

Definition db_do (ev : DbEvent) : M (list DbEvent) unit := modify (fun db => db ++ [ev]).

Definition lift_result {S A} (r : Exn + A) : M S A := fun s => (s, r).

(** The bindings of the loop variables after the numbering loops. *)
Definition loop_variable_bindings (clusters : list (list Z)) : list (string * PyValue) :=
  match last clusters with
  | Some component =>
      [("component", PyClusters [component]);
       ("cluster_id", PyInt (Z.of_nat (length clusters) - 1))] ++
      match last (mjoin clusters) with
      | Some archive_id => [("archive_id", PyInt archive_id)]
      | None => []
      end
  | None => []
  end.

(** [update_ad_clusters]; the arguments are the two dictionaries the
    database hands out, the state is what is done to the database. *)
Definition update_ad_clusters (text_simhashes image_simhashes : list (N * list Z))
  : M (list DbEvent) PyValue :=
  with_database_connection (
    let* text_clusters :=
      lift_result (clusters_of (_ad_creative_body_text_similarity_clusters text_simhashes)) in
    let ad_cluster_records := make_ad_cluster_records text_clusters in
    db_do (EvInsertOrUpdateAdTextClusterRecords ad_cluster_records) ;;
    db_do EvCommit ;;
    let* image_clusters :=
      lift_result (clusters_of (_ad_creative_image_similarity_clusters image_simhashes)) in
    let ad_cluster_records := make_ad_cluster_records image_clusters in
    db_do (EvInsertOrUpdateAdImageClusterRecords ad_cluster_records) ;;
    db_do EvCommit ;;
    let frame :=
      loop_variable_bindings text_clusters ++ loop_variable_bindings image_clusters ++
      [("database_connection", PyObject "connection");
       ("text_clusters_union_find", PyObject "UnionFind");
       ("text_clusters", PyClusters text_clusters);
       ("ad_cluster_records", PyRecords ad_cluster_records);
       ("next_new_cluster_id", PyInt (Z.of_nat (length image_clusters)));
       ("db_interface", PyObject "DBInterface");
       ("image_clusters_union_find", PyObject "UnionFind");
       ("image_clusters", PyClusters image_clusters)] in
    (* return components *)
    lift_result (load_name frame "components")).


(** ** fb_ad_creative_retriever.py: the pipeline *)

Definition AD_CREATIVE_IMAGES_BUCKET : string := "facebook_ad_images".
Definition AD_CREATIVE_VIDEOS_BUCKET : string := "facebook_ad_videos".
Definition ARCHIVE_SCREENSHOTS_BUCKET : string := "facebook_ad_archive_screenshots".
Definition CONTENT_LENGTH_HEADER : string := "content-length".

Section Retriever.
Context `{Externals}.

(** The outside world: the collaborators' hidden state, the objects in the
    buckets (by bucket name and path) and the effects so far. *)
Record World := mkWorld {
  ext : Ext;
  objects : gmap (string * string) string;
  trace : list Event
}.

Record St := mkSt {
  self : FacebookAdCreativeRetriever;
  world : World
}.

Definition on_self (f : FacebookAdCreativeRetriever -> FacebookAdCreativeRetriever) : M St unit :=
  modify (fun s => mkSt (f (self s)) (world s)).

Definition emit (ev : Event) : M St unit :=
  modify (fun s => mkSt (self s)
                        (mkWorld (ext (world s)) (objects (world s)) (trace (world s) ++ [ev]))).

(** A call to a collaborator that returns a value. *)
Definition call_ext {A} (f : Ext -> Ext * A) : M St A :=
  fun s => let (e', a) := f (ext (world s)) in
           (mkSt (self s) (mkWorld e' (objects (world s)) (trace (world s))), inr a).

(** A call to a collaborator that may raise. *)
Definition call_ext_raising {A} (f : Ext -> Ext * (Exn + A)) : M St A :=
  fun s => let (e', r) := f (ext (world s)) in
           (mkSt (self s) (mkWorld e' (objects (world s)) (trace (world s))), r).

(** *** Object store *)

Definition gcs_request : M St unit :=
  let* fails := call_ext gcs_request_fails in
  if (fails : bool) then raise GoogleCloudError else ret tt.

(** [blob.exists()] *)
Definition blob_exists (bucket blob_path : string) : M St bool :=
  gcs_request ;;
  gets (fun s => bool_decide (is_Some (objects (world s) !! (bucket, blob_path)))).

(** [blob.upload_from_string(blob_data)] *)
Definition blob_upload_from_string (bucket blob_path blob_data : string) : M St unit :=
  gcs_request ;;
  modify (fun s => mkSt (self s)
                        (mkWorld (ext (world s))
                                 (<[(bucket, blob_path) := blob_data]> (objects (world s)))
                                 (trace (world s) ++ [EvBlobUpload bucket blob_path blob_data]))).

(** The body of [upload_blob].  [bucket_client.blob(blob_path)] makes a
    [Blob] object without properties; [exists()] does not load them and
    [upload_from_string] sets them from the answer of the store.  [blob.id]
    reads the properties: it is [None] when the object was found and the
    upload skipped, and the id of the object when this call uploaded it. *)
Definition upload_blob_attempt (bucket blob_path blob_data : string)
  : M St (option string) :=
  let* blob_exists_already := blob_exists bucket blob_path in
  let* properties_loaded :=
    (if (blob_exists_already : bool) then ret false
     else blob_upload_from_string bucket blob_path blob_data ;; ret true) in
  ret (if (properties_loaded : bool) then Some (blob_id bucket blob_path) else None).

Definition upload_blob (bucket blob_path blob_data : string) : M St (option string) :=
  with_retry 4 (upload_blob_attempt bucket blob_path blob_data).

Definition send_slack_message (url msg : string) (user_id_to_include : option string) : M St unit :=
  let msg := if truthy user_id_to_include
             then ("<@" ++ default "" user_id_to_include ++ "> " ++ msg)%string
             else msg in
  emit (EvSlack url msg).

(** [time.sleep(seconds)]: a negative argument is a [ValueError]. *)
Definition time_sleep (seconds : Z) : M St unit :=
  if seconds <? 0 then raise ValueError else emit (EvSleep seconds).

Definition reset_creative_retriever : M St unit :=
  call_ext (fun e => (next_creative_retriever e, tt)).

Definition store_image_in_google_bucket (image_dhash image_bytes : string) : M St string :=
  let image_bucket_path := make_image_hash_file_path image_dhash in
  let* _ := upload_blob AD_CREATIVE_IMAGES_BUCKET image_bucket_path image_bytes in
  on_self (set_num_image_uploade_to_gcs_bucket (fun n => n + 1)) ;;
  ret image_bucket_path.

Definition store_video_in_google_bucket (video_sha256_hash video_bytes : string) : M St string :=
  let video_bucket_path := make_video_sha256_hash_file_path video_sha256_hash in
  let* _ := upload_blob AD_CREATIVE_VIDEOS_BUCKET video_bucket_path video_bytes in
  on_self (set_num_video_uploade_to_gcs_bucket (fun n => n + 1)) ;;
  ret video_bucket_path.

Definition store_snapshot_screenshot (archive_id : Z) (screenshot_binary_data : string) : M St unit :=
  let bucket_path := (pretty archive_id ++ ".png")%string in
  let* _ := upload_blob ARCHIVE_SCREENSHOTS_BUCKET bucket_path screenshot_binary_data in
  ret tt.

(** *** [retrieve_ad] *)

Definition is_browser_error (e : Exn) : bool :=
  match e with
  | BrowserTimeoutError | WebDriverException => true
  | _ => false
  end.

(** One pass through the two statements of the inner [try]: [fetch_time] is
    assigned before the extractor is called and keeps its value when the call
    raises, so the exception is handed back next to it. *)
Definition retrieve_attempt (archive_id : Z)
  : M St (Z * (Exn + ScreenshotAndCreatives.t)) :=
  let* fetch_time := call_ext datetime_now in
  fun s => let (s', r) := call_ext_raising (fun e => creative_retriever_retrieve_ad e archive_id) s in
           (s', inr (fetch_time, r)).

(** The [except] clauses of the outer [try] of [retrieve_ad]: the status the
    clause leaves in [snapshot_fetch_status] and whether it counts a failed
    fetch; [None] when no clause matches. *)
Definition snapshot_fetch_status_of_error (e : Exn) : option (SnapshotFetchStatus * bool) :=
  match e with
  | RequestException => Some (UNKNOWN, true)
  | SnapshotNoContentFoundError | SnapshotMissingMediaError => Some (NO_CONTENT_FOUND, false)
  | SnapshotAgeRestrictionError => Some (AGE_RESTRICTION_ERROR, false)
  | SnapshotIntellectualPropertyViolationError =>
      Some (INTELLECTUAL_PROPERTY_VIOLATION_ERROR, false)
  | SnapshotInvalidIdError | SnapshotWrongAdArchiveIdError => Some (INVALID_ID_ERROR, false)
  | SnapshotPermanentlyUnavailableError => Some (SNAPSHOT_PERMANENTLY_UNAVAILABLE_ERROR, false)
  | _ => None
  end.

(** The inner [try] of [retrieve_ad]: on a browser error the extractor is
    rebuilt and asked once more; what the last call did is handed back next to
    the last value of [fetch_time]. *)
Definition retrieve_with_browser_retry (archive_id : Z)
  : M St (Z * (Exn + ScreenshotAndCreatives.t)) :=
  let* '(fetch_time, r) := retrieve_attempt archive_id in
  match r with
  | inl error =>
      if is_browser_error error
      then reset_creative_retriever ;; retrieve_attempt archive_id
      else ret (fetch_time, r)
  | inr _ => ret (fetch_time, r)
  end.

Definition retrieve_ad (archive_id : Z)
  : M St (option ScreenshotAndCreatives.t * AdSnapshotMetadataRecord.t) :=
  let* '(fetch_time, r) := retrieve_with_browser_retry archive_id in
  let finish (screenshot_and_creatives : option ScreenshotAndCreatives.t)
             (snapshot_fetch_status : SnapshotFetchStatus) :=
    let snapshot_metadata_record :=
      AdSnapshotMetadataRecord.mk archive_id fetch_time snapshot_fetch_status in
    on_self (set_num_snapshots_processed (fun n => n + 1)) ;;
    ret (screenshot_and_creatives, snapshot_metadata_record) in
  match r with
  | inr screenshot_and_creatives =>
      match ScreenshotAndCreatives.creatives screenshot_and_creatives with
      | _ :: _ => finish (Some screenshot_and_creatives) SUCCESS
      | [] => finish (Some screenshot_and_creatives) NO_AD_CREATIVES_FOUND
      end
  | inl error =>
      match snapshot_fetch_status_of_error error with
      | Some (snapshot_fetch_status, failed) =>
          (if (failed : bool)
           then on_self (set_num_snapshots_fetch_failed (fun n => n + 1))
           else ret tt) ;;
          finish None snapshot_fetch_status
      | None => raise error
      end
  end.

(** *** [download_video] *)

Definition download_video (archive_id : Z) (video_url : string)
  : M St (option DownloadedVideoAttributes.t) :=
  (* except requests.RequestException *)
  let request_exception : M St (option DownloadedVideoAttributes.t) :=
    on_self (set_num_video_download_failure (fun n => n + 1)) ;;
    ret None in
  let* response := call_ext (fun e => requests_get e video_url) in
  match response with
  | HttpRaises => request_exception
  | HttpResponse video_request =>
      (* video_request.raise_for_status() *)
      if negb (Response.status_ok video_request) then request_exception
      else
        match Response.headers video_request !! CONTENT_LENGTH_HEADER with
        | None => ret None
        | Some header_value =>
            match py_int header_value with
            | None => ret None
            | Some video_content_len =>
                let* max_size := gets (fun s => max_video_download_size (self s)) in
                if video_content_len >? max_size
                then on_self (set_num_video_download_failure (fun n => n + 1)) ;;
                     ret None
                else
                  match Response.content video_request with
                  | None => request_exception
                  | Some video_bytes =>
                      on_self (set_num_video_download_success (fun n => n + 1)) ;;
                      let video_sha256 := sha256_hexdigest video_bytes in
                      let* video_bucket_path :=
                        store_video_in_google_bucket video_sha256 video_bytes in
                      ret (Some (DownloadedVideoAttributes.mk video_sha256 video_bucket_path))
                  end
            end
        end
  end.

(** *** [process_fetched_ad_creative_data] *)

(** The image part of the loop body: [None] stands for the [continue] after
    a failed decoding, otherwise the values of [image_dhash], [image_sha256],
    [image_bucket_path] and [image_url]. *)
Definition process_creative_image (creative : Creative.t)
  : M St (option (option string * option string * option string * option string)) :=
  match Creative.image creative with
  | Some image =>
      match get_image_dhash (FetchedImage.binary_data image) with
      | None =>
          on_self (set_num_image_download_failure (fun n => n + 1)) ;;
          ret None
      | Some image_dhash =>
          on_self (set_num_image_download_success (fun n => n + 1)) ;;
          let image_url := FetchedImage.url image in
          let image_sha256 := sha256_hexdigest (FetchedImage.binary_data image) in
          let* image_bucket_path :=
            store_image_in_google_bucket image_dhash (FetchedImage.binary_data image) in
          ret (Some (Some image_dhash, Some image_sha256, Some image_bucket_path, image_url))
      end
  | None => ret (Some (None, None, None, None))
  end.

(** The video part: the values of [video_sha256] and [video_bucket_path]. *)
Definition process_creative_video (archive_id : Z) (creative : Creative.t)
  : M St (option string * option string) :=
  if truthy (Creative.video_url creative)
  then
    let* downloaded_video_attributes :=
      download_video archive_id (default "" (Creative.video_url creative)) in
    match downloaded_video_attributes with
    | Some attrs => ret (Some (DownloadedVideoAttributes.video_sha256_hash attrs),
                         Some (DownloadedVideoAttributes.video_bucket_path attrs))
    | None => ret (None, None)
    end
  else ret (None, None).

(** The text part: [text], [text_sim_hash], [text_sha256_hash] and
    [ad_creative_body_language]. *)
Definition process_creative_text (creative : Creative.t)
  : option string * option string * option string * option string :=
  if truthy (Creative.body creative)
  then
    let text := default "" (Creative.body creative) in
    (Some text,
     Some (format_hex (hash_ad_creative_text text)),
     Some (sha256_hexdigest (encode_utf32 text)),
     detect text)
  else (None, None, None, None).

Definition make_ad_creative_record (archive_id : Z) (creative : Creative.t)
    (text text_sim_hash text_sha256_hash ad_creative_body_language : option string)
    (image_dhash image_sha256 image_bucket_path image_url : option string)
    (video_sha256 video_bucket_path : option string) : AdCreativeRecord.t :=
  let link := Creative.link_attributes creative in
  {| AdCreativeRecord.archive_id := archive_id;
     AdCreativeRecord.ad_creative_body := text;
     AdCreativeRecord.ad_creative_body_language := ad_creative_body_language;
     AdCreativeRecord.ad_creative_link_url := link ≫= LinkAttributes.url;
     AdCreativeRecord.ad_creative_link_caption := link ≫= LinkAttributes.caption;
     AdCreativeRecord.ad_creative_link_title := link ≫= LinkAttributes.title;
     AdCreativeRecord.ad_creative_link_description := link ≫= LinkAttributes.description;
     AdCreativeRecord.ad_creative_link_button_text := link ≫= LinkAttributes.button;
     AdCreativeRecord.text_sha256_hash := text_sha256_hash;
     AdCreativeRecord.image_sha256_hash := image_sha256;
     AdCreativeRecord.image_downloaded_url := image_url;
     AdCreativeRecord.image_bucket_path := image_bucket_path;
     AdCreativeRecord.text_sim_hash := text_sim_hash;
     AdCreativeRecord.image_sim_hash := image_dhash;
     AdCreativeRecord.video_sha256_hash := video_sha256;
     AdCreativeRecord.video_downloaded_url := Creative.video_url creative;
     AdCreativeRecord.video_bucket_path := video_bucket_path |}.

(** The body of the loop over [fetched_data.creatives]; the accumulator is
    [(seen_unique_constraint_attrs, ad_creative_records)]. *)
Definition process_creative (archive_id : Z)
    (acc : gset AdCreativeRecordUniqueConstraintAttributes * list AdCreativeRecord.t)
    (creative : Creative.t)
  : M St (gset AdCreativeRecordUniqueConstraintAttributes * list AdCreativeRecord.t) :=
  let '(seen_unique_constraint_attrs, ad_creative_records) := acc in
  let* image := process_creative_image creative in
  match image with
  | None => ret acc
  | Some (image_dhash, image_sha256, image_bucket_path, image_url) =>
      let* '(video_sha256, video_bucket_path) := process_creative_video archive_id creative in
      let '(text, text_sim_hash, text_sha256_hash, ad_creative_body_language) :=
        process_creative_text creative in
      let unique_constraint_attrs : AdCreativeRecordUniqueConstraintAttributes :=
        (archive_id, text_sha256_hash, image_sha256, video_sha256) in
      if bool_decide (unique_constraint_attrs ∈ seen_unique_constraint_attrs)
      then ret acc
      else ret ({[unique_constraint_attrs]} ∪ seen_unique_constraint_attrs,
                ad_creative_records ++
                [make_ad_creative_record archive_id creative
                   text text_sim_hash text_sha256_hash ad_creative_body_language
                   image_dhash image_sha256 image_bucket_path image_url
                   video_sha256 video_bucket_path])
  end.

Definition process_fetched_ad_creative_data (archive_id : Z)
    (fetched_data : ScreenshotAndCreatives.t) : M St (option (list AdCreativeRecord.t)) :=
  match ScreenshotAndCreatives.creatives fetched_data with
  | [] => ret None
  | creatives =>
      let* '(_, ad_creative_records) :=
        for_each creatives (process_creative archive_id) (∅, []) in
      ret (Some ad_creative_records)
  end.

(** *** [process_archive_ids] *)

(** The body of the loop over [archive_ids]; the accumulator is
    [(archive_ids_without_creative_found, snapshot_metadata_records,
      ad_creative_records)]. *)
Definition process_archive_id
    (acc : Z * list AdSnapshotMetadataRecord.t * list AdCreativeRecord.t) (archive_id : Z)
  : M St (Z * list AdSnapshotMetadataRecord.t * list AdCreativeRecord.t) :=
  let '(archive_ids_without_creative_found, snapshot_metadata_records, ad_creative_records) :=
    acc in
  let* '(screenshot_and_creatives, snapshot_metadata_record) := retrieve_ad archive_id in
  let snapshot_metadata_records := snapshot_metadata_records ++ [snapshot_metadata_record] in
  match screenshot_and_creatives with
  | None =>
      ret (archive_ids_without_creative_found + 1, snapshot_metadata_records,
           ad_creative_records)
  | Some screenshot_and_creatives =>
      (if truthy (ScreenshotAndCreatives.screenshot_binary_data screenshot_and_creatives)
       then store_snapshot_screenshot archive_id
              (default "" (ScreenshotAndCreatives.screenshot_binary_data
                             screenshot_and_creatives))
       else ret tt) ;;
      match ScreenshotAndCreatives.creatives screenshot_and_creatives with
      | _ :: _ =>
          let* new_ad_creative_recoreds :=
            process_fetched_ad_creative_data archive_id screenshot_and_creatives in
          match new_ad_creative_recoreds with
          | Some (r :: rs) =>
              ret (archive_ids_without_creative_found, snapshot_metadata_records,
                   ad_creative_records ++ r :: rs)
          | _ =>
              ret (archive_ids_without_creative_found, snapshot_metadata_records,
                   ad_creative_records)
          end
      | [] =>
          ret (archive_ids_without_creative_found + 1, snapshot_metadata_records,
               ad_creative_records)
      end
  end.

(** The two database calls at the end of [process_archive_ids].
    Modelled from the spec: [db_functions] is not among the sources; the
    upserts of section 4.3 take the list and record it. *)
Definition insert_ad_creative_records (records : list AdCreativeRecord.t) : M St unit :=
  emit (EvInsertAdCreativeRecords records).

Definition update_ad_snapshot_metadata (records : list AdSnapshotMetadataRecord.t) : M St unit :=
  emit (EvUpdateAdSnapshotMetadata records).

Definition process_archive_ids (archive_ids : list Z) : M St unit :=
  let* '(archive_ids_without_creative_found, snapshot_metadata_records, ad_creative_records) :=
    for_each archive_ids process_archive_id (0, [], []) in
  on_self (set_num_ad_creatives_found (fun n => n + Z.of_nat (length ad_creative_records))) ;;
  on_self (set_num_snapshots_without_creative_found
             (fun n => n + archive_ids_without_creative_found)) ;;
  insert_ad_creative_records ad_creative_records ;;
  update_ad_snapshot_metadata snapshot_metadata_records.

(** *** The lease loop *)

(** Modelled from the spec: [release_batch] and [complete_batch] of
    section 4.3, recorded as effects. *)
Definition release_uncompleted_fetch_batch (batch_id : option Z) : M St unit :=
  emit (EvReleaseUncompletedFetchBatch batch_id).

Definition mark_fetch_batch_completed (batch_id : option Z) : M St unit :=
  emit (EvMarkFetchBatchCompleted batch_id).

(** [get_archive_id_batch_or_wait_until_available]; [None] when the fuel
    runs out before the store has work. *)
Fixpoint get_archive_id_batch_or_wait_until_available (fuel : nat)
  : St -> option (St * Batch.t) :=
  match fuel with
  | O => fun _ => None
  | S fuel' => fun s =>
      let (e', batch_and_archive_ids) := get_archive_id_batch_to_fetch (ext (world s)) in
      let s1 := mkSt (self s) (mkWorld e' (objects (world s)) (trace (world s))) in
      match batch_and_archive_ids with
      | Some batch_and_archive_ids => Some (s1, batch_and_archive_ids)
      | None =>
          get_archive_id_batch_or_wait_until_available fuel'
            (time_sleep NO_AVAILABLE_WORK_SLEEP_TIME s1).1
      end
  end.

Definition is_rate_limit_error (e : Exn) : bool :=
  match e with
  | TooManyRequestsError _ | EndBatchCrawlerException _ => true
  | _ => false
  end.

(** [getattr(error, 'wait_before_next_batch_seconds', TOO_MANY_REQUESTS_SLEEP_TIME)] *)
Definition suggested_sleep_time (error : Exn) : Z :=
  match error with
  | TooManyRequestsError (Some w) | EndBatchCrawlerException (Some w) => w
  | _ => TOO_MANY_REQUESTS_SLEEP_TIME
  end.

(** The body of the inner [try] of the lease loop: the chunks of the batch. *)
Definition process_chunks (archive_id_batch : list Z) : M St unit :=
  let* n := gets (fun s => commit_to_db_every_n_processed (self s)) in
  match chunks archive_id_batch n with
  | inl e => raise e
  | inr archive_id_chunks =>
      for_each archive_id_chunks
        (fun (_ : unit) archive_id_chunk => process_archive_ids archive_id_chunk) tt
  end.

(** The inner [try] with its [except BaseException] clause: the batch is
    released and the exception raised again. *)
Definition process_batch_chunks (archive_id_batch : list Z) : M St unit :=
  try_except (process_chunks archive_id_batch)
    (fun error => Some (
       let* batch_id := gets (fun s => current_batch_id (self s)) in
       release_uncompleted_fetch_batch batch_id ;;
       raise error)).

(** The statements of the outer [try] after the batch is leased. *)
Definition process_batch (batch_and_archive_ids : Batch.t)
    (num_snapshots_processed_since_chromedriver_reset : Z) : M St Z :=
  on_self (set_current_batch_id (fun _ => Some (Batch.batch_id batch_and_archive_ids))) ;;
  let archive_id_batch := Batch.archive_ids batch_and_archive_ids in
  process_batch_chunks archive_id_batch ;;
  let num_snapshots_processed_since_chromedriver_reset :=
    num_snapshots_processed_since_chromedriver_reset + Z.of_nat (length archive_id_batch) in
  let* batch_id := gets (fun s => current_batch_id (self s)) in
  mark_fetch_batch_completed batch_id ;;
  if num_snapshots_processed_since_chromedriver_reset
     >=? RESET_BROWSER_AFTER_PROCESSING_N_SNAPSHOTS
  then reset_creative_retriever ;; ret 0
  else ret num_snapshots_processed_since_chromedriver_reset.

(** The [except] clause of the outer [try]: alert, sleep, go on. *)
Definition rate_limit_handler (num_snapshots_processed_since_chromedriver_reset : Z)
    (error : Exn) : option (M St Z) :=
  if is_rate_limit_error error
  then Some (
    let suggested_sleep_time := suggested_sleep_time error in
    let slack_msg := rate_limit_slack_msg error suggested_sleep_time in
    let* url := gets (fun s => slack_url (self s)) in
    let* user := gets (fun s => slack_user_id_to_include (self s)) in
    send_slack_message url slack_msg user ;;
    time_sleep suggested_sleep_time ;;
    ret num_snapshots_processed_since_chromedriver_reset)
  else None.

(** One iteration of the [while True] of [retreive_and_store_ad_creatives];
    it returns the new value of
    [num_snapshots_processed_since_chromedriver_reset].  [None] when waiting
    for a batch exhausts the fuel. *)
Definition lease_loop_iteration (fuel : nat)
    (num_snapshots_processed_since_chromedriver_reset : Z)
  : St -> option (St * (Exn + Z)) :=
  fun s =>
    match get_archive_id_batch_or_wait_until_available fuel s with
    | None => None
    | Some (s1, batch_and_archive_ids) =>
        Some (try_except
                (process_batch batch_and_archive_ids
                   num_snapshots_processed_since_chromedriver_reset)
                (rate_limit_handler num_snapshots_processed_since_chromedriver_reset) s1)
    end.

(** [retreive_and_store_ad_creatives], for [iterations] turns of the loop. *)
Fixpoint lease_loop (fuel iterations : nat)
    (num_snapshots_processed_since_chromedriver_reset : Z)
  : St -> option (St * (Exn + Z)) :=
  match iterations with
  | O => fun s => Some (s, inr num_snapshots_processed_since_chromedriver_reset)
  | S iterations' => fun s =>
      match lease_loop_iteration fuel num_snapshots_processed_since_chromedriver_reset s with
      | Some (s', inr n) => lease_loop fuel iterations' n s'
      | r => r
      end
  end.

Definition retreive_and_store_ad_creatives (fuel iterations : nat)
  : St -> option (St * (Exn + Z)) :=
  fun s =>
    match reset_creative_retriever s with
    | (s', _) => lease_loop fuel iterations 0 s'
    end.

End Retriever.

(** ** Auxiliary definitions for the statements *)

Definition is_hex_digit (c : ascii) : bool :=
  let n := nat_of_ascii c in
  ((48 <=? n) && (n <=? 57) || (97 <=? n) && (n <=? 102))%nat.

Definition is_sha256_hexdigest (h : string) : bool :=
  (String.length h =? 64)%nat && forallb is_hex_digit (list_ascii_of_string h).

(** No character of [s] is the path separator. *)
Fixpoint no_sep (s : string) : bool :=
  match s with
  | EmptyString => true
  | String c s' => negb (Ascii.eqb c "/") && no_sep s'
  end.

(** The directory levels as the specification words them: every full
    4-character segment, only a partial last one left out. *)
Definition video_hash_dirs_as_specified (h : string) : list string :=
  (fun i => py_slice h (4 * i) 4) <$> seq 0 (String.length h / 4).

(** The SHA-256 digest of the empty byte string. *)
Definition sha256_of_empty : string := "e3b0c44298fc1c149afbf4c8996fb92427ae41e4649b934ca495991b7852b855".


(** *** A concrete world, for running the pipeline on examples *)

Fixpoint decimal_value (acc : Z) (s : string) : option Z :=
  match s with
  | EmptyString => Some acc
  | String c s' =>
      let n := nat_of_ascii c in
      if ((48 <=? n) && (n <=? 57))%nat
      then decimal_value (10 * acc + Z.of_nat (n - 48)) s'
      else None
  end.

(** [int(s)] on plain decimal numerals; anything else is a [ValueError]. *)
Definition example_py_int (s : string) : option Z :=
  match s with
  | EmptyString => None
  | _ => decimal_value 0 s
  end.

Definition example_text_creative (body : string) : Creative.t :=
  Creative.mk None None (Some body) None.

Definition example_video_creative (body video_url : string) : Creative.t :=
  Creative.mk (Some (FetchedImage.mk "png-bytes" (Some "http://img/1")))
              (Some video_url) (Some body) None.

(** The extractor of the example world, by archive id. *)
Definition example_retrieve_ad (archive_id : Z) : Exn + ScreenshotAndCreatives.t :=
  if decide (archive_id = 100) then
    inr (ScreenshotAndCreatives.mk None [example_text_creative "hello world"])
  else if decide (archive_id = 101) then
    inr (ScreenshotAndCreatives.mk None [example_text_creative "hello world"])
  else if decide (archive_id = 102) then
    inr (ScreenshotAndCreatives.mk None
           [example_text_creative "twice"; example_text_creative "twice"])
  else if decide (archive_id = 103) then
    inr (ScreenshotAndCreatives.mk (Some "screenshot")
           [example_video_creative "with video" "http://video/huge"])
  else if decide (archive_id = 200) then inl RequestException
  else if decide (archive_id = 201) then inl (TooManyRequestsError (Some 10))
  else if decide (archive_id = 202) then inl (EndBatchCrawlerException None)
  else inl SnapshotNoContentFoundError.

(** The video host of the example world, by URL. *)
Definition example_requests_get (video_url : string) : HttpResult :=
  if String.eqb video_url "http://video/no-length" then
    HttpResponse (Response.mk true ∅ (Some "video-bytes"))
  else if String.eqb video_url "http://video/bad-length" then
    HttpResponse (Response.mk true {["content-length" := "many"]} (Some "video-bytes"))
  else if String.eqb video_url "http://video/huge" then
    HttpResponse (Response.mk true {["content-length" := "10000000000"]} (Some "video-bytes"))
  else if String.eqb video_url "http://video/small" then
    HttpResponse (Response.mk true {["content-length" := "11"]} (Some "video-bytes"))
  else HttpRaises.

#[local] Instance example_externals : Externals := {|
  Ext := unit;
  sha256_hexdigest := fun data => ("sha256-of-" ++ data)%string;
  encode_utf32 := fun text => text;
  get_image_dhash := fun image_bytes =>
    if String.eqb image_bytes "corrupt" then None
    else Some "00ff00ff00ff00ff00ff00ff00ff00ff"%string;
  hash_ad_creative_text := fun text => Z.of_nat (String.length text);
  detect := fun _ => Some "en"%string;
  py_int := example_py_int;
  blob_id := fun bucket path => (bucket ++ "/" ++ path)%string;
  creative_retriever_retrieve_ad := fun e archive_id => (e, example_retrieve_ad archive_id);
  next_creative_retriever := fun e => e;
  datetime_now := fun e => (e, 1604448000);
  requests_get := fun e video_url => (e, example_requests_get video_url);
  gcs_request_fails := fun e => (e, false);
  get_archive_id_batch_to_fetch := fun e => (e, Some (Batch.mk 2 [100; 201; 101]));
  rate_limit_slack_msg := fun _ _ => "rate limit"%string
|}.

Definition example_retriever : FacebookAdCreativeRetriever :=
  {| max_video_download_size := DEFAULT_MAX_VIDEO_DOWNLOAD_SIZE;
     num_snapshots_processed := 0;
     num_snapshots_fetch_failed := 0;
     num_ad_creatives_found := 0;
     num_snapshots_without_creative_found := 0;
     num_image_download_success := 0;
     num_image_download_failure := 0;
     num_image_uploade_to_gcs_bucket := 0;
     num_video_download_success := 0;
     num_video_download_failure := 0;
     num_video_uploade_to_gcs_bucket := 0;
     current_batch_id := None;
     commit_to_db_every_n_processed := DEFAULT_BATCH_SIZE;
     slack_url := "https://hooks.example/alerts";
     slack_user_id_to_include := None |}.

Definition example_state : St (H := example_externals) :=
  mkSt example_retriever (mkWorld tt ∅ []).


#[global] Instance SnapshotFetchStatus_eq_dec : EqDecision SnapshotFetchStatus.
Proof. solve_decision. Defined.

(** The attributes of a record that the store requires to be unique. *)
Definition unique_constraint_attrs_of (r : AdCreativeRecord.t)
  : AdCreativeRecordUniqueConstraintAttributes :=
  (AdCreativeRecord.archive_id r, AdCreativeRecord.text_sha256_hash r,
   AdCreativeRecord.image_sha256_hash r, AdCreativeRecord.video_sha256_hash r).

(** The creative records handed to the store by the events of a trace. *)
Definition inserted_records (events : list Event) : list AdCreativeRecord.t :=
  mjoin ((fun ev => match ev with
                    | EvInsertAdCreativeRecords records => records
                    | _ => []
                    end) <$> events).

(** The number of records whose fetch status is [UNKNOWN]. *)
Definition count_unknown (records : list AdSnapshotMetadataRecord.t) : Z :=
  Z.of_nat (length (filter (fun m => AdSnapshotMetadataRecord.snapshot_fetch_status m = UNKNOWN)
                           records)).

(** *** Union-find: what the parent map means *)

(** [root_of parent x r]: following the parent links from [x] ends in the
    root [r]. *)
Inductive root_of (parent : gmap Z Z) : Z -> Z -> Prop :=
| root_of_self x : parent !! x = Some x -> root_of parent x x
| root_of_step x p r :
    parent !! x = Some p -> p <> x -> root_of parent p r -> root_of parent x r.

(** The parent links stay inside the structure and climb in rank; the list
    of elements is the domain of the parent map, without repetition. *)
Definition uf_wf (uf : UnionFind.t) : Prop :=
  (forall x, x ∈ UnionFind.elts uf <-> is_Some (UnionFind.par uf !! x))
  /\ NoDup (UnionFind.elts uf)
  /\ (forall x p, UnionFind.par uf !! x = Some p -> is_Some (UnionFind.par uf !! p))
  /\ (forall x p, UnionFind.par uf !! x = Some p -> p <> x ->
                  (UnionFind.rank_of uf x < UnionFind.rank_of uf p)%nat).

(** Two elements are in the same set when they have the same root. *)
Definition same_set (uf : UnionFind.t) (x y : Z) : Prop :=
  exists r, root_of (UnionFind.par uf) x r /\ root_of (UnionFind.par uf) y r.

(** Connection through a list of edges: the least symmetric and transitive
    relation that contains them. *)
Inductive conn (edges : list (Z * Z)) : Z -> Z -> Prop :=
| conn_edge x y : (x, y) ∈ edges -> conn edges x y
| conn_sym x y : conn edges x y -> conn edges y x
| conn_trans x y z : conn edges x y -> conn edges y z -> conn edges x z.

(** The union-find structure holds exactly the connections of [edges]. *)
Definition uf_inv (uf : UnionFind.t) (edges : list (Z * Z)) : Prop :=
  uf_wf uf /\ forall u v, same_set uf u v <-> conn edges u v.

(** Two archive ids share a cluster of a list of cluster records. *)
Definition same_cluster (records : list AdClusterRecord.t) (a b : Z) : Prop :=
  exists cluster_id,
    AdClusterRecord.mk a cluster_id ∈ records /\ AdClusterRecord.mk b cluster_id ∈ records.

(** *** BK-tree: membership and the shape the inserts keep *)

Inductive bk_in (x : ArchiveIDAndSimHash.t) : BKTree.node -> Prop :=
| bk_in_here children : bk_in x (BKTree.Node x children)
| bk_in_child item children d c :
    (d, c) ∈ children -> bk_in x c -> bk_in x (BKTree.Node item children).

(** Every item of the subtree filed under distance [d] is at distance [d]
    from the item of the node. *)
Inductive bk_wf : BKTree.node -> Prop :=
| bk_wf_node item children :
    (forall d c, (d, c) ∈ children -> bk_wf c) ->
    (forall d c x, (d, c) ∈ children -> bk_in x c -> get_num_bits_different x item = d) ->
    bk_wf (BKTree.Node item children).

(** Membership in the tree attribute. *)
Definition bk_tree_in (x : ArchiveIDAndSimHash.t) (tree : BKTree.t) : Prop :=
  match tree with
  | None => False
  | Some nd => bk_in x nd
  end.

Definition bk_tree_wf (tree : BKTree.t) : Prop :=
  match tree with
  | None => True
  | Some nd => bk_wf nd
  end.

(** *** The clustering passes as lists of edges *)

(** The index entries of a fingerprint dictionary: the lowest archive id of
    each fingerprint. *)
Definition min_tuples (simhashes : list (N * list Z)) : list (Z * N) :=
  omap (fun p => m ← py_min p.2; Some (m, p.1)) simhashes.

(** The pairs united because they share a fingerprint. *)
Definition same_hash_edges (simhashes : list (N * list Z)) : list (Z * Z) :=
  simhashes ≫= (fun p => combinations2 p.2).

(** The pairs united because the text index returned them together. *)
Definition text_found_edges (tuples : list (Z * N)) (simhashes : list (N * list Z))
  : list (Z * Z) :=
  simhashes ≫= (fun p =>
    combinations2 (SimhashIndex.get_near_dups
                     (SimhashIndex.new tuples BIT_DIFFERENCE_THRESHOLD) p.1)).

Definition text_edges (simhashes : list (N * list Z)) : list (Z * Z) :=
  same_hash_edges simhashes ++ text_found_edges (min_tuples simhashes) simhashes.

(** The tree after the inserts of the first loop of the image pass. *)
Definition bk_of_tuples (tree : BKTree.t) (tuples : list (Z * N)) : BKTree.t :=
  foldl (fun t p => BKTree.add (ArchiveIDAndSimHash.mk p.1 p.2) t) tree tuples.

(** The archive ids the tree returns for a fingerprint. *)
Definition image_found (tree : BKTree.t) (sim_hash : N) : list Z :=
  elements (list_to_set ((fun x => ArchiveIDAndSimHash.archive_id x.2)
                           <$> BKTree.find tree (ArchiveIDAndSimHash.mk (-1) sim_hash)
                                 BIT_DIFFERENCE_THRESHOLD) : gset Z).

(** The pairs united because the tree returned them together. *)
Definition image_found_edges (tree : BKTree.t) (simhashes : list (N * list Z))
  : list (Z * Z) :=
  simhashes ≫= (fun p => combinations2 (image_found tree p.1)).

Definition image_edges (simhashes : list (N * list Z)) : list (Z * Z) :=
  same_hash_edges simhashes
  ++ image_found_edges (bk_of_tuples None (min_tuples simhashes)) simhashes.

(** No set of the dictionary is empty. *)
Definition all_nonempty (simhashes : list (N * list Z)) : Prop :=
  Forall (fun p => p.2 <> []) simhashes.

(** *** Statements about the clusters written *)

(** Two archive ids are adjacent for the text pass when each has a text
    fingerprint and the two fingerprints differ in at most three of their 64
    bits (an archive id may have several fingerprints, one per creative). *)
Definition text_adjacent (simhashes : list (N * list Z)) (a b : Z) : Prop :=
  exists h1 s1 h2 s2,
    (h1, s1) ∈ simhashes /\ a ∈ s1 /\ (h2, s2) ∈ simhashes /\ b ∈ s2
    /\ (simhash_distance 64 h1 h2 <= BIT_DIFFERENCE_THRESHOLD)%nat.

(** The same for the image pass and the [dhash] bit difference. *)
Definition image_adjacent (simhashes : list (N * list Z)) (a b : Z) : Prop :=
  exists h1 s1 h2 s2,
    (h1, s1) ∈ simhashes /\ a ∈ s1 /\ (h2, s2) ∈ simhashes /\ b ∈ s2
    /\ (dhash_get_num_bits_different h1 h2 <= BIT_DIFFERENCE_THRESHOLD)%nat.

(** The events that [update_ad_clusters] added to the database log. *)
Definition text_records_written (db : list DbEvent) : list (list AdClusterRecord.t) :=
  omap (fun ev => match ev with
                  | EvInsertOrUpdateAdTextClusterRecords records => Some records
                  | _ => None
                  end) db.

Definition image_records_written (db : list DbEvent) : list (list AdClusterRecord.t) :=
  omap (fun ev => match ev with
                  | EvInsertOrUpdateAdImageClusterRecords records => Some records
                  | _ => None
                  end) db.

(** The partition of the archive ids that a list of cluster records
    describes: the set of the sets of archive ids with one cluster id. *)
Definition partition_of (records : list AdClusterRecord.t) : gset (gset Z) :=
  list_to_set
    ((fun r => list_to_set
                 (AdClusterRecord.archive_id
                    <$> filter (fun r' => AdClusterRecord.ad_cluster_id r'
                                          = AdClusterRecord.ad_cluster_id r) records))
       <$> records).

(** A list of pairs lists the items of the dictionary [m]: the keys once
    each, with the elements of each set once each, in any order. *)
Definition dict_items_of (m : gmap N (gset Z)) (items : list (N * list Z)) : Prop :=
  NoDup items.*1
  /\ Forall (fun p => NoDup p.2) items
  /\ list_to_map (prod_map id list_to_set <$> items) = m.

(** A snapshot with four text fingerprints and three image fingerprints. *)
Definition example_text_simhashes : list (N * list Z) :=
  [(0%N, [10]); (1%N, [20]); (7%N, [30; 31]); (65535%N, [40])].

Definition example_image_simhashes : list (N * list Z) :=
  [(0%N, [10; 20]); (3%N, [30]); (1023%N, [40])].

(** The same snapshot read in two orders. *)
Definition example_text_snapshot_a : list (N * list Z) :=
  [(0%N, [10]); (1%N, [20]); (7%N, [30; 31]); (65535%N, [40]); (65534%N, [50])].

Definition example_text_snapshot_b : list (N * list Z) :=
  [(65534%N, [50]); (65535%N, [40]); (7%N, [31; 30]); (1%N, [20]); (0%N, [10])].

Definition example_image_snapshot_a : list (N * list Z) :=
  [(0%N, [10; 20]); (3%N, [30]); (1023%N, [40]); (1022%N, [50; 60])].

Definition example_image_snapshot_b : list (N * list Z) :=
  [(1022%N, [60; 50]); (1023%N, [40]); (3%N, [30]); (0%N, [20; 10])].

Definition example_text_dict : gmap N (gset Z) :=
  list_to_map (prod_map id list_to_set <$> example_text_snapshot_a).

Definition example_image_dict : gmap N (gset Z) :=
  list_to_map (prod_map id list_to_set <$> example_image_snapshot_a).

(** The outcome of a pass on two lists of the items of one dictionary. *)
Definition same_outcome (r1 r2 : Exn + list (list Z)) : Prop :=
  match r1, r2 with
  | inr clusters1, inr clusters2 =>
      partition_of (make_ad_cluster_records clusters1)
      = partition_of (make_ad_cluster_records clusters2)
  | inl e1, inl e2 => e1 = e2
  | _, _ => False
  end.


(** ** ad_deduper.py: the cluster id of the lowest known archive id *)

(** The [while archive_id_set:] loop of [_get_lowest_archive_id_cluster_id]
    on the copy of the set: the minimum is looked up in the dictionary and
    taken out of the copy when it is no key.  The outer [None] is an
    exhausted fuel, the inner one the [return None] after the loop. *)
Fixpoint lowest_archive_id_cluster_id_loop (fuel : nat)
    (existing_ad_archive_id_to_ad_cluster_id : gmap Z Z) (archive_id_set : gset Z)
  : option (option Z) :=
  match fuel with
  | O => None
  | S fuel' =>
      match py_min (elements archive_id_set) with
      | None => Some None
      | Some min_archive_id =>
          match existing_ad_archive_id_to_ad_cluster_id !! min_archive_id with
          | Some ad_cluster_id => Some (Some ad_cluster_id)
          | None =>
              lowest_archive_id_cluster_id_loop fuel' existing_ad_archive_id_to_ad_cluster_id
                (archive_id_set ∖ {[min_archive_id]})
          end
      end
  end.

(** [_get_lowest_archive_id_cluster_id]; the loop runs at most once per
    element and once more to see the copy empty. *)
Definition _get_lowest_archive_id_cluster_id
    (existing_ad_archive_id_to_ad_cluster_id : gmap Z Z) (archive_id_set : gset Z)
  : option (option Z) :=
  lowest_archive_id_cluster_id_loop (S (size archive_id_set))
    existing_ad_archive_id_to_ad_cluster_id archive_id_set.
(** * Properties *)

(** ** Path derivation *)

Lemma append_nil_l (b : string) : ("" ++ b)%string = b.
Proof. reflexivity. Qed.

Lemma append_cons (c : ascii) (a b : string) : (String c a ++ b)%string = String c (a ++ b).
Proof. reflexivity. Qed.

Lemma no_sep_app a b : no_sep (a ++ b) = no_sep a && no_sep b.
Proof.
  induction a as [|c a IH]; [done|].
  rewrite append_cons. simpl. rewrite IH. by rewrite andb_assoc.
Qed.

Lemma no_sep_substring s x n : no_sep s = true -> no_sep (substring x n s) = true.
Proof.
  revert x n. induction s as [|c s IH]; intros x n Hs.
  - by destruct x, n.
  - simpl in Hs. apply andb_true_iff in Hs as [Hc Hs].
    destruct x, n; simpl; auto. rewrite Hc. simpl. auto.
Qed.

Lemma endswith_sep_app a b : b <> ""%string -> endswith_sep (a ++ b) = endswith_sep b.
Proof.
  intros Hb. induction a as [|c a IH]; [done|].
  rewrite append_cons. simpl. destruct (a ++ b)%string eqn:E; [|done].
  destruct a; [by rewrite append_nil_l in E|by rewrite append_cons in E].
Qed.

Lemma no_sep_endswith s : no_sep s = true -> endswith_sep s = false.
Proof.
  induction s as [|c s IH]; [done|]. simpl. intros [Hc Hs]%andb_true_iff.
  destruct s; [by apply negb_true_iff in Hc|]. auto.
Qed.

Lemma no_sep_startswith s : no_sep s = true -> startswith_sep s = false.
Proof.
  destruct s as [|c s]; [done|]. simpl. intros [Hc Hs]%andb_true_iff.
  by apply negb_true_iff in Hc.
Qed.

Lemma append_nonempty (a b : string) : b <> ""%string -> (a ++ b)%string <> ""%string.
Proof. destruct a; [by rewrite append_nil_l|by rewrite append_cons]. Qed.

Lemma append_assoc (a b c : string) : ((a ++ b) ++ c)%string = (a ++ (b ++ c))%string.
Proof. induction a as [|x a IH]; [done|]. rewrite !append_cons. by rewrite IH. Qed.

Lemma concat_sep_merge (a b : string) (segs : list string) :
  String.concat "/" ((a ++ "/" ++ b)%string :: segs)
  = (a ++ "/" ++ String.concat "/" (b :: segs))%string.
Proof. destruct segs; [done|]. simpl. by rewrite !append_assoc. Qed.

Lemma fold_join_step_plain (segs : list string) (path : string) :
  path <> ""%string -> endswith_sep path = false ->
  Forall (fun b => b <> ""%string /\ no_sep b = true) segs ->
  fold_left join_step segs path = String.concat "/" (path :: segs).
Proof.
  revert path. induction segs as [|b segs IH]; intros path Hne Hend Hall; [done|].
  apply Forall_cons in Hall as [[Hb Hsb] Hall].
  change (fold_left join_step (b :: segs) path)
    with (fold_left join_step segs (join_step path b)).
  unfold join_step. rewrite (no_sep_startswith _ Hsb), Hend.
  destruct (String.eqb_spec path ""); [done|]. simpl orb. cbv iota.
  rewrite IH; auto.
  - apply concat_sep_merge.
  - by apply append_nonempty, append_nonempty.
  - rewrite endswith_sep_app; [|by apply append_nonempty].
    rewrite endswith_sep_app; [|done]. by apply no_sep_endswith.
Qed.

Lemma substring_length_full (s : string) (x n : nat) :
  (x + n <= String.length s)%nat -> String.length (substring x n s) = n.
Proof.
  revert x n. induction s as [|c s IH]; intros x n Hlen; simpl in Hlen.
  - assert (x = 0 /\ n = 0)%nat as [-> ->] by lia. done.
  - destruct x, n; simpl; auto.
    + rewrite IH; [done|lia].
    + apply IH. lia.
    + apply IH. lia.
Qed.

Lemma os_path_join_plain (dirs : list string) (base : string) :
  Forall (fun b => b <> ""%string /\ no_sep b = true) (dirs ++ [base]) ->
  os_path_join (dirs ++ [base]) = String.concat "/" (dirs ++ [base]).
Proof.
  intros Hall. destruct dirs as [|d dirs]; [done|].
  rewrite <-app_comm_cons in *. apply Forall_cons in Hall as [[Hd Hsd] Hall].
  unfold os_path_join, posixpath_join.
  apply fold_join_step_plain; auto using no_sep_endswith.
Qed.

Lemma video_hash_dirs_plain (h : string) :
  no_sep h = true ->
  Forall (fun b => b <> ""%string /\ no_sep b = true) (video_hash_dirs h ++ [(h ++ ".mp4")%string]).
Proof.
  intros Hh. apply Forall_app. split.
  - unfold video_hash_dirs, py_range0. rewrite <-list_fmap_compose.
    apply Forall_fmap, Forall_forall. intros i Hi%elem_of_seq. simpl.
    split; [|by apply no_sep_substring].
    unfold VIDEO_HASH_PATH_DIR_NAME_LENGTH in *.
    assert (i * 4 + 4 <= String.length h)%nat as Hle.
    { destruct Hi as [_ Hi].
      pose proof (Z.mul_div_le (Z.of_nat (String.length h) - Z.of_nat 4 + Z.of_nat 4 - 1) 4).
      lia. }
    intros Heq. apply (f_equal String.length) in Heq.
    unfold py_slice in Heq. rewrite substring_length_full in Heq; [done|lia].
  - apply Forall_singleton. split; [by apply append_nonempty|].
    by rewrite no_sep_app, Hh.
Qed.

Lemma is_hex_digit_not_sep (c : ascii) : is_hex_digit c = true -> Ascii.eqb c "/" = false.
Proof.
  intros Hc. destruct (Ascii.eqb_spec c "/") as [->|]; [|done]. by vm_compute in Hc.
Qed.

Lemma hex_no_sep (h : string) :
  forallb is_hex_digit (list_ascii_of_string h) = true -> no_sep h = true.
Proof.
  induction h as [|c h IH]; [done|]. simpl. intros [Hc Hh]%andb_true_iff.
  rewrite (is_hex_digit_not_sep _ Hc). simpl. auto.
Qed.

(** C7, amended. For a SHA-256 hex digest [h] (64 hexadecimal characters),
    the directory levels of the video path are the fifteen 4-character
    segments [h[0:4]], [h[4:8]], ..., [h[56:60]]: [range(0, len(h) - 4, 4)]
    stops before the last full segment.  The path is these levels and the file
    name [h ++ ".mp4"], joined with single slashes. *)
Theorem video_path_fifteen_levels (h : string) :
  is_sha256_hexdigest h = true ->
  video_hash_dirs h = (fun i => py_slice h (4 * i) 4) <$> seq 0 15
  /\ Forall (fun d => String.length d = 4%nat) (video_hash_dirs h)
  /\ make_video_sha256_hash_file_path h
     = String.concat "/" (((fun i => py_slice h (4 * i) 4) <$> seq 0 15) ++ [(h ++ ".mp4")%string]).
Proof.
  intros [Hlen Hhex]%andb_true_iff. apply Nat.eqb_eq in Hlen.
  assert (video_hash_dirs h = (fun i => py_slice h (4 * i) 4) <$> seq 0 15) as Hdirs.
  { unfold video_hash_dirs. rewrite Hlen. reflexivity. }
  split; [done|]. split.
  - rewrite Hdirs. apply Forall_fmap, Forall_forall. intros i Hi%elem_of_seq. simpl.
    apply substring_length_full. lia.
  - unfold make_video_sha256_hash_file_path. rewrite <-Hdirs.
    apply os_path_join_plain, video_hash_dirs_plain, hex_no_sep, Hhex.
Qed.

(** C7 as worded does not hold: the digest of the empty byte string splits
    evenly into sixteen segments, and its path has only the first fifteen as
    directory levels. *)
Lemma video_path_sixteen_levels_fails :
  is_sha256_hexdigest sha256_of_empty = true
  /\ length (video_hash_dirs sha256_of_empty) = 15%nat
  /\ video_hash_dirs sha256_of_empty <> video_hash_dirs_as_specified sha256_of_empty
  /\ make_video_sha256_hash_file_path sha256_of_empty
     <> os_path_join (video_hash_dirs_as_specified sha256_of_empty ++ [(sha256_of_empty ++ ".mp4")%string]).
Proof. repeat split; by vm_compute. Qed.

Lemma video_path_fifteen_levels_witness :
  make_video_sha256_hash_file_path sha256_of_empty
  = "e3b0/c442/98fc/1c14/9afb/f4c8/996f/b924/27ae/41e4/649b/934c/a495/991b/7852/e3b0c44298fc1c149afbf4c8996fb92427ae41e4649b934ca495991b7852b855.mp4"%string.
Proof.
  destruct (video_path_fifteen_levels sha256_of_empty) as (_ & _ & ->); [by vm_compute|]. by vm_compute.
Defined.

(** ** The retrieval pipeline *)

Section RetrieverProperties.
Context `{Externals}.

Ltac munfold :=
  unfold on_self, emit, time_sleep, call_ext, call_ext_raising, lift_result in *;
  unfold bind, ret, raise, modify, gets in *;
  cbv beta in *.

(** *** Loops *)

(** A relation between states that every iteration respects holds across
    the loop, whether it ends or raises. *)
Lemma for_each_state_rel {S A B} (R : S -> S -> Prop) (body : B -> A -> M S B) (l : list A) :
  (forall s, R s s) ->
  (forall s1 s2 s3, R s1 s2 -> R s2 s3 -> R s1 s3) ->
  (forall acc x s, x ∈ l -> R s (body acc x s).1) ->
  forall acc s, R s (for_each l body acc s).1.
Proof.
  intros Hrefl Htrans. induction l as [|x l IH]; intros Hbody acc s; simpl; [done|].
  unfold bind. pose proof (Hbody acc x s ltac:(left)) as Hx.
  destruct (body acc x s) as [s1 [e|acc1]]; simpl in *; [done|].
  eapply Htrans; [exact Hx|]. apply IH. intros. apply Hbody. by right.
Qed.

(** An invariant of the state and the accumulator that every iteration
    that ends preserves holds when the loop ends. *)
Lemma for_each_invariant {S A B} (I : S -> B -> Prop) (body : B -> A -> M S B) (l : list A) :
  (forall acc x s s' acc', x ∈ l -> I s acc -> body acc x s = (s', inr acc') -> I s' acc') ->
  forall acc s s' acc', I s acc -> for_each l body acc s = (s', inr acc') -> I s' acc'.
Proof.
  induction l as [|x l IH]; intros Hbody acc s s' acc' HI; simpl.
  { by intros [= <- <-]. }
  unfold bind. destruct (body acc x s) as [s1 [e|acc1]] eqn:E; [done|].
  intros Hrest. eapply IH; [| |exact Hrest].
  - intros. eapply Hbody; eauto. by right.
  - eapply Hbody; eauto. by left.
Qed.

(** *** What the media functions leave alone *)

Definition is_upload (ev : Event) : Prop :=
  match ev with
  | EvBlobUpload _ _ _ => True
  | _ => False
  end.

(** The events of a chunk: uploads and the two upserts. *)
Definition is_chunk_event (ev : Event) : Prop :=
  match ev with
  | EvBlobUpload _ _ _ | EvInsertAdCreativeRecords _ | EvUpdateAdSnapshotMetadata _ => True
  | _ => False
  end.

Definition trace_extends (P : Event -> Prop) (s s' : St) : Prop :=
  exists new, trace (world s') = trace (world s) ++ new /\ Forall P new.

(** Only the six image and video counters differ. *)
Definition media_counters_only (r r' : FacebookAdCreativeRetriever) : Prop :=
  max_video_download_size r' = max_video_download_size r
  /\ num_snapshots_processed r' = num_snapshots_processed r
  /\ num_snapshots_fetch_failed r' = num_snapshots_fetch_failed r
  /\ num_ad_creatives_found r' = num_ad_creatives_found r
  /\ num_snapshots_without_creative_found r' = num_snapshots_without_creative_found r
  /\ current_batch_id r' = current_batch_id r
  /\ commit_to_db_every_n_processed r' = commit_to_db_every_n_processed r
  /\ slack_url r' = slack_url r
  /\ slack_user_id_to_include r' = slack_user_id_to_include r.

Definition media_step (s s' : St) : Prop :=
  media_counters_only (self s) (self s') /\ trace_extends is_upload s s'.

Lemma trace_extends_refl P s : trace_extends P s s.
Proof. exists []. by rewrite app_nil_r. Qed.

Lemma trace_extends_same P s s' :
  trace (world s') = trace (world s) -> trace_extends P s s'.
Proof. intros Ht. exists []. by rewrite app_nil_r. Qed.

Lemma trace_extends_trans P s1 s2 s3 :
  trace_extends P s1 s2 -> trace_extends P s2 s3 -> trace_extends P s1 s3.
Proof.
  intros (n1 & H1 & F1) (n2 & H2 & F2). exists (n1 ++ n2).
  rewrite H2, H1, app_assoc. split; [done|]. by apply Forall_app.
Qed.

Lemma trace_extends_weaken (P Q : Event -> Prop) s s' :
  (forall ev, P ev -> Q ev) -> trace_extends P s s' -> trace_extends Q s s'.
Proof. intros HPQ (n & ? & ?). exists n. split; [done|]. eapply Forall_impl; eauto. Qed.

Lemma media_counters_only_refl r : media_counters_only r r.
Proof. by repeat split. Qed.

Lemma media_counters_only_trans r1 r2 r3 :
  media_counters_only r1 r2 -> media_counters_only r2 r3 -> media_counters_only r1 r3.
Proof. unfold media_counters_only. intros. destruct_and!. repeat split; congruence. Qed.

Lemma media_step_refl s : media_step s s.
Proof. split; [apply media_counters_only_refl|apply trace_extends_refl]. Qed.

Lemma media_step_trans s1 s2 s3 : media_step s1 s2 -> media_step s2 s3 -> media_step s1 s3.
Proof.
  intros [? ?] [? ?].
  split; [by eapply media_counters_only_trans|by eapply trace_extends_trans].
Qed.

(** *** The object store *)

Lemma gcs_request_frame (s : St) :
  self (gcs_request s).1 = self s
  /\ objects (world (gcs_request s).1) = objects (world s)
  /\ trace (world (gcs_request s).1) = trace (world s).
Proof.
  unfold gcs_request. munfold. destruct (gcs_request_fails _) as [e' []]; done.
Qed.

(** One attempt of [upload_blob] keeps the retriever.  Either it changes
    nothing, and then it returns no id and only when the object is there; or
    the object was missing, the attempt uploads it once and returns its id. *)
Lemma upload_blob_attempt_spec (bucket blob_path blob_data : string) (s : St) :
  let s' := (upload_blob_attempt bucket blob_path blob_data s).1 in
  let r := (upload_blob_attempt bucket blob_path blob_data s).2 in
  self s' = self s
  /\ ((objects (world s') = objects (world s) /\ trace (world s') = trace (world s)
       /\ forall v, r = inr v ->
                    v = None /\ is_Some (objects (world s) !! (bucket, blob_path)))
      \/ (objects (world s) !! (bucket, blob_path) = None
          /\ objects (world s') = <[(bucket, blob_path) := blob_data]> (objects (world s))
          /\ trace (world s')
             = trace (world s) ++ [EvBlobUpload bucket blob_path blob_data]
          /\ r = inr (Some (blob_id bucket blob_path)))).
Proof.
  unfold upload_blob_attempt, blob_exists, blob_upload_from_string, gcs_request.
  munfold. simpl.
  destruct (gcs_request_fails (ext (world s))) as [e1 [|]] eqn:E1; simpl.
  { split; [done|]. left. by repeat split. }
  destruct (objects (world s) !! (bucket, blob_path)) as [d|] eqn:Eo; simpl.
  - split; [done|]. left. split; [done|]. split; [done|].
    intros v [= <-]. split; [done|]. eauto.
  - destruct (gcs_request_fails e1) as [e2 [|]] eqn:E2; simpl.
    { split; [done|]. left. by repeat split. }
    split; [done|]. by right.
Qed.

(** What [upload_blob] as a whole does to the world: nothing when the
    object is there, at most one upload otherwise. *)
Definition uploaded_at_most_once (bucket blob_path blob_data : string) (s s' : St) : Prop :=
  self s' = self s
  /\ ((objects (world s') = objects (world s) /\ trace (world s') = trace (world s))
      \/ (objects (world s) !! (bucket, blob_path) = None
          /\ objects (world s') = <[(bucket, blob_path) := blob_data]> (objects (world s))
          /\ trace (world s')
             = trace (world s) ++ [EvBlobUpload bucket blob_path blob_data])).

(** The value a call hands back: no id when it found the object and left the
    store alone, the id of the object when it uploaded it. *)
Definition returned_id (bucket blob_path blob_data : string) (s s' : St)
    (r : Exn + option string) : Prop :=
  forall v, r = inr v ->
    is_Some (objects (world s') !! (bucket, blob_path))
    /\ (v = None ->
        is_Some (objects (world s) !! (bucket, blob_path))
        /\ objects (world s') = objects (world s) /\ trace (world s') = trace (world s))
    /\ (forall id, v = Some id ->
          id = blob_id bucket blob_path
          /\ objects (world s) !! (bucket, blob_path) = None
          /\ trace (world s')
             = trace (world s) ++ [EvBlobUpload bucket blob_path blob_data]).

Lemma with_retry_upload_spec (attempts : nat) (bucket blob_path blob_data : string) (s : St) :
  let s' := (with_retry attempts (upload_blob_attempt bucket blob_path blob_data) s).1 in
  let r := (with_retry attempts (upload_blob_attempt bucket blob_path blob_data) s).2 in
  uploaded_at_most_once bucket blob_path blob_data s s'
  /\ returned_id bucket blob_path blob_data s s' r.
Proof.
  revert s. induction attempts as [|k IH]; intros s; simpl.
  { split; [split; [done|by left]|by intros]. }
  pose proof (upload_blob_attempt_spec bucket blob_path blob_data s) as (Hself & Hw).
  destruct (upload_blob_attempt bucket blob_path blob_data s) as [s1 [e|v1]] eqn:E; simpl in *.
  - specialize (IH s1) as [(Hself' & Hw') Hid'].
    destruct Hw as [(Ho & Ht & _)|(_ & _ & _ & ?)]; [|done].
    split.
    + split; [congruence|]. by rewrite Ho, Ht in Hw'.
    + intros v Hv. destruct (Hid' v Hv) as (Hex & Hnone & Hsome).
      rewrite Ho, Ht in Hnone, Hsome. done.
  - destruct Hw as [(Ho & Ht & Hv1)|(Hnone & Ho & Ht & Hr)].
    + split; [split; [done|by left]|].
      intros v [= <-]. destruct (Hv1 v1 eq_refl) as [-> Hex].
      split; [by rewrite Ho|]. split; [done|]. by intros.
    + injection Hr as ->. split; [split; [done|by right]|].
      intros v [= <-]. split; [rewrite Ho, lookup_insert_eq; eauto|].
      split; [done|]. by intros id [= <-].
Qed.

Lemma upload_blob_spec (bucket blob_path blob_data : string) (s : St) :
  let s' := (upload_blob bucket blob_path blob_data s).1 in
  let r := (upload_blob bucket blob_path blob_data s).2 in
  uploaded_at_most_once bucket blob_path blob_data s s'
  /\ returned_id bucket blob_path blob_data s s' r.
Proof. apply with_retry_upload_spec. Qed.

Lemma upload_blob_self (bucket blob_path blob_data : string) (s : St) :
  self (upload_blob bucket blob_path blob_data s).1 = self s.
Proof. apply upload_blob_spec. Qed.

(** C9. [upload_blob] uploads at most once, and returns an id only when it
    uploads.  An object that is already at the path is not uploaded again,
    and the call then returns [None], not the id of the object: [blob.id] is
    read from a [Blob] whose properties were never loaded.  Two calls in a
    row with the same path and bytes make at most one upload between them,
    whatever transient failures the store throws in; after a first call that
    returned, the object is at the path, the second call uploads nothing and
    the value it returns is [None]; a call returns an id only when the object
    was missing and this call uploaded it, and the id is then the id of the
    object. *)
Theorem upload_blob_idempotent (bucket blob_path blob_data : string) (s : St) :
  let s1 := (upload_blob bucket blob_path blob_data s).1 in
  let r1 := (upload_blob bucket blob_path blob_data s).2 in
  let s2 := (upload_blob bucket blob_path blob_data s1).1 in
  let r2 := (upload_blob bucket blob_path blob_data s1).2 in
  (is_Some (objects (world s) !! (bucket, blob_path)) ->
   trace (world s1) = trace (world s)
   /\ objects (world s1) = objects (world s)
   /\ forall v, r1 = inr v -> v = None)
  /\ (exists uploads,
        trace (world s2) = trace (world s) ++ uploads
        /\ (uploads = [] \/ uploads = [EvBlobUpload bucket blob_path blob_data]))
  /\ (forall v, r1 = inr v ->
        is_Some (objects (world s1) !! (bucket, blob_path))
        /\ trace (world s2) = trace (world s1)
        /\ forall v2, r2 = inr v2 -> v2 = None)
  /\ (forall id, r1 = inr (Some id) ->
        id = blob_id bucket blob_path
        /\ objects (world s) !! (bucket, blob_path) = None
        /\ trace (world s1) = trace (world s) ++ [EvBlobUpload bucket blob_path blob_data]).
Proof.
  intros s1 r1 s2 r2.
  pose proof (upload_blob_spec bucket blob_path blob_data s) as [(_ & Hw1) Hid1].
  pose proof (upload_blob_spec bucket blob_path blob_data s1) as [(_ & Hw2) Hid2].
  fold s1 in Hw1, Hid1, Hw2. fold r1 in Hid1. fold s2 in Hw2, Hid2. fold r2 in Hid2.
  assert (forall s0 s0' r0 v,
             returned_id bucket blob_path blob_data s0 s0' r0 ->
             is_Some (objects (world s0) !! (bucket, blob_path)) ->
             r0 = inr v -> v = None) as Hnone.
  { intros s0 s0' r0 v Hid [d Hd] Hr. destruct (Hid v Hr) as (_ & _ & Hsome).
    destruct v as [id|]; [|done]. destruct (Hsome id eq_refl) as (_ & Hmiss & _). congruence. }
  split; [|split; [|split]].
  - intros Hex. destruct Hw1 as [[Ho Ht]|(Hmiss & _)].
    + repeat split; auto. intros v Hr. exact (Hnone _ _ _ _ Hid1 Hex Hr).
    + destruct Hex. congruence.
  - destruct Hw1 as [[Ho1 Ht1]|(Hnone1 & Ho1 & Ht1)].
    + destruct Hw2 as [[Ho2 Ht2]|(Hnone2 & Ho2 & Ht2)].
      * exists []. rewrite Ht2, Ht1, app_nil_r. auto.
      * exists [EvBlobUpload bucket blob_path blob_data]. rewrite Ht2, Ht1. auto.
    + destruct Hw2 as [[Ho2 Ht2]|(Hnone2 & Ho2 & Ht2)].
      * exists [EvBlobUpload bucket blob_path blob_data]. rewrite Ht2, Ht1. auto.
      * rewrite Ho1, lookup_insert_eq in Hnone2. done.
  - intros v Hr. destruct (Hid1 v Hr) as (Hex & _). split; [done|]. split.
    + destruct Hw2 as [[_ Ht2]|(Hnone2 & _)]; [done|]. destruct Hex. congruence.
    + intros v2 Hr2. exact (Hnone _ _ _ _ Hid2 Hex Hr2).
  - intros id Hr. destruct (Hid1 _ Hr) as (_ & _ & Hsome). by apply Hsome.
Qed.

Lemma upload_blob_media_step (bucket blob_path blob_data : string) (s : St) :
  media_step s (upload_blob bucket blob_path blob_data s).1.
Proof.
  pose proof (upload_blob_spec bucket blob_path blob_data s) as [(Hself & Hw) _].
  split; [rewrite Hself; apply media_counters_only_refl|].
  destruct Hw as [[_ Ht]|(_ & _ & Ht)].
  - exists []. by rewrite app_nil_r.
  - eexists. split; [exact Ht|]. by apply Forall_singleton.
Qed.

(** *** [download_video] *)

(** C10. When the response of [download_video] passed [raise_for_status]
    and has no content-length header, or one that [int] rejects, the function
    returns [None] and leaves the retriever (so both video counters)
    untouched; and whenever a call changes [num_video_download_failure], it
    adds exactly one and either the parsed length exceeded the maximum or a
    request exception occurred ([requests.get] raised, [raise_for_status]
    raised, or reading the body raised). *)
Theorem download_video_counters (s : St) (archive_id : Z) (video_url : string) :
  let response := (requests_get (ext (world s)) video_url).2 in
  let s' := (download_video archive_id video_url s).1 in
  let r := (download_video archive_id video_url s).2 in
  (forall video_request,
      response = HttpResponse video_request ->
      Response.status_ok video_request = true ->
      Response.headers video_request !! CONTENT_LENGTH_HEADER = None
      \/ (exists v, Response.headers video_request !! CONTENT_LENGTH_HEADER = Some v
                    /\ py_int v = None) ->
      r = inr None
      /\ self s' = self s
      /\ num_video_download_failure (self s') = num_video_download_failure (self s)
      /\ num_video_download_success (self s') = num_video_download_success (self s))
  /\ (num_video_download_failure (self s') <> num_video_download_failure (self s) ->
      num_video_download_failure (self s') = num_video_download_failure (self s) + 1
      /\ (response = HttpRaises
          \/ exists video_request,
               response = HttpResponse video_request
               /\ (Response.status_ok video_request = false
                   \/ exists v video_content_len,
                        Response.headers video_request !! CONTENT_LENGTH_HEADER = Some v
                        /\ py_int v = Some video_content_len
                        /\ (video_content_len > max_video_download_size (self s)
                            \/ Response.content video_request = None)))).
Proof.
  unfold download_video. munfold. simpl.
  destruct (requests_get (ext (world s)) video_url) as [e' [|video_request]] eqn:Eget; simpl.
  { split; [by intros|]. intros _. split; [done|by left]. }
  destruct (Response.status_ok video_request) eqn:Eok; simpl.
  2: { split; [intros ? [= <-]; congruence|]. intros _. split; [done|].
       right. exists video_request. eauto. }
  destruct (Response.headers video_request !! CONTENT_LENGTH_HEADER) as [v|] eqn:Ehdr; simpl.
  2: { split; [by intros|]. done. }
  destruct (py_int v) as [video_content_len|] eqn:Eint; simpl.
  2: { split; [by intros|]. done. }
  split.
  { intros ? [= <-] _ [?|(v' & ? & ?)]; congruence. }
  destruct (video_content_len >? max_video_download_size (self s)) eqn:Egt; simpl.
  { intros _. split; [done|]. right. exists video_request. split; [done|]. right.
    exists v, video_content_len. repeat split; auto. left. lia. }
  destruct (Response.content video_request) as [video_bytes|] eqn:Econtent; simpl.
  2: { intros _. split; [done|]. right. exists video_request. split; [done|]. right.
       exists v, video_content_len. repeat split; auto. }
  unfold store_video_in_google_bucket. munfold.
  match goal with |- context [upload_blob ?b ?p ?d ?st] =>
    pose proof (upload_blob_self b p d st) as Hself;
    destruct (upload_blob b p d st) as [s1 [e|id]] end; simpl in *.
  - rewrite Hself. simpl. done.
  - rewrite Hself. simpl. done.
Qed.

(** *** [process_fetched_ad_creative_data] *)

Lemma store_image_in_google_bucket_counters (image_dhash image_bytes : string) (s : St) :
  let s' := (store_image_in_google_bucket image_dhash image_bytes s).1 in
  num_video_download_failure (self s') = num_video_download_failure (self s)
  /\ max_video_download_size (self s') = max_video_download_size (self s).
Proof.
  unfold store_image_in_google_bucket. munfold.
  match goal with |- context [upload_blob ?b ?p ?d ?st] =>
    pose proof (upload_blob_self b p d st) as Hself;
    destruct (upload_blob b p d st) as [s1 [e|id]] end; simpl in *; by rewrite Hself.
Qed.

Lemma process_creative_image_counters (creative : Creative.t) (s : St) :
  let s' := (process_creative_image creative s).1 in
  num_video_download_failure (self s') = num_video_download_failure (self s)
  /\ max_video_download_size (self s') = max_video_download_size (self s).
Proof.
  unfold process_creative_image.
  destruct (Creative.image creative) as [image|]; [|done].
  destruct (get_image_dhash _) as [image_dhash|]; [|done].
  munfold. simpl.
  match goal with |- context [store_image_in_google_bucket ?a ?b ?st] =>
    pose proof (store_image_in_google_bucket_counters a b st) as Hc;
    destruct (store_image_in_google_bucket a b st) as [s1 [e|p]] end; simpl in *; done.
Qed.

(** When the image part of a creative succeeds, its four values are the
    ones computed from the image bytes. *)
Lemma process_creative_image_values (creative : Creative.t) (s s1 : St)
    (image_dhash image_sha256 image_bucket_path image_url : option string) :
  process_creative_image creative s
  = (s1, inr (Some (image_dhash, image_sha256, image_bucket_path, image_url))) ->
  match Creative.image creative with
  | None => image_dhash = None /\ image_sha256 = None /\ image_bucket_path = None
            /\ image_url = None
  | Some image =>
      exists dh, get_image_dhash (FetchedImage.binary_data image) = Some dh
                 /\ image_dhash = Some dh
                 /\ image_sha256 = Some (sha256_hexdigest (FetchedImage.binary_data image))
                 /\ image_bucket_path = Some (make_image_hash_file_path dh)
                 /\ image_url = FetchedImage.url image
  end.
Proof.
  unfold process_creative_image.
  destruct (Creative.image creative) as [image|]; [|by intros [= <- <- <- <- <-]].
  destruct (get_image_dhash _) as [dh|]; [|done].
  munfold. unfold store_image_in_google_bucket. munfold.
  destruct (upload_blob _ _ _ _) as [s2 [e|id]]; simpl; [done|].
  intros [= <- <- <- <- <-]. eauto 10.
Qed.

(** The three ways a response that passed [raise_for_status] makes
    [download_video] refuse the video. *)
Definition oversize (video_request : Response.t) (max_size : Z) : Prop :=
  exists v video_content_len,
    Response.headers video_request !! CONTENT_LENGTH_HEADER = Some v
    /\ py_int v = Some video_content_len
    /\ video_content_len > max_size.

Definition refused (video_request : Response.t) (max_size : Z) : Prop :=
  Response.headers video_request !! CONTENT_LENGTH_HEADER = None
  \/ (exists v, Response.headers video_request !! CONTENT_LENGTH_HEADER = Some v
                /\ py_int v = None)
  \/ oversize video_request max_size.

Lemma download_video_refused (s : St) (archive_id : Z) (video_url : string)
    (video_request : Response.t) :
  (requests_get (ext (world s)) video_url).2 = HttpResponse video_request ->
  Response.status_ok video_request = true ->
  refused video_request (max_video_download_size (self s)) ->
  let s' := (download_video archive_id video_url s).1 in
  (download_video archive_id video_url s).2 = inr None
  /\ (oversize video_request (max_video_download_size (self s)) ->
      self s' = set_num_video_download_failure (fun n => n + 1) (self s))
  /\ (~ oversize video_request (max_video_download_size (self s)) -> self s' = self s).
Proof.
  intros Hget Hok Href. unfold refused, oversize in *.
  unfold download_video. munfold. simpl.
  destruct (requests_get (ext (world s)) video_url) as [e' res]. simpl in Hget. subst res.
  simpl. rewrite Hok. simpl.
  destruct (Response.headers video_request !! CONTENT_LENGTH_HEADER) as [v|] eqn:Ehdr; simpl.
  2: { split; [done|]. split; [|done]. by intros (? & ? & ? & _). }
  destruct (py_int v) as [video_content_len|] eqn:Eint; simpl.
  2: { split; [done|]. split; [|done]. intros (? & ? & ? & ? & _). congruence. }
  destruct (video_content_len >? max_video_download_size (self s)) eqn:Egt; simpl.
  { split; [done|]. split; [done|]. intros []. exists v, video_content_len.
    repeat split; auto. lia. }
  exfalso. destruct Href as [?|[(? & ? & ?)|(? & ? & ? & ? & ?)]]; simplify_eq. lia.
Qed.

(** C6. A creative with a video URL whose download is refused: the
    response passed [raise_for_status] but has no content-length header, or a
    value [int] rejects, or a length above [max_video_download_size].  The
    premise that the image part went through says that the download was
    attempted at all (a creative whose image cannot be decoded is dropped
    before).  Then the record built for the creative has [video_sha256_hash]
    and [video_bucket_path] null, carries the image fields computed from the
    image bytes and the text fields, and is emitted unless its constraint
    tuple was already emitted for this archive id (the duplicate rule that
    applies to every creative); in the oversize case
    [num_video_download_failure] goes up by exactly one, in the two other
    cases it does not change. *)
Theorem process_creative_refused_video (s s1 : St) (archive_id : Z)
    (seen : gset AdCreativeRecordUniqueConstraintAttributes)
    (records : list AdCreativeRecord.t) (creative : Creative.t) (video_url : string)
    (image_dhash image_sha256 image_bucket_path image_url : option string)
    (video_request : Response.t) :
  Creative.video_url creative = Some video_url ->
  video_url <> ""%string ->
  process_creative_image creative s
  = (s1, inr (Some (image_dhash, image_sha256, image_bucket_path, image_url))) ->
  (requests_get (ext (world s1)) video_url).2 = HttpResponse video_request ->
  Response.status_ok video_request = true ->
  refused video_request (max_video_download_size (self s)) ->
  let s' := (process_creative archive_id (seen, records) creative s).1 in
  let text := (process_creative_text creative).1.1.1 in
  let text_sim_hash := (process_creative_text creative).1.1.2 in
  let text_sha256_hash := (process_creative_text creative).1.2 in
  let language := (process_creative_text creative).2 in
  let record :=
    make_ad_creative_record archive_id creative text text_sim_hash text_sha256_hash language
      image_dhash image_sha256 image_bucket_path image_url None None in
  (process_creative archive_id (seen, records) creative s).2
  = inr (if bool_decide ((archive_id, text_sha256_hash, image_sha256, None) ∈ seen)
         then (seen, records)
         else ({[(archive_id, text_sha256_hash, image_sha256, None)]} ∪ seen,
               records ++ [record]))
  /\ AdCreativeRecord.video_sha256_hash record = None
  /\ AdCreativeRecord.video_bucket_path record = None
  /\ AdCreativeRecord.video_downloaded_url record = Some video_url
  /\ AdCreativeRecord.ad_creative_body record
     = (if truthy (Creative.body creative) then Creative.body creative else None)
  /\ (forall image, Creative.image creative = Some image ->
        exists dh,
          get_image_dhash (FetchedImage.binary_data image) = Some dh
          /\ AdCreativeRecord.image_sim_hash record = Some dh
          /\ AdCreativeRecord.image_sha256_hash record
             = Some (sha256_hexdigest (FetchedImage.binary_data image))
          /\ AdCreativeRecord.image_bucket_path record = Some (make_image_hash_file_path dh)
          /\ AdCreativeRecord.image_downloaded_url record = FetchedImage.url image)
  /\ (oversize video_request (max_video_download_size (self s)) ->
      num_video_download_failure (self s') = num_video_download_failure (self s) + 1)
  /\ (~ oversize video_request (max_video_download_size (self s)) ->
      num_video_download_failure (self s') = num_video_download_failure (self s)).
Proof.
  intros Hurl Hne Himg Hget Hok Href s' text text_sim_hash text_sha256_hash language record.
  pose proof (process_creative_image_counters creative s) as [Hfail Hmax].
  pose proof (process_creative_image_values _ _ _ _ _ _ _ Himg) as Hvalues.
  rewrite Himg in Hfail, Hmax. simpl in Hfail, Hmax. rewrite <-Hmax in Href |- *.
  pose proof (download_video_refused s1 archive_id video_url video_request Hget Hok Href)
    as (Hnone & Hover & Hnot).
  assert (process_creative archive_id (seen, records) creative s
          = ((download_video archive_id video_url s1).1,
             inr (if bool_decide ((archive_id, text_sha256_hash, image_sha256, None) ∈ seen)
                  then (seen, records)
                  else ({[(archive_id, text_sha256_hash, image_sha256, None)]} ∪ seen,
                        records ++ [record])))) as Hstep.
  { unfold process_creative. unfold bind at 1. rewrite Himg.
    unfold process_creative_video. rewrite Hurl. simpl.
    destruct (String.eqb_spec video_url ""); [done|]. simpl.
    unfold bind. destruct (download_video archive_id video_url s1) as [s2 r2].
    simpl in Hnone. subst r2. simpl.
    subst record text text_sim_hash text_sha256_hash language.
    destruct (process_creative_text creative) as [[[t tsh] ts] l]. simpl.
    by destruct (bool_decide _). }
  subst s'. rewrite Hstep. simpl.
  split; [done|]. split; [done|]. split; [done|]. split; [done|].
  split.
  { subst record text. unfold process_creative_text. simpl.
    destruct (Creative.body creative) as [b|]; simpl; [|done].
    by destruct (String.eqb b ""). }
  split.
  { intros image Himage. rewrite Himage in Hvalues.
    destruct Hvalues as (dh & ? & -> & -> & -> & ->). exists dh. done. }
  split.
  - intros Hov. rewrite (Hover Hov). simpl. by rewrite Hfail.
  - intros Hov. rewrite (Hnot Hov). done.
Qed.

Lemma on_self_media_step (f : FacebookAdCreativeRetriever -> FacebookAdCreativeRetriever)
    (s : St) :
  media_counters_only (self s) (f (self s)) -> media_step s (on_self f s).1.
Proof. intros Hf. split; [done|by apply trace_extends_same]. Qed.

Lemma store_image_in_google_bucket_media_step (image_dhash image_bytes : string) (s : St) :
  media_step s (store_image_in_google_bucket image_dhash image_bytes s).1.
Proof.
  unfold store_image_in_google_bucket. unfold bind at 1.
  match goal with |- context [upload_blob ?b ?p ?d ?st] =>
    pose proof (upload_blob_media_step b p d st) as Hstep;
    destruct (upload_blob b p d st) as [s1 [e|id]] end; simpl in *; [done|].
  eapply media_step_trans; [exact Hstep|]. munfold. simpl.
  split; [by repeat split|by apply trace_extends_same].
Qed.

Lemma store_video_in_google_bucket_media_step (video_sha256 video_bytes : string) (s : St) :
  media_step s (store_video_in_google_bucket video_sha256 video_bytes s).1.
Proof.
  unfold store_video_in_google_bucket. unfold bind at 1.
  match goal with |- context [upload_blob ?b ?p ?d ?st] =>
    pose proof (upload_blob_media_step b p d st) as Hstep;
    destruct (upload_blob b p d st) as [s1 [e|id]] end; simpl in *; [done|].
  eapply media_step_trans; [exact Hstep|]. munfold. simpl.
  split; [by repeat split|by apply trace_extends_same].
Qed.

Lemma store_snapshot_screenshot_media_step (archive_id : Z) (data : string) (s : St) :
  media_step s (store_snapshot_screenshot archive_id data s).1.
Proof.
  unfold store_snapshot_screenshot. unfold bind.
  match goal with |- context [upload_blob ?b ?p ?d ?st] =>
    pose proof (upload_blob_media_step b p d st) as Hstep;
    destruct (upload_blob b p d st) as [s1 [e|id]] end; simpl in *; done.
Qed.

Lemma download_video_media_step (archive_id : Z) (video_url : string) (s : St) :
  media_step s (download_video archive_id video_url s).1.
Proof.
  assert (forall s0 : St, media_step s0
            (mkSt (set_num_video_download_failure (fun n => n + 1) (self s0)) (world s0)))
    as Hfail.
  { intros s0. split; [by repeat split|by apply trace_extends_same]. }
  assert (forall (s0 : St) e', media_step s0
            (mkSt (self s0) (mkWorld e' (objects (world s0)) (trace (world s0))))) as Hext.
  { intros s0 e'. split; [apply media_counters_only_refl|by apply trace_extends_same]. }
  unfold download_video. munfold. simpl.
  destruct (requests_get (ext (world s)) video_url) as [e' [|video_request]]; simpl.
  { eapply media_step_trans; [apply (Hext s e')|apply Hfail]. }
  destruct (Response.status_ok video_request); simpl.
  2: { eapply media_step_trans; [apply (Hext s e')|apply Hfail]. }
  destruct (Response.headers video_request !! CONTENT_LENGTH_HEADER) as [v|]; simpl;
    [|apply Hext].
  destruct (py_int v) as [video_content_len|]; simpl; [|apply Hext].
  destruct (video_content_len >? max_video_download_size (self s)); simpl.
  { eapply media_step_trans; [apply (Hext s e')|apply Hfail]. }
  destruct (Response.content video_request) as [video_bytes|]; simpl.
  2: { eapply media_step_trans; [apply (Hext s e')|apply Hfail]. }
  match goal with |- context [store_video_in_google_bucket ?a ?b ?st] =>
    pose proof (store_video_in_google_bucket_media_step a b st) as Hstep;
    destruct (store_video_in_google_bucket a b st) as [s1 [e|p]] end; simpl in *.
  - eapply media_step_trans; [|exact Hstep].
    split; [by repeat split|by apply trace_extends_same].
  - eapply media_step_trans; [|exact Hstep].
    split; [by repeat split|by apply trace_extends_same].
Qed.

Lemma process_creative_image_media_step (creative : Creative.t) (s : St) :
  media_step s (process_creative_image creative s).1.
Proof.
  unfold process_creative_image.
  destruct (Creative.image creative) as [image|]; [|apply media_step_refl].
  destruct (get_image_dhash _) as [image_dhash|].
  - munfold. simpl.
    match goal with |- context [store_image_in_google_bucket ?a ?b ?st] =>
      pose proof (store_image_in_google_bucket_media_step a b st) as Hstep;
      destruct (store_image_in_google_bucket a b st) as [s1 [e|p]] end; simpl in *.
    + eapply media_step_trans; [|exact Hstep].
      split; [by repeat split|by apply trace_extends_same].
    + eapply media_step_trans; [|exact Hstep].
      split; [by repeat split|by apply trace_extends_same].
  - munfold. simpl. split; [by repeat split|by apply trace_extends_same].
Qed.

Lemma process_creative_video_media_step (archive_id : Z) (creative : Creative.t) (s : St) :
  media_step s (process_creative_video archive_id creative s).1.
Proof.
  unfold process_creative_video.
  destruct (truthy (Creative.video_url creative)); [|apply media_step_refl].
  unfold bind.
  match goal with |- context [download_video ?a ?b ?st] =>
    pose proof (download_video_media_step a b st) as Hstep;
    destruct (download_video a b st) as [s1 [e|[attrs|]]] end; simpl in *; done.
Qed.

Lemma process_creative_media_step (archive_id : Z)
    (acc : gset AdCreativeRecordUniqueConstraintAttributes * list AdCreativeRecord.t)
    (creative : Creative.t) (s : St) :
  media_step s (process_creative archive_id acc creative s).1.
Proof.
  unfold process_creative. destruct acc as [seen records]. unfold bind at 1.
  pose proof (process_creative_image_media_step creative s) as Himg.
  destruct (process_creative_image creative s) as [s1 [e|[[[[dh sha] path] url]|]]];
    simpl in *; [done| |done].
  unfold bind.
  pose proof (process_creative_video_media_step archive_id creative s1) as Hvid.
  destruct (process_creative_video archive_id creative s1) as [s2 [e|[vsha vpath]]];
    simpl in *; [by eapply media_step_trans|].
  destruct (process_creative_text creative) as [[[t tsh] ts] l].
  destruct (bool_decide _); simpl; by eapply media_step_trans.
Qed.

Lemma process_fetched_ad_creative_data_media_step (archive_id : Z)
    (fetched_data : ScreenshotAndCreatives.t) (s : St) :
  media_step s (process_fetched_ad_creative_data archive_id fetched_data s).1.
Proof.
  unfold process_fetched_ad_creative_data.
  destruct (ScreenshotAndCreatives.creatives fetched_data) as [|c cs]; [apply media_step_refl|].
  unfold bind.
  pose proof (for_each_state_rel media_step (process_creative archive_id) (c :: cs)
                media_step_refl media_step_trans
                (fun acc x s0 _ => process_creative_media_step archive_id acc x s0)
                (∅, []) s) as Hloop.
  destruct (for_each (c :: cs) (process_creative archive_id) (∅, []) s)
    as [s1 [e|[seen records]]]; simpl in *; done.
Qed.

(** Every record of one call carries the archive id of the call, and no
    two of them share their constraint tuple. *)
Lemma process_creative_loop_invariant (archive_id : Z) (creatives : list Creative.t) :
  forall seen records s s' seen' records',
    seen = list_to_set (unique_constraint_attrs_of <$> records) ->
    NoDup (unique_constraint_attrs_of <$> records) ->
    Forall (fun r => AdCreativeRecord.archive_id r = archive_id) records ->
    for_each creatives (process_creative archive_id) (seen, records) s
    = (s', inr (seen', records')) ->
    seen' = list_to_set (unique_constraint_attrs_of <$> records')
    /\ NoDup (unique_constraint_attrs_of <$> records')
    /\ Forall (fun r => AdCreativeRecord.archive_id r = archive_id) records'.
Proof.
  intros seen records s s' seen' records' Hseen Hnd Hall Hloop.
  pose proof (for_each_invariant
    (fun (_ : St) (acc : gset AdCreativeRecordUniqueConstraintAttributes
                         * list AdCreativeRecord.t) =>
       acc.1 = list_to_set (unique_constraint_attrs_of <$> acc.2)
       /\ NoDup (unique_constraint_attrs_of <$> acc.2)
       /\ Forall (fun r => AdCreativeRecord.archive_id r = archive_id) acc.2)
    (process_creative archive_id) creatives) as Hinv.
  apply (fun Hbody => Hinv Hbody (seen, records) s s' (seen', records')
                         (conj Hseen (conj Hnd Hall)) Hloop).
  clear. intros [seen records] creative s s' [seen' records'] _ (Hseen & Hnd & Hall).
  simpl in *. unfold process_creative, bind.
  destruct (process_creative_image creative s) as [s1 [e|[[[[dh sha] path] url]|]]];
    [done| |by intros [= <- <- <-]].
  destruct (process_creative_video archive_id creative s1) as [s2 [e|[vsha vpath]]]; [done|].
  destruct (process_creative_text creative) as [[[t tsh] ts] l].
  case_bool_decide as Hin; unfold ret; intros [= <- <- <-]; [done|].
  rewrite fmap_app. simpl. split; [|split].
  - rewrite list_to_set_app_L. simpl. rewrite <-Hseen.
    rewrite (right_id_L ∅ (∪)). apply (comm_L (∪)).
  - apply NoDup_app. split; [done|]. split; [|apply NoDup_singleton].
    intros x Hx ->%list_elem_of_singleton. apply Hin. rewrite Hseen.
    by apply elem_of_list_to_set.
  - apply Forall_app. split; [done|]. by apply Forall_singleton.
Qed.

Lemma process_fetched_ad_creative_data_records (archive_id : Z)
    (fetched_data : ScreenshotAndCreatives.t) (s s' : St) (records : list AdCreativeRecord.t) :
  process_fetched_ad_creative_data archive_id fetched_data s = (s', inr (Some records)) ->
  NoDup (unique_constraint_attrs_of <$> records)
  /\ Forall (fun r => AdCreativeRecord.archive_id r = archive_id) records.
Proof.
  unfold process_fetched_ad_creative_data.
  destruct (ScreenshotAndCreatives.creatives fetched_data) as [|c cs]; [done|].
  unfold bind.
  destruct (for_each (c :: cs) (process_creative archive_id) (∅, []) s)
    as [s1 [e|[seen recs]]] eqn:Hloop; [done|].
  intros [= <- <-].
  eapply process_creative_loop_invariant in Hloop as (_ & ? & ?); try done.
  apply NoDup_nil_2.
Qed.

(** *** Which rows are emitted *)

(** The constraint tuple that the loop body of
    [process_fetched_ad_creative_data] computes for a creative in the state
    [s], next to the state in which the body ends; no tuple when the image
    cannot be decoded, which is the [continue] of the loop, or when storing
    the media raises. *)
Definition creative_unique_constraint_attrs (archive_id : Z) (creative : Creative.t) (s : St)
  : option AdCreativeRecordUniqueConstraintAttributes * St :=
  match process_creative_image creative s with
  | (s1, inr (Some (_, image_sha256, _, _))) =>
      match process_creative_video archive_id creative s1 with
      | (s2, inr (video_sha256, _)) =>
          (Some (archive_id, (process_creative_text creative).1.2, image_sha256, video_sha256),
           s2)
      | (s2, inl _) => (None, s2)
      end
  | (s1, _) => (None, s1)
  end.

(** The constraint tuples of the creatives of one archive id, in the run of
    the loop from the state [s]. *)
Fixpoint creatives_unique_constraint_attrs (archive_id : Z) (creatives : list Creative.t)
    (s : St) : list AdCreativeRecordUniqueConstraintAttributes :=
  match creatives with
  | [] => []
  | creative :: rest =>
      option_list (creative_unique_constraint_attrs archive_id creative s).1
      ++ creatives_unique_constraint_attrs archive_id rest
           (creative_unique_constraint_attrs archive_id creative s).2
  end.

(** One turn of the loop: the state it leaves does not depend on the rows
    collected so far, and a row with the tuple of the creative is added
    exactly when the tuple has not been seen. *)
Lemma process_creative_emits (archive_id : Z)
    (seen : gset AdCreativeRecordUniqueConstraintAttributes)
    (records : list AdCreativeRecord.t) (creative : Creative.t) (s s' : St)
    (seen' : gset AdCreativeRecordUniqueConstraintAttributes)
    (records' : list AdCreativeRecord.t) :
  process_creative archive_id (seen, records) creative s = (s', inr (seen', records')) ->
  s' = (creative_unique_constraint_attrs archive_id creative s).2
  /\ match (creative_unique_constraint_attrs archive_id creative s).1 with
     | None => seen' = seen /\ records' = records
     | Some attrs =>
         if bool_decide (attrs ∈ seen) then seen' = seen /\ records' = records
         else seen' = {[attrs]} ∪ seen
              /\ exists record, records' = records ++ [record]
                                /\ unique_constraint_attrs_of record = attrs
     end.
Proof.
  unfold process_creative, creative_unique_constraint_attrs, bind.
  destruct (process_creative_image creative s) as [s1 [e|[[[[dh sha] path] url]|]]];
    [done| |by intros [= <- <- <-]].
  destruct (process_creative_video archive_id creative s1) as [s2 [e|[vsha vpath]]]; [done|].
  destruct (process_creative_text creative) as [[[t tsh] ts] l]. simpl.
  case_bool_decide as Hin; unfold ret; intros [= <- <- <-]; [done|].
  split; [done|]. split; [done|]. by eexists.
Qed.

Lemma process_creative_loop_attrs (archive_id : Z) (creatives : list Creative.t) :
  forall seen records s s' seen' records',
    seen = list_to_set (unique_constraint_attrs_of <$> records) ->
    for_each creatives (process_creative archive_id) (seen, records) s
    = (s', inr (seen', records')) ->
    forall attrs,
      attrs ∈ unique_constraint_attrs_of <$> records'
      <-> attrs ∈ unique_constraint_attrs_of <$> records
          \/ attrs ∈ creatives_unique_constraint_attrs archive_id creatives s.
Proof.
  induction creatives as [|creative rest IH];
    intros seen records s s' seen' records' Hseen; cbn [for_each].
  { intros [= <- <- <-] attrs. simpl. rewrite elem_of_nil. tauto. }
  unfold bind at 1.
  destruct (process_creative archive_id (seen, records) creative s)
    as [s1 [e|[seen1 records1]]] eqn:Hbody; [done|].
  apply process_creative_emits in Hbody as [-> Hemit].
  intros Hrest attrs. cbn [creatives_unique_constraint_attrs].
  destruct (creative_unique_constraint_attrs archive_id creative s) as [[new|] s1];
    simpl in *.
  - case_bool_decide as Hin.
    + destruct Hemit as [-> ->]. rewrite (IH _ _ _ _ _ _ Hseen Hrest attrs).
      rewrite elem_of_cons. split; [tauto|]. intros [?|[->|?]]; auto.
      left. rewrite Hseen in Hin. by apply elem_of_list_to_set in Hin.
    + destruct Hemit as (-> & record & -> & Hrecord).
      assert ({[new]} ∪ seen
              = list_to_set (unique_constraint_attrs_of <$> records ++ [record])) as Hseen1.
      { rewrite fmap_app, list_to_set_app_L. simpl. rewrite Hrecord, <-Hseen.
        rewrite (right_id_L ∅ (∪)). apply (comm_L (∪)). }
      rewrite (IH _ _ _ _ _ _ Hseen1 Hrest attrs).
      rewrite fmap_app, elem_of_app, elem_of_cons. simpl.
      rewrite list_elem_of_singleton, Hrecord. tauto.
  - destruct Hemit as [-> ->]. by rewrite (IH _ _ _ _ _ _ Hseen Hrest attrs).
Qed.

(** The rows of one archive id: a row for each tuple of its creatives. *)
Lemma process_fetched_ad_creative_data_attrs (archive_id : Z)
    (fetched_data : ScreenshotAndCreatives.t) (s s' : St) (records : list AdCreativeRecord.t) :
  process_fetched_ad_creative_data archive_id fetched_data s = (s', inr (Some records)) ->
  forall attrs,
    attrs ∈ unique_constraint_attrs_of <$> records
    <-> attrs ∈ creatives_unique_constraint_attrs archive_id
                  (ScreenshotAndCreatives.creatives fetched_data) s.
Proof.
  unfold process_fetched_ad_creative_data.
  destruct (ScreenshotAndCreatives.creatives fetched_data) as [|c cs]; [done|].
  unfold bind.
  destruct (for_each (c :: cs) (process_creative archive_id) (∅, []) s)
    as [s1 [e|[seen recs]]] eqn:Hloop; [done|].
  intros [= <- <-] attrs.
  rewrite (process_creative_loop_attrs archive_id (c :: cs) ∅ [] s s1 seen recs
             eq_refl Hloop attrs).
  simpl. rewrite elem_of_nil. tauto.
Qed.

(** *** [retrieve_ad] *)

Definition config_kept (r r' : FacebookAdCreativeRetriever) : Prop :=
  max_video_download_size r' = max_video_download_size r
  /\ current_batch_id r' = current_batch_id r
  /\ commit_to_db_every_n_processed r' = commit_to_db_every_n_processed r
  /\ slack_url r' = slack_url r
  /\ slack_user_id_to_include r' = slack_user_id_to_include r.

(** What holds from state to state while a chunk is processed: the
    configuration stays and the trace grows by events of one kind. *)
Definition step (P : Event -> Prop) (s s' : St) : Prop :=
  config_kept (self s) (self s') /\ trace_extends P s s'.

Lemma step_refl P s : step P s s.
Proof. split; [by repeat split|apply trace_extends_refl]. Qed.

Lemma step_trans P s1 s2 s3 : step P s1 s2 -> step P s2 s3 -> step P s1 s3.
Proof.
  intros [Hc1 ?] [Hc2 ?]. split; [|by eapply trace_extends_trans].
  unfold config_kept in *. destruct_and!. repeat split; congruence.
Qed.

Lemma step_weaken (P Q : Event -> Prop) s s' :
  (forall ev, P ev -> Q ev) -> step P s s' -> step Q s s'.
Proof. intros HPQ [? ?]. split; [done|]. by eapply trace_extends_weaken. Qed.

Lemma media_step_step s s' : media_step s s' -> step is_upload s s'.
Proof.
  intros [Hc Ht]. split; [|done].
  unfold media_counters_only, config_kept in *. destruct_and!. by repeat split.
Qed.

(** The status [retrieve_ad] records for what the extractor did. *)
Definition snapshot_fetch_status_of (r : Exn + ScreenshotAndCreatives.t)
  : option SnapshotFetchStatus :=
  match r with
  | inr screenshot_and_creatives =>
      match ScreenshotAndCreatives.creatives screenshot_and_creatives with
      | _ :: _ => Some SUCCESS
      | [] => Some NO_AD_CREATIVES_FOUND
      end
  | inl error => fst <$> snapshot_fetch_status_of_error error
  end.

Lemma retrieve_attempt_frame (archive_id : Z) (s : St) :
  exists fetch_time r,
    (retrieve_attempt archive_id s).2 = inr (fetch_time, r)
    /\ self (retrieve_attempt archive_id s).1 = self s
    /\ trace (world (retrieve_attempt archive_id s).1) = trace (world s)
    /\ objects (world (retrieve_attempt archive_id s).1) = objects (world s).
Proof.
  unfold retrieve_attempt. munfold. simpl.
  destruct (datetime_now (ext (world s))) as [e1 t]. simpl.
  destruct (creative_retriever_retrieve_ad e1 archive_id) as [e2 r]. simpl.
  by exists t, r.
Qed.

Lemma retrieve_with_browser_retry_frame (archive_id : Z) (s : St) :
  exists fetch_time r,
    (retrieve_with_browser_retry archive_id s).2 = inr (fetch_time, r)
    /\ self (retrieve_with_browser_retry archive_id s).1 = self s
    /\ trace (world (retrieve_with_browser_retry archive_id s).1) = trace (world s)
    /\ objects (world (retrieve_with_browser_retry archive_id s).1) = objects (world s).
Proof.
  destruct (retrieve_with_browser_retry archive_id s) as [s' rr] eqn:E. simpl.
  unfold retrieve_with_browser_retry, bind in E.
  destruct (retrieve_attempt_frame archive_id s) as (t0 & r0 & Hr & Hs & Ht & Ho).
  destruct (retrieve_attempt archive_id s) as [s1 rr1]. simpl in *. subst rr1.
  assert (forall x : St * (Exn + (Z * (Exn + ScreenshotAndCreatives.t))),
             ret (t0, r0) s1 = x -> x = (s', rr) ->
             exists fetch_time r, rr = inr (fetch_time, r) /\ self s' = self s
               /\ trace (world s') = trace (world s)
               /\ objects (world s') = objects (world s)) as Hret.
  { intros x <- [= <- <-]. by exists t0, r0. }
  destruct r0 as [error|sc]; [|by eapply Hret].
  destruct (is_browser_error error); [|by eapply Hret].
  unfold reset_creative_retriever in E. munfold. simpl in E.
  match type of E with context [retrieve_attempt archive_id ?st] =>
    destruct (retrieve_attempt_frame archive_id st) as (t1 & r1 & Hr1 & Hs1 & Ht1 & Ho1);
    destruct (retrieve_attempt archive_id st) as [s2 rr2] end.
  simpl in *. subst rr2. injection E as <- <-. exists t1, r1.
  rewrite Hs1, Ht1, Ho1. done.
Qed.

(** What [retrieve_ad] returns and changes, from what the extractor did on
    the last attempt. *)
Lemma retrieve_ad_spec (archive_id : Z) (s : St) :
  exists fetch_time r,
    (retrieve_with_browser_retry archive_id s).2 = inr (fetch_time, r)
    /\ trace (world (retrieve_ad archive_id s).1) = trace (world s)
    /\ config_kept (self s) (self (retrieve_ad archive_id s).1)
    /\ match snapshot_fetch_status_of r with
       | Some status =>
           (retrieve_ad archive_id s).2
           = inr (match r with inr sc => Some sc | inl _ => None end,
                  AdSnapshotMetadataRecord.mk archive_id fetch_time status)
           /\ num_snapshots_fetch_failed (self (retrieve_ad archive_id s).1)
              = num_snapshots_fetch_failed (self s)
                + (match status with UNKNOWN => 1 | _ => 0 end)
       | None => exists error, r = inl error /\ (retrieve_ad archive_id s).2 = inl error
       end.
Proof.
  destruct (retrieve_with_browser_retry_frame archive_id s) as (t & r & Hr & Hs & Ht & Ho).
  exists t, r. split; [done|].
  destruct (retrieve_ad archive_id s) as [s' res] eqn:E. simpl.
  unfold retrieve_ad in E. unfold bind at 1 in E.
  destruct (retrieve_with_browser_retry archive_id s) as [s1 rr]. simpl in *. subst rr.
  destruct r as [error|sc]; simpl.
  - destruct error; simpl in *; munfold; simpl in E; injection E as <- <-; simpl;
      rewrite ?Ht, ?Hs; repeat split; eauto; try lia.
  - destruct (ScreenshotAndCreatives.creatives sc); munfold; simpl in E;
      injection E as <- <-; simpl; rewrite ?Ht, ?Hs; repeat split; eauto; try lia.
Qed.

Lemma snapshot_fetch_status_unknown (r : Exn + ScreenshotAndCreatives.t) :
  snapshot_fetch_status_of r = Some UNKNOWN <-> r = inl RequestException.
Proof.
  split; [|by intros ->].
  destruct r as [error|sc]; simpl; [by destruct error|].
  by destruct (ScreenshotAndCreatives.creatives sc).
Qed.

Lemma retrieve_ad_step (archive_id : Z) (s : St) :
  step is_upload s (retrieve_ad archive_id s).1.
Proof.
  destruct (retrieve_ad_spec archive_id s) as (t & r & _ & Ht & Hc & _).
  split; [done|]. by apply trace_extends_same.
Qed.

(** *** [process_archive_ids] *)

(** The loop body only appends to what it is given: its run from any
    accumulator is its run from the empty one, added on. *)
Lemma process_archive_id_acc (w : Z) (metas : list AdSnapshotMetadataRecord.t)
    (recs : list AdCreativeRecord.t) (archive_id : Z) (s : St) :
  process_archive_id (w, metas, recs) archive_id s
  = match process_archive_id (0, [], []) archive_id s with
    | (s', inl e) => (s', inl e)
    | (s', inr (w1, metas1, recs1)) => (s', inr (w + w1, metas ++ metas1, recs ++ recs1))
    end.
Proof.
  unfold process_archive_id. unfold bind at 1 4.
  destruct (retrieve_ad archive_id s) as [s1 [e|[[sc|] m]]]; [done| |].
  2: { unfold ret. simpl. by rewrite app_nil_r. }
  unfold bind at 1 3.
  match goal with |- context [(if ?c then ?a else ?b) s1] =>
    destruct ((if c then a else b) s1) as [s2 [e|[]]] end; [done|].
  destruct (ScreenshotAndCreatives.creatives sc).
  { unfold ret. simpl. by rewrite app_nil_r. }
  unfold bind.
  destruct (process_fetched_ad_creative_data archive_id sc s2) as [s3 [e|[[|r rs]|]]];
    unfold ret; simpl; rewrite ?Z.add_0_r, ?app_nil_r; done.
Qed.

(** One archive id: one metadata record for it, with the status of what the
    extractor did; records of this id only, no two with the same constraint
    tuple. *)
Lemma process_archive_id_spec (archive_id : Z) (s s' : St) (w1 : Z)
    (metas1 : list AdSnapshotMetadataRecord.t) (recs1 : list AdCreativeRecord.t) :
  process_archive_id (0, [], []) archive_id s = (s', inr (w1, metas1, recs1)) ->
  exists m,
    metas1 = [m]
    /\ AdSnapshotMetadataRecord.archive_id m = archive_id
    /\ (exists fetch_time r,
          (retrieve_with_browser_retry archive_id s).2 = inr (fetch_time, r)
          /\ AdSnapshotMetadataRecord.snapshot_fetch_time m = fetch_time
          /\ snapshot_fetch_status_of r
             = Some (AdSnapshotMetadataRecord.snapshot_fetch_status m))
    /\ Forall (fun r => AdCreativeRecord.archive_id r = archive_id) recs1
    /\ NoDup (unique_constraint_attrs_of <$> recs1)
    /\ num_snapshots_fetch_failed (self s')
       = num_snapshots_fetch_failed (self s)
         + (match AdSnapshotMetadataRecord.snapshot_fetch_status m with
            | UNKNOWN => 1
            | _ => 0
            end).
Proof.
  unfold process_archive_id. unfold bind at 1.
  destruct (retrieve_ad_spec archive_id s) as (t & r & Hr & _ & _ & Hres).
  destruct (retrieve_ad archive_id s) as [s1 res]. simpl in Hres.
  destruct (snapshot_fetch_status_of r) as [status|] eqn:Hstatus;
    [|by destruct Hres as (? & _ & ->)].
  destruct Hres as [-> Hfailed].
  assert (forall (s2 : St) (new : list AdCreativeRecord.t),
             media_step s1 s2 ->
             Forall (fun r => AdCreativeRecord.archive_id r = archive_id) new ->
             NoDup (unique_constraint_attrs_of <$> new) ->
             forall x : St * (Exn + (Z * list AdSnapshotMetadataRecord.t
                                     * list AdCreativeRecord.t)),
               (exists w, x = (s2, inr (w, [AdSnapshotMetadataRecord.mk archive_id t status],
                                        new))) ->
               x = (s', inr (w1, metas1, recs1)) ->
               exists m,
                 metas1 = [m]
                 /\ AdSnapshotMetadataRecord.archive_id m = archive_id
                 /\ (exists fetch_time r0,
                       (retrieve_with_browser_retry archive_id s).2 = inr (fetch_time, r0)
                       /\ AdSnapshotMetadataRecord.snapshot_fetch_time m = fetch_time
                       /\ snapshot_fetch_status_of r0
                          = Some (AdSnapshotMetadataRecord.snapshot_fetch_status m))
                 /\ Forall (fun r => AdCreativeRecord.archive_id r = archive_id) recs1
                 /\ NoDup (unique_constraint_attrs_of <$> recs1)
                 /\ num_snapshots_fetch_failed (self s')
                    = num_snapshots_fetch_failed (self s)
                      + (match AdSnapshotMetadataRecord.snapshot_fetch_status m with
                         | UNKNOWN => 1
                         | _ => 0
                         end)) as Hfinish.
  { intros s2 new [Hmedia _] Hall Hnd x [w ->] [= <- <- <- <-].
    exists (AdSnapshotMetadataRecord.mk archive_id t status). simpl.
    repeat split; eauto.
    destruct Hmedia as (_ & _ & -> & _). done. }
  destruct r as [error|sc]; simpl.
  { apply (Hfinish s1 []); eauto using media_step_refl, NoDup_nil_2. }
  unfold bind at 1.
  match goal with |- context [(if ?c then ?a else ?b) s1] =>
    assert (media_step s1 ((if c then a else b) s1).1) as Hshot
      by (destruct c; [apply store_snapshot_screenshot_media_step|apply media_step_refl]);
    destruct ((if c then a else b) s1) as [s2 [e|[]]] end; [done|].
  simpl in Hshot.
  destruct (ScreenshotAndCreatives.creatives sc).
  { apply (Hfinish s2 []); eauto using NoDup_nil_2. }
  unfold bind.
  pose proof (process_fetched_ad_creative_data_media_step archive_id sc s2) as Hmedia.
  pose proof (process_fetched_ad_creative_data_records archive_id sc s2) as Hrecs.
  destruct (process_fetched_ad_creative_data archive_id sc s2) as [s3 [e|[[|r0 rs]|]]];
    [done| | |]; simpl in Hmedia.
  - apply (Hfinish s3 []); eauto using media_step_trans, NoDup_nil_2.
  - destruct (Hrecs s3 (r0 :: rs) eq_refl) as [Hnd Hall].
    apply (Hfinish s3 (r0 :: rs)); eauto using media_step_trans.
  - apply (Hfinish s3 []); eauto using media_step_trans, NoDup_nil_2.
Qed.

Lemma process_archive_id_step
    (acc : Z * list AdSnapshotMetadataRecord.t * list AdCreativeRecord.t)
    (archive_id : Z) (s : St) :
  step is_upload s (process_archive_id acc archive_id s).1.
Proof.
  destruct acc as [[w metas] recs].
  unfold process_archive_id. unfold bind at 1.
  pose proof (retrieve_ad_step archive_id s) as Hfetch.
  destruct (retrieve_ad archive_id s) as [s1 [e|[[sc|] m]]]; [done| |done].
  simpl in Hfetch. unfold bind at 1.
  match goal with |- context [(if ?c then ?a else ?b) s1] =>
    assert (media_step s1 ((if c then a else b) s1).1) as Hshot
      by (destruct c; [apply store_snapshot_screenshot_media_step|apply media_step_refl]);
    destruct ((if c then a else b) s1) as [s2 [e|[]]] end; simpl in Hshot.
  { eauto using step_trans, media_step_step. }
  assert (step is_upload s s2) as Hs2 by eauto using step_trans, media_step_step.
  destruct (ScreenshotAndCreatives.creatives sc); [done|].
  unfold bind.
  pose proof (process_fetched_ad_creative_data_media_step archive_id sc s2) as Hmedia.
  destruct (process_fetched_ad_creative_data archive_id sc s2) as [s3 [e|[[|r0 rs]|]]];
    simpl in *; eauto using step_trans, media_step_step.
Qed.

Lemma inserted_records_app (l1 l2 : list Event) :
  inserted_records (l1 ++ l2) = inserted_records l1 ++ inserted_records l2.
Proof. unfold inserted_records. by rewrite fmap_app, join_app. Qed.

Lemma inserted_records_uploads (l : list Event) :
  Forall is_upload l -> inserted_records l = [].
Proof.
  induction 1 as [|ev l Hev _ IH]; [done|].
  change (inserted_records (ev :: l)) with (inserted_records ([ev] ++ l)).
  rewrite inserted_records_app, IH. by destruct ev.
Qed.

Lemma count_unknown_app (l1 l2 : list AdSnapshotMetadataRecord.t) :
  count_unknown (l1 ++ l2) = count_unknown l1 + count_unknown l2.
Proof. unfold count_unknown. rewrite filter_app, length_app. lia. Qed.

Lemma unique_constraint_attrs_archive_id (r : AdCreativeRecord.t) :
  (unique_constraint_attrs_of r).1.1.1 = AdCreativeRecord.archive_id r.
Proof. done. Qed.

(** What the extractor did for each archive id of a chunk on its last
    attempt, next to the fetch time, in the run of [process_archive_ids] from
    the state [s]: an archive id is fetched in the state that the archive
    ids before it have left. *)
Fixpoint last_attempts (archive_ids : list Z) (s : St)
  : list (Z * (Exn + ScreenshotAndCreatives.t)) :=
  match archive_ids with
  | [] => []
  | archive_id :: rest =>
      match (retrieve_with_browser_retry archive_id s).2 with
      | inr attempt =>
          attempt :: last_attempts rest (process_archive_id (0, [], []) archive_id s).1
      | inl _ => []
      end
  end.

(** The metadata record of an attempt: its fetch time, and the status that
    [retrieve_ad] gives what the extractor did. *)
Definition metadata_of_attempt (m : AdSnapshotMetadataRecord.t)
    (attempt : Z * (Exn + ScreenshotAndCreatives.t)) : Prop :=
  AdSnapshotMetadataRecord.snapshot_fetch_time m = attempt.1
  /\ snapshot_fetch_status_of attempt.2
     = Some (AdSnapshotMetadataRecord.snapshot_fetch_status m).

Lemma process_archive_id_loop (l : list Z) :
  forall w0 metas0 recs0 s s' w' metas' recs',
    for_each l process_archive_id (w0, metas0, recs0) s = (s', inr (w', metas', recs')) ->
    exists metas_new recs_new,
      metas' = metas0 ++ metas_new
      /\ recs' = recs0 ++ recs_new
      /\ AdSnapshotMetadataRecord.archive_id <$> metas_new = l
      /\ Forall2 metadata_of_attempt metas_new (last_attempts l s)
      /\ Forall (fun r => AdCreativeRecord.archive_id r ∈ l) recs_new
      /\ (NoDup l -> NoDup (unique_constraint_attrs_of <$> recs_new))
      /\ num_snapshots_fetch_failed (self s')
         = num_snapshots_fetch_failed (self s) + count_unknown metas_new.
Proof.
  induction l as [|a l IH]; intros w0 metas0 recs0 s s' w' metas' recs'; cbn [for_each].
  { intros [= <- <- <- <-]. exists [], []. rewrite !app_nil_r.
    repeat split; auto using NoDup_nil_2; try (by constructor).
    unfold count_unknown. simpl. lia. }
  unfold bind. rewrite process_archive_id_acc.
  destruct (process_archive_id (0, [], []) a s) as [s1 [e|[[w1 metas1] recs1]]] eqn:Hstep;
    [done|].
  assert ((process_archive_id (0, [], []) a s).1 = s1) as Hstate by (by rewrite Hstep).
  apply process_archive_id_spec in Hstep
    as (m & -> & Hid & (t & r & Hr & Ht & Hst) & Hall & Hnd & Hfailed).
  intros (metas_new & recs_new & -> & -> & Hids & Hmetas & Hrecs & Hnd' & Hfailed')%IH.
  exists (m :: metas_new), (recs1 ++ recs_new).
  rewrite <-!app_assoc. split; [done|]. split; [done|].
  split; [by rewrite fmap_cons, Hid, Hids|]. split; [|split; [|split]].
  - cbn [last_attempts]. rewrite Hr, Hstate. by constructor.
  - apply Forall_app. split.
    + eapply Forall_impl; [exact Hall|]. intros x ->. by left.
    + eapply Forall_impl; [exact Hrecs|]. intros x ?. by right.
  - intros [Hnotin Hl]%NoDup_cons. rewrite fmap_app. apply NoDup_app.
    split; [done|]. split; [|auto].
    intros x [r1 [-> Hr1]]%list_elem_of_fmap [r2 [Heq Hr2]]%list_elem_of_fmap.
    apply Hnotin. rewrite Forall_forall in Hall, Hrecs.
    rewrite <-(Hall r1 Hr1), <-unique_constraint_attrs_archive_id, Heq.
    by apply Hrecs.
  - rewrite Hfailed', Hfailed.
    change (m :: metas_new) with ([m] ++ metas_new). rewrite count_unknown_app.
    unfold count_unknown at 2. rewrite filter_cons, filter_nil.
    destruct (decide _) as [->|Hne]; simpl; [lia|].
    destruct (AdSnapshotMetadataRecord.snapshot_fetch_status m); [done|lia..].
Qed.

Lemma process_archive_id_loop_step (l : list Z)
    (acc : Z * list AdSnapshotMetadataRecord.t * list AdCreativeRecord.t) (s : St) :
  step is_upload s (for_each l process_archive_id acc s).1.
Proof.
  apply for_each_state_rel; auto using step_refl, process_archive_id_step.
  intros. by eapply step_trans.
Qed.

(** The constraint tuples of the creatives that the extractor finds for
    an archive id in the state [s], as the loop body computes them after the
    screenshot is stored; none when the fetch fails or finds no creative. *)
Definition archive_id_unique_constraint_attrs (archive_id : Z) (s : St)
  : list AdCreativeRecordUniqueConstraintAttributes :=
  match retrieve_ad archive_id s with
  | (s1, inr (Some screenshot_and_creatives, _)) =>
      let s2 :=
        ((if truthy (ScreenshotAndCreatives.screenshot_binary_data screenshot_and_creatives)
          then store_snapshot_screenshot archive_id
                 (default "" (ScreenshotAndCreatives.screenshot_binary_data
                                screenshot_and_creatives))
          else ret tt) s1).1 in
      creatives_unique_constraint_attrs archive_id
        (ScreenshotAndCreatives.creatives screenshot_and_creatives) s2
  | _ => []
  end.

(** The constraint tuples that the archive ids of a chunk yield in the run
    of [process_archive_ids] from the state [s]. *)
Fixpoint chunk_unique_constraint_attrs (archive_ids : list Z) (s : St)
  : list AdCreativeRecordUniqueConstraintAttributes :=
  match archive_ids with
  | [] => []
  | archive_id :: rest =>
      archive_id_unique_constraint_attrs archive_id s
      ++ chunk_unique_constraint_attrs rest (process_archive_id (0, [], []) archive_id s).1
  end.

Lemma process_archive_id_attrs (archive_id : Z) (s s' : St) (w1 : Z)
    (metas1 : list AdSnapshotMetadataRecord.t) (recs1 : list AdCreativeRecord.t) :
  process_archive_id (0, [], []) archive_id s = (s', inr (w1, metas1, recs1)) ->
  forall attrs,
    attrs ∈ unique_constraint_attrs_of <$> recs1
    <-> attrs ∈ archive_id_unique_constraint_attrs archive_id s.
Proof.
  unfold process_archive_id, archive_id_unique_constraint_attrs. unfold bind at 1.
  destruct (retrieve_ad archive_id s) as [s1 [e|[[sc|] m]]]; [done| |].
  2: { unfold ret. by intros [= <- <- <- <-]. }
  unfold bind at 1.
  match goal with |- context [(if ?c then ?a else ?b) s1] =>
    destruct ((if c then a else b) s1) as [s2 [e|[]]] end; [done|]. simpl.
  destruct (ScreenshotAndCreatives.creatives sc) as [|c cs] eqn:Hcs.
  { unfold ret. by intros [= <- <- <- <-]. }
  unfold bind.
  pose proof (process_fetched_ad_creative_data_attrs archive_id sc s2) as Hattrs.
  rewrite Hcs in Hattrs.
  destruct (process_fetched_ad_creative_data archive_id sc s2) as [s3 [e|[recs|]]] eqn:Hdata;
    [done| |].
  - specialize (Hattrs s3 recs eq_refl).
    destruct recs as [|r rs]; unfold ret; intros [= <- <- <- <-]; exact Hattrs.
  - unfold process_fetched_ad_creative_data in Hdata. rewrite Hcs in Hdata.
    unfold bind in Hdata.
    by destruct (for_each (c :: cs) (process_creative archive_id) (∅, []) s2)
      as [? [?|[? ?]]].
Qed.

Lemma process_archive_id_loop_attrs (l : list Z) :
  forall w0 metas0 recs0 s s' w' metas' recs',
    for_each l process_archive_id (w0, metas0, recs0) s = (s', inr (w', metas', recs')) ->
    exists recs_new,
      recs' = recs0 ++ recs_new
      /\ forall attrs,
           attrs ∈ unique_constraint_attrs_of <$> recs_new
           <-> attrs ∈ chunk_unique_constraint_attrs l s.
Proof.
  induction l as [|a l IH]; intros w0 metas0 recs0 s s' w' metas' recs'; cbn [for_each].
  { intros [= <- <- <- <-]. exists []. by rewrite app_nil_r. }
  unfold bind. rewrite process_archive_id_acc.
  destruct (process_archive_id (0, [], []) a s) as [s1 [e|[[w1 metas1] recs1]]] eqn:Hstep;
    [done|].
  assert ((process_archive_id (0, [], []) a s).1 = s1) as Hstate by (by rewrite Hstep).
  pose proof (process_archive_id_attrs _ _ _ _ _ _ Hstep) as Hattrs.
  intros (recs_new & -> & Hnew)%IH.
  exists (recs1 ++ recs_new). rewrite <-app_assoc. split; [done|].
  intros attrs. cbn [chunk_unique_constraint_attrs].
  rewrite fmap_app, !elem_of_app, Hstate, Hattrs, Hnew. done.
Qed.

(** A list without two rows of one tuple has exactly one row for each of
    its tuples. *)
Lemma one_row_per_attrs (records : list AdCreativeRecord.t)
    (attrs : AdCreativeRecordUniqueConstraintAttributes) :
  NoDup (unique_constraint_attrs_of <$> records) ->
  attrs ∈ unique_constraint_attrs_of <$> records ->
  length (filter (fun r => unique_constraint_attrs_of r = attrs) records) = 1%nat.
Proof.
  induction records as [|r records IH]; [by intros _ ?%elem_of_nil|].
  rewrite fmap_cons. intros [Hnotin Hnd]%NoDup_cons Hin.
  rewrite filter_cons. destruct (decide (unique_constraint_attrs_of r = attrs)) as [Heq|Hne].
  - simpl. f_equal.
    destruct (filter (fun r0 => unique_constraint_attrs_of r0 = attrs) records)
      as [|r' rest] eqn:Hfilter; [done|]. exfalso.
    assert (r' ∈ filter (fun r0 => unique_constraint_attrs_of r0 = attrs) records) as Hr'
      by (rewrite Hfilter; left).
    apply list_elem_of_filter in Hr' as [Hr'attrs Hr']. apply Hnotin.
    rewrite Heq, <-Hr'attrs. apply list_elem_of_fmap. by exists r'.
  - apply IH; [done|]. apply elem_of_cons in Hin as [Hin|Hin]; [congruence|done].
Qed.

(** C3, amended.  When [process_archive_ids] gets through a chunk, the
    metadata list it hands to the store has exactly one record per archive id
    of the chunk, in order, whether the fetch failed or not.  The record of an
    archive id carries the fetch time and the status of what the extractor
    did for that id on its last attempt in this run: the status is [UNKNOWN]
    (0) exactly when that attempt raised [requests.RequestException], and a
    terminal status, not zero, after every other outcome;
    [num_snapshots_fetch_failed] grows by the number of [UNKNOWN] records. *)
Theorem process_archive_ids_metadata (archive_ids : list Z) (s s' : St) :
  process_archive_ids archive_ids s = (s', inr tt) ->
  exists uploads records metadata,
    trace (world s')
    = trace (world s) ++ uploads
      ++ [EvInsertAdCreativeRecords records; EvUpdateAdSnapshotMetadata metadata]
    /\ Forall is_upload uploads
    /\ AdSnapshotMetadataRecord.archive_id <$> metadata = archive_ids
    /\ Forall2
         (fun m attempt =>
            AdSnapshotMetadataRecord.snapshot_fetch_time m = attempt.1
            /\ snapshot_fetch_status_of attempt.2
               = Some (AdSnapshotMetadataRecord.snapshot_fetch_status m)
            /\ (AdSnapshotMetadataRecord.snapshot_fetch_status m = UNKNOWN
                <-> attempt.2 = inl RequestException)
            /\ (attempt.2 <> inl RequestException ->
                status_value (AdSnapshotMetadataRecord.snapshot_fetch_status m) <> 0))
         metadata (last_attempts archive_ids s)
    /\ num_snapshots_fetch_failed (self s')
       = num_snapshots_fetch_failed (self s) + count_unknown metadata.
Proof.
  unfold process_archive_ids. unfold bind at 1.
  pose proof (process_archive_id_loop_step archive_ids (0, [], []) s) as [_ (ups & Hups & Fups)].
  destruct (for_each archive_ids process_archive_id (0, [], []) s)
    as [s1 [e|[[w metas] recs]]] eqn:Hloop; [done|].
  apply process_archive_id_loop in Hloop
    as (metas_new & recs_new & -> & -> & Hids & Hmetas & _ & _ & Hfailed).
  simpl in *. unfold insert_ad_creative_records, update_ad_snapshot_metadata.
  munfold. simpl. intros [= <-]. simpl.
  exists ups, recs_new, metas_new. rewrite Hups, <-!app_assoc. simpl.
  split; [done|]. split; [done|]. split; [done|]. split; [|done].
  eapply Forall2_impl; [exact Hmetas|].
  intros m [t r] [Ht Hst]. simpl in *.
  assert (AdSnapshotMetadataRecord.snapshot_fetch_status m = UNKNOWN
          <-> r = inl RequestException) as Hunknown.
  { rewrite <-snapshot_fetch_status_unknown, Hst. split; congruence. }
  split; [done|]. split; [done|]. split; [done|].
  intros Hr. destruct (AdSnapshotMetadataRecord.snapshot_fetch_status m); try done.
  by destruct Hr; apply Hunknown.
Qed.

(** What a chunk adds to the trace, however it ends. *)
Lemma process_archive_ids_inserted (archive_ids : list Z) (s : St) :
  config_kept (self s) (self (process_archive_ids archive_ids s).1)
  /\ exists new,
       trace (world (process_archive_ids archive_ids s).1) = trace (world s) ++ new
       /\ Forall is_chunk_event new
       /\ Forall (fun r => AdCreativeRecord.archive_id r ∈ archive_ids) (inserted_records new)
       /\ (NoDup archive_ids -> NoDup (unique_constraint_attrs_of <$> inserted_records new)).
Proof.
  destruct (process_archive_ids archive_ids s) as [s' res] eqn:E. simpl.
  unfold process_archive_ids in E. unfold bind at 1 in E.
  pose proof (process_archive_id_loop_step archive_ids (0, [], []) s)
    as [Hcfg (ups & Hups & Fups)].
  destruct (for_each archive_ids process_archive_id (0, [], []) s)
    as [s1 [e|[[w metas] recs]]] eqn:Hloop; simpl in *.
  { injection E as <- <-. split; [done|]. exists ups.
    rewrite inserted_records_uploads by done.
    repeat split; auto using NoDup_nil_2.
    eapply Forall_impl; [exact Fups|]. by intros []. }
  apply process_archive_id_loop in Hloop
    as (metas_new & recs_new & -> & -> & _ & _ & Hrecs & Hnd & _).
  unfold insert_ad_creative_records, update_ad_snapshot_metadata in E. munfold.
  simpl in E. injection E as <- <-. simpl.
  split. { unfold config_kept in *. destruct_and!. by repeat split. }
  exists (ups ++ [EvInsertAdCreativeRecords recs_new; EvUpdateAdSnapshotMetadata metas_new]).
  rewrite Hups, <-!app_assoc, inserted_records_app, inserted_records_uploads by done.
  simpl. unfold inserted_records. simpl. rewrite app_nil_r.
  repeat split; auto.
  apply Forall_app. split; [|by repeat constructor].
  eapply Forall_impl; [exact Fups|]. by intros [].
Qed.

Lemma process_archive_ids_step (archive_ids : list Z) (s : St) :
  step is_chunk_event s (process_archive_ids archive_ids s).1.
Proof.
  destruct (process_archive_ids_inserted archive_ids s) as [Hcfg (new & Ht & Hnew & _)].
  split; [done|]. by exists new.
Qed.

(** The chunks of a list, put end to end, are the list. *)
Lemma chunks_from_concat (fuel : nat) (l : list Z) (n : nat) :
  (0 < n)%nat -> (length l <= fuel)%nat -> mjoin (chunks_from fuel l n) = l.
Proof.
  intros Hn. revert l. induction fuel as [|fuel IH]; intros l Hlen.
  { destruct l; [done|simpl in Hlen; lia]. }
  destruct l as [|x l]; [done|]. cbn [chunks_from].
  change (mjoin (?a :: ?b)) with (a ++ mjoin b).
  rewrite IH, take_drop; [done|].
  rewrite length_drop. simpl in *. lia.
Qed.

(** The chunk loop: the records it hands to the store carry archive ids of
    the chunks, and no two share their constraint tuple when no archive id
    occurs twice. *)
Lemma process_chunk_loop_inserted (archive_id_chunks : list (list Z)) (s : St) :
  let s' := (for_each archive_id_chunks
               (fun (_ : unit) archive_id_chunk => process_archive_ids archive_id_chunk)
               tt s).1 in
  config_kept (self s) (self s')
  /\ exists new,
       trace (world s') = trace (world s) ++ new
       /\ Forall is_chunk_event new
       /\ Forall (fun r => AdCreativeRecord.archive_id r ∈ mjoin archive_id_chunks)
                 (inserted_records new)
       /\ (NoDup (mjoin archive_id_chunks)
           -> NoDup (unique_constraint_attrs_of <$> inserted_records new)).
Proof.
  revert s. induction archive_id_chunks as [|c cs IH]; intros s; cbn [for_each].
  { simpl. split; [by repeat split|]. exists []. rewrite app_nil_r.
    repeat split; auto using NoDup_nil_2. }
  unfold bind.
  destruct (process_archive_ids_inserted c s) as [Hcfg (new & Ht & Hev & Hids & Hnd)].
  destruct (process_archive_ids c s) as [s1 [e|[]]]; simpl in *.
  { split; [done|]. exists new. repeat split; auto.
    - eapply Forall_impl; [exact Hids|]. intros r Hr. apply elem_of_app. by left.
    - intros [? _]%NoDup_app. auto. }
  specialize (IH s1) as [Hcfg' (new' & Ht' & Hev' & Hids' & Hnd')].
  split. { unfold config_kept in *. destruct_and!. repeat split; congruence. }
  exists (new ++ new'). rewrite Ht', Ht, <-app_assoc, inserted_records_app.
  split; [done|]. split; [by apply Forall_app|]. split.
  - apply Forall_app. split.
    + eapply Forall_impl; [exact Hids|]. intros r Hr. apply elem_of_app. by left.
    + eapply Forall_impl; [exact Hids'|]. intros r Hr. apply elem_of_app. by right.
  - intros (Hc & Hdisj & Hcs)%NoDup_app. rewrite fmap_app. apply NoDup_app.
    split; [auto|]. split; [|auto].
    intros x [r1 [-> Hr1]]%list_elem_of_fmap [r2 [Heq Hr2]]%list_elem_of_fmap.
    rewrite Forall_forall in Hids, Hids'.
    apply (Hdisj (AdCreativeRecord.archive_id r1)); [by apply Hids|].
    rewrite <-unique_constraint_attrs_archive_id, Heq. by apply Hids'.
Qed.

(** C5. For a batch whose archive ids are pairwise distinct, the creative
    records the pipeline hands to the store while it works through the chunks
    of the batch, taken together and however the processing ends, contain no
    two records with the same tuple (archive_id, text_sha256, image_sha256,
    video_sha256), [None] being a value like any other.  And for every chunk
    of distinct archive ids that is processed to the end, the rows handed to
    the store are those of the constraint tuples that the creatives of the
    chunk yield, one row for each: a tuple that a creative yields has exactly
    one row, however many creatives yield it, and no row has another tuple.
    So two archive ids whose creatives have the same three hashes get a row
    each, their tuples differing in the archive id, and two creatives of one
    archive id with the same tuple get one row between them. *)
Theorem emitted_creative_records_unique (archive_id_batch : list Z) (s : St) :
  NoDup archive_id_batch ->
  (exists new,
      trace (world (process_chunks archive_id_batch s).1) = trace (world s) ++ new
      /\ NoDup (unique_constraint_attrs_of <$> inserted_records new)
      /\ Forall (fun r => AdCreativeRecord.archive_id r ∈ archive_id_batch)
                (inserted_records new))
  /\ (forall (archive_id_chunk : list Z) (s0 s' : St),
        NoDup archive_id_chunk ->
        process_archive_ids archive_id_chunk s0 = (s', inr tt) ->
        exists uploads records metadata,
          trace (world s')
          = trace (world s0) ++ uploads
            ++ [EvInsertAdCreativeRecords records; EvUpdateAdSnapshotMetadata metadata]
          /\ Forall is_upload uploads
          /\ NoDup (unique_constraint_attrs_of <$> records)
          /\ (forall attrs,
                attrs ∈ unique_constraint_attrs_of <$> records
                <-> attrs ∈ chunk_unique_constraint_attrs archive_id_chunk s0)
          /\ (forall attrs,
                attrs ∈ chunk_unique_constraint_attrs archive_id_chunk s0 ->
                length (filter (fun r => unique_constraint_attrs_of r = attrs) records)
                = 1%nat)).
Proof.
  intros Hnd. split.
  - unfold process_chunks. munfold. simpl.
    unfold chunks.
    destruct (decide (commit_to_db_every_n_processed (self s) = 0)).
    { exists []. rewrite app_nil_r. repeat split; auto using NoDup_nil_2. }
    destruct (decide (commit_to_db_every_n_processed (self s) < 0)).
    { exists []. rewrite app_nil_r. repeat split; auto using NoDup_nil_2. }
    match goal with |- context [for_each ?cs _ tt s] =>
      destruct (process_chunk_loop_inserted cs s) as [_ (new & Ht & _ & Hids & Hnd')];
      assert (mjoin cs = archive_id_batch) as Hjoin
        by (apply chunks_from_concat; lia) end.
    rewrite Hjoin in Hids, Hnd'. exists new. auto.
  - intros archive_id_chunk s0 s' Hchunk. clear Hnd.
    unfold process_archive_ids. unfold bind at 1.
    pose proof (process_archive_id_loop_step archive_id_chunk (0, [], []) s0)
      as [_ (ups & Hups & Fups)].
    destruct (for_each archive_id_chunk process_archive_id (0, [], []) s0)
      as [s1 [e|[[w metas] recs]]] eqn:Hloop; [done|].
    pose proof (process_archive_id_loop_attrs _ _ _ _ _ _ _ _ _ Hloop)
      as (recs_new' & Hrecs' & Hattrs).
    apply process_archive_id_loop in Hloop
      as (metas_new & recs_new & -> & -> & _ & _ & _ & Hnd & _).
    simpl in Hrecs'. subst recs_new'.
    simpl in *. unfold insert_ad_creative_records, update_ad_snapshot_metadata.
    munfold. simpl. intros [= <-]. simpl.
    exists ups, recs_new, metas_new. rewrite Hups, <-!app_assoc. simpl.
    split; [done|]. split; [done|]. split; [auto|]. split; [done|].
    intros attrs Hin. apply one_row_per_attrs; [auto|]. by apply Hattrs.
Qed.

(** *** The lease loop *)

Lemma process_chunks_step (archive_id_batch : list Z) (s : St) :
  step is_chunk_event s (process_chunks archive_id_batch s).1.
Proof.
  unfold process_chunks. munfold. simpl.
  destruct (chunks archive_id_batch _) as [e|cs]; [apply step_refl|].
  destruct (process_chunk_loop_inserted cs s) as [Hcfg (new & Ht & Hev & _)].
  split; [done|]. by exists new.
Qed.

Definition is_sleep (ev : Event) : Prop :=
  match ev with
  | EvSleep _ => True
  | _ => False
  end.

Lemma get_archive_id_batch_or_wait_until_available_frame (fuel : nat) :
  forall (s s1 : St) batch,
    get_archive_id_batch_or_wait_until_available fuel s = Some (s1, batch) ->
    self s1 = self s /\ trace_extends is_sleep s s1.
Proof.
  induction fuel as [|fuel IH]; intros s s1 batch; simpl; [done|].
  destruct (get_archive_id_batch_to_fetch (ext (world s))) as [e' [b|]].
  - intros [= <- <-]. split; [done|]. by apply trace_extends_same.
  - intros [Hself Ht]%IH. simpl in *. split; [done|].
    eapply trace_extends_trans; [|exact Ht].
    eexists. split; [reflexivity|]. by apply Forall_singleton.
Qed.

(** The text of the alert as it is sent. *)
Definition slack_text (user : option string) (msg : string) : string :=
  if truthy user then ("<@" ++ default "" user ++ "> " ++ msg)%string else msg.

(** A turn of the lease loop whose chunks end in a rate-limit signal: the
    batch is released and the alert sent; then [time.sleep] either raises,
    for a negative interval, and the exception leaves the loop, or the turn
    sleeps and ends normally. *)
Lemma lease_loop_iteration_rate_limit (fuel : nat) (n : Z) (s s1 s2 : St)
    (batch : Batch.t) (error : Exn) :
  get_archive_id_batch_or_wait_until_available fuel s = Some (s1, batch) ->
  process_chunks (Batch.archive_ids batch)
    (on_self (set_current_batch_id (fun _ => Some (Batch.batch_id batch))) s1).1
  = (s2, inl error) ->
  is_rate_limit_error error = true ->
  let alerted :=
    trace (world s2)
    ++ [EvReleaseUncompletedFetchBatch (Some (Batch.batch_id batch));
        EvSlack (slack_url (self s))
                (slack_text (slack_user_id_to_include (self s))
                   (rate_limit_slack_msg error (suggested_sleep_time error)))] in
  lease_loop_iteration fuel n s
  = Some (if suggested_sleep_time error <? 0
          then (mkSt (self s2) (mkWorld (ext (world s2)) (objects (world s2)) alerted),
                inl ValueError)
          else (mkSt (self s2)
                  (mkWorld (ext (world s2)) (objects (world s2))
                     (alerted ++ [EvSleep (suggested_sleep_time error)])),
                inr n)).
Proof.
  intros Hget Hchunks Hrate alerted.
  pose proof (get_archive_id_batch_or_wait_until_available_frame _ _ _ _ Hget)
    as [Hself _].
  pose proof (process_chunks_step (Batch.archive_ids batch)
    (on_self (set_current_batch_id (fun _ => Some (Batch.batch_id batch))) s1).1)
    as [Hcfg _].
  rewrite Hchunks in Hcfg. simpl in Hcfg.
  destruct Hcfg as (_ & Hbatch & _ & Hurl & Huser). simpl in Hbatch, Hurl, Huser.
  rewrite Hself in Hurl, Huser.
  unfold lease_loop_iteration. rewrite Hget. f_equal.
  unfold try_except, process_batch. unfold bind at 1.
  unfold process_batch_chunks, try_except. unfold bind at 1.
  destruct (on_self (set_current_batch_id (fun _ => Some (Batch.batch_id batch))) s1)
    as [s1' [e|[]]] eqn:Hset; [done|].
  simpl in Hchunks. rewrite Hchunks.
  unfold release_uncompleted_fetch_batch. unfold emit, bind, gets, modify, raise. simpl.
  unfold rate_limit_handler. rewrite Hrate.
  unfold send_slack_message, time_sleep, emit, bind, gets, modify, raise, ret. simpl.
  rewrite Hbatch, Hurl, Huser. unfold alerted, slack_text.
  destruct (suggested_sleep_time error <? 0); simpl; by rewrite <-!app_assoc.
Qed.

(** C4. A rate-limit signal of the extractor ([TooManyRequestsError] or
    [EndBatchCrawlerException]) leaves [retrieve_ad], and with it
    [process_archive_ids], as the exception it is.  When the chunks of the
    leased batch end in such an exception whose interval is not negative,
    the turn of the lease loop releases the batch, publishes the alert and
    sleeps the interval the error suggests, four hours when it carries none;
    the batch is not marked completed in that turn; and the turn ends
    normally, so the loop goes on to lease again. *)
Theorem rate_limit_releases_and_sleeps (fuel : nat) (n : Z) (s s1 s2 : St)
    (batch : Batch.t) (error : Exn) :
  get_archive_id_batch_or_wait_until_available fuel s = Some (s1, batch) ->
  process_chunks (Batch.archive_ids batch)
    (on_self (set_current_batch_id (fun _ => Some (Batch.batch_id batch))) s1).1
  = (s2, inl error) ->
  is_rate_limit_error error = true ->
  0 <= suggested_sleep_time error ->
  (forall archive_id s0 fetch_time acc,
      (retrieve_with_browser_retry archive_id s0).2 = inr (fetch_time, inl error) ->
      (retrieve_ad archive_id s0).2 = inl error
      /\ (process_archive_id acc archive_id s0).2 = inl error)
  /\ exists s3,
       lease_loop_iteration fuel n s = Some (s3, inr n)
       /\ trace (world s3)
          = trace (world s2)
            ++ [EvReleaseUncompletedFetchBatch (Some (Batch.batch_id batch));
                EvSlack (slack_url (self s))
                        (slack_text (slack_user_id_to_include (self s))
                           (rate_limit_slack_msg error (suggested_sleep_time error)));
                EvSleep (suggested_sleep_time error)]
       /\ suggested_sleep_time error
          = match error with
            | TooManyRequestsError (Some w) | EndBatchCrawlerException (Some w) => w
            | _ => 14400
            end
       /\ (forall batch_id,
             EvMarkFetchBatchCompleted batch_id
             ∉ (drop (length (trace (world s))) (trace (world s3))))
       /\ (forall iterations,
             lease_loop fuel (S iterations) n s = lease_loop fuel iterations n s3).
Proof.
  intros Hget Hchunks Hrate Hnonneg. split.
  { intros archive_id s0 t acc Hr.
    assert ((retrieve_ad archive_id s0).2 = inl error) as Hfetch.
    { destruct (retrieve_ad_spec archive_id s0) as (t' & r & Hr' & _ & _ & Hres).
      rewrite Hr in Hr'. injection Hr' as <- <-.
      destruct error; try done; simpl in Hres; by destruct Hres as (? & [= <-] & ->). }
    split; [done|]. destruct acc as [[w metas] recs].
    unfold process_archive_id. unfold bind at 1.
    destruct (retrieve_ad archive_id s0) as [s1' res]. simpl in Hfetch. by subst res. }
  pose proof (get_archive_id_batch_or_wait_until_available_frame _ _ _ _ Hget)
    as [Hself (sleeps & Hsleeps & Fsleeps)].
  pose proof (process_chunks_step (Batch.archive_ids batch)
    (on_self (set_current_batch_id (fun _ => Some (Batch.batch_id batch))) s1).1)
    as [_ (new & Hnew & Fnew)].
  rewrite Hchunks in Hnew. simpl in Hnew.
  pose proof (lease_loop_iteration_rate_limit fuel n s s1 s2 batch error Hget Hchunks Hrate)
    as Hiter.
  cbv zeta in Hiter.
  assert ((suggested_sleep_time error <? 0) = false) as Hsleep by (apply Z.ltb_ge; lia).
  rewrite Hsleep in Hiter.
  eexists. split; [exact Hiter|]. simpl.
  split; [by rewrite <-!app_assoc|].
  split; [by destruct error as [| | | | | | | | | |[]|[]| | | | | |]|].
  split.
  - intros batch_id. rewrite Hnew. simpl. rewrite Hsleeps, <-!app_assoc.
    rewrite drop_app_length.
    rewrite Forall_forall in Fsleeps, Fnew. intros Hin.
    repeat (rewrite elem_of_app in Hin || rewrite elem_of_cons in Hin).
    destruct_or!; try done;
      try (by apply Fsleeps in Hin); try (by apply Fnew in Hin);
      try (by apply elem_of_nil in Hin).
  - intros iterations. cbn [lease_loop]. by rewrite Hiter.
Qed.

(** A negative interval: the batch is released and the alert sent, then
    [time.sleep] raises [ValueError] inside the [except] clause; nothing is
    slept and the exception ends the lease loop. *)
Lemma rate_limit_negative_interval_raises (fuel : nat) (n : Z) (s s1 s2 : St)
    (batch : Batch.t) (error : Exn) :
  get_archive_id_batch_or_wait_until_available fuel s = Some (s1, batch) ->
  process_chunks (Batch.archive_ids batch)
    (on_self (set_current_batch_id (fun _ => Some (Batch.batch_id batch))) s1).1
  = (s2, inl error) ->
  is_rate_limit_error error = true ->
  suggested_sleep_time error < 0 ->
  exists s3,
    lease_loop_iteration fuel n s = Some (s3, inl ValueError)
    /\ trace (world s3)
       = trace (world s2)
         ++ [EvReleaseUncompletedFetchBatch (Some (Batch.batch_id batch));
             EvSlack (slack_url (self s))
                     (slack_text (slack_user_id_to_include (self s))
                        (rate_limit_slack_msg error (suggested_sleep_time error)))]
    /\ forall iterations,
         lease_loop fuel (S iterations) n s = Some (s3, inl ValueError).
Proof.
  intros Hget Hchunks Hrate Hneg.
  pose proof (lease_loop_iteration_rate_limit fuel n s s1 s2 batch error Hget Hchunks Hrate)
    as Hiter.
  cbv zeta in Hiter.
  assert ((suggested_sleep_time error <? 0) = true) as Hsleep by (apply Z.ltb_lt; lia).
  rewrite Hsleep in Hiter.
  eexists. split; [exact Hiter|]. split; [done|].
  intros iterations. cbn [lease_loop]. by rewrite Hiter.
Qed.

End RetrieverProperties.
(** ** The pipeline on the example world *)

(** C10 at a response without a content-length header: [None], counters
    as before. *)
Lemma download_video_counters_witness :
  (download_video 103 "http://video/no-length" example_state).2 = inr None
  /\ num_video_download_failure
       (self (download_video 103 "http://video/no-length" example_state).1) = 0
  /\ num_video_download_success
       (self (download_video 103 "http://video/no-length" example_state).1) = 0.
Proof.
  destruct (download_video_counters example_state 103 "http://video/no-length") as [Hframe _].
  destruct (Hframe (Response.mk true ∅ (Some "video-bytes"%string)))
    as (Hr & _ & Hf & Hs); [reflexivity|reflexivity|left; reflexivity|].
  split; [exact Hr|]. split; [exact Hf|exact Hs].
Defined.

(** C9 on the example world: the first of two uploads finds no object,
    uploads and returns the id; the second finds the object, uploads nothing
    and returns [None]. *)
Lemma upload_blob_idempotent_witness :
  let s1 := (upload_blob "facebook_ad_videos" "ab/cd.mp4" "bytes" example_state).1 in
  let s2 := (upload_blob "facebook_ad_videos" "ab/cd.mp4" "bytes" s1).1 in
  (upload_blob "facebook_ad_videos" "ab/cd.mp4" "bytes" example_state).2
  = inr (Some "facebook_ad_videos/ab/cd.mp4"%string)
  /\ trace (world s2) = trace (world s1)
  /\ (upload_blob "facebook_ad_videos" "ab/cd.mp4" "bytes" s1).2 = inr None.
Proof.
  intros s1 s2.
  destruct (upload_blob_idempotent "facebook_ad_videos" "ab/cd.mp4" "bytes" example_state)
    as (_ & _ & Hfirst & _).
  destruct (Hfirst (Some "facebook_ad_videos/ab/cd.mp4"%string)) as (_ & Htrace & Hsecond);
    [by vm_compute|].
  split; [by vm_compute|]. split; [exact Htrace|].
  by vm_compute.
Defined.

(** C6 on the example world: an image and a video whose response
    announces 10 GB. *)
Lemma process_creative_refused_video_witness :
  let creative := example_video_creative "with video" "http://video/huge" in
  let r := (process_creative 103 (∅, []) creative example_state).2 in
  let s' := (process_creative 103 (∅, []) creative example_state).1 in
  (exists record,
      r = inr ({[(103, Some "sha256-of-with video"%string,
                  Some "sha256-of-png-bytes"%string, None)]} ∪ ∅, [record])
      /\ AdCreativeRecord.video_sha256_hash record = None
      /\ AdCreativeRecord.video_bucket_path record = None
      /\ AdCreativeRecord.image_sim_hash record = Some "00ff00ff00ff00ff00ff00ff00ff00ff"%string)
  /\ num_video_download_failure (self s') = 1.
Proof.
  intros creative r s'.
  destruct (process_creative_refused_video example_state
              (process_creative_image creative example_state).1 103 ∅ [] creative
              "http://video/huge"
              (Some "00ff00ff00ff00ff00ff00ff00ff00ff"%string)
              (Some "sha256-of-png-bytes"%string)
              (Some (make_image_hash_file_path "00ff00ff00ff00ff00ff00ff00ff00ff"))
              (Some "http://img/1"%string)
              (Response.mk true {["content-length" := "10000000000"]}
                 (Some "video-bytes"%string)))
    as (Hr & Hsha & Hpath & _ & _ & Himage & Hover & _).
  - reflexivity.
  - discriminate.
  - by vm_compute.
  - reflexivity.
  - reflexivity.
  - right; right. exists "10000000000"%string, 10000000000.
    split; [reflexivity|]. split; [reflexivity|]. by vm_compute.
  - split.
    + eexists. split; [exact Hr|]. split; [exact Hsha|]. split; [exact Hpath|].
      reflexivity.
    + apply Hover. exists "10000000000"%string, 10000000000.
      split; [reflexivity|]. split; [reflexivity|]. by vm_compute.
Defined.

(** C3 as stated fails: the extractor answers archive id 200 with a
    [requests.RequestException]; the chunk is processed to the end and the
    record emitted for 200 carries the status [UNKNOWN], which is 0. *)
Lemma unknown_status_after_request_exception :
  exists s' m,
    process_archive_ids [200] example_state = (s', inr tt)
    /\ last (trace (world s')) = Some (EvUpdateAdSnapshotMetadata [m])
    /\ AdSnapshotMetadataRecord.archive_id m = 200
    /\ AdSnapshotMetadataRecord.snapshot_fetch_status m = UNKNOWN
    /\ status_value (AdSnapshotMetadataRecord.snapshot_fetch_status m) = 0.
Proof.
  eexists _, (AdSnapshotMetadataRecord.mk 200 1604448000 UNKNOWN).
  split; [by vm_compute|]. by vm_compute.
Qed.

(** C3, amended, on a chunk with a successful and a failed fetch: the
    record of 100 is [SUCCESS], the record of 200, where the extractor raised
    [requests.RequestException], is [UNKNOWN]. *)
Lemma process_archive_ids_metadata_witness :
  exists uploads records metadata,
    trace (world (process_archive_ids [100; 200] example_state).1)
    = trace (world example_state) ++ uploads
      ++ [EvInsertAdCreativeRecords records; EvUpdateAdSnapshotMetadata metadata]
    /\ AdSnapshotMetadataRecord.archive_id <$> metadata = [100; 200]
    /\ AdSnapshotMetadataRecord.snapshot_fetch_status <$> metadata = [SUCCESS; UNKNOWN].
Proof.
  destruct (process_archive_ids_metadata [100; 200] example_state
              (process_archive_ids [100; 200] example_state).1)
    as (uploads & records & metadata & Htrace & _ & Hids & Hattempts & _); [by vm_compute|].
  exists uploads, records, metadata. split; [exact Htrace|]. split; [exact Hids|].
  assert (last_attempts [100; 200] example_state
          = [(1604448000, inr (ScreenshotAndCreatives.mk None
                                 [example_text_creative "hello world"]));
             (1604448000, inl RequestException)]) as Hlast by (by vm_compute).
  rewrite Hlast in Hattempts.
  inversion Hattempts as [|m1 a1 ms1 as1 (_ & H1 & _) Hrest]; subst.
  inversion Hrest as [|m2 a2 ms2 as2 (_ & H2 & _) Hnil]; subst.
  inversion Hnil; subst. simpl in H1, H2.
  injection H1 as H1. injection H2 as H2.
  rewrite !fmap_cons, <-H1, <-H2. reflexivity.
Defined.

(** C5 on a batch of three distinct archive ids, processed as one chunk:
    100 and 101 yield the same text and get a row each, 102 yields the same
    creative twice and gets one row. *)
Lemma emitted_creative_records_unique_witness :
  (exists new,
      trace (world (process_chunks [100; 101; 102] example_state).1)
      = trace (world example_state) ++ new
      /\ NoDup (unique_constraint_attrs_of <$> inserted_records new))
  /\ exists uploads records metadata,
       trace (world (process_archive_ids [100; 101; 102] example_state).1)
       = trace (world example_state) ++ uploads
         ++ [EvInsertAdCreativeRecords records; EvUpdateAdSnapshotMetadata metadata]
       /\ length (filter (fun r => unique_constraint_attrs_of r
                                   = (100, Some "sha256-of-hello world"%string, None, None))
                         records) = 1%nat
       /\ length (filter (fun r => unique_constraint_attrs_of r
                                   = (101, Some "sha256-of-hello world"%string, None, None))
                         records) = 1%nat
       /\ length (filter (fun r => unique_constraint_attrs_of r
                                   = (102, Some "sha256-of-twice"%string, None, None))
                         records) = 1%nat.
Proof.
  assert (NoDup [100; 101; 102]) as Hnd by (by apply (bool_decide_unpack _); vm_compute).
  destruct (emitted_creative_records_unique [100; 101; 102] example_state Hnd)
    as [(new & Htrace & Hnew & _) Hchunk].
  split; [exists new; split; [exact Htrace|exact Hnew]|].
  destruct (Hchunk [100; 101; 102] example_state
              (process_archive_ids [100; 101; 102] example_state).1 Hnd)
    as (uploads & records & metadata & Htrace' & _ & _ & _ & Hone); [by vm_compute|].
  exists uploads, records, metadata. split; [exact Htrace'|].
  split; [|split]; apply Hone; vm_compute.
  - left.
  - right; left.
  - right; right; left.
Defined.

(** The two halves of the duplicate scenario, run: both rows for 100 and
    101, one row for 102. *)
Example both_archive_ids_emitted :
  (fun r => (AdCreativeRecord.archive_id r, AdCreativeRecord.text_sha256_hash r))
    <$> inserted_records (trace (world (process_chunks [100; 101; 102] example_state).1))
  = [(100, Some "sha256-of-hello world"%string);
     (101, Some "sha256-of-hello world"%string);
     (102, Some "sha256-of-twice"%string)].
Proof. by vm_compute. Qed.

(** C4 on the example world: the batch [100; 201; 101], where the
    extractor answers 201 with [TooManyRequestsError] and a suggested wait of
    ten seconds. *)
Lemma rate_limit_releases_and_sleeps_witness :
  exists s3,
    lease_loop_iteration 1 0 example_state = Some (s3, inr 0)
    /\ trace (world s3)
       = [EvReleaseUncompletedFetchBatch (Some 2);
          EvSlack "https://hooks.example/alerts" "rate limit";
          EvSleep 10].
Proof.
  destruct (rate_limit_releases_and_sleeps 1 0 example_state example_state
              (process_chunks [100; 201; 101]
                 (on_self (set_current_batch_id (fun _ => Some 2)) example_state).1).1
              (Batch.mk 2 [100; 201; 101]) (TooManyRequestsError (Some 10)))
    as (_ & s3 & Hiter & Htrace & _).
  - by vm_compute.
  - by vm_compute.
  - reflexivity.
  - by vm_compute.
  - exists s3. split; [exact Hiter|]. rewrite Htrace. by vm_compute.
Defined.

(** ** [chunks] *)

Lemma chunks_from_nil_iff (fuel : nat) (l : list Z) (n : nat) :
  (length l <= fuel)%nat -> chunks_from fuel l n = [] -> l = [].
Proof.
  destruct fuel as [|fuel]; destruct l as [|x l]; simpl; try done. lia.
Qed.

Lemma chunks_from_lengths (fuel : nat) (n : nat) :
  (0 < n)%nat ->
  forall l : list Z,
    (length l <= fuel)%nat ->
    Forall (fun c => (0 < length c <= n)%nat) (chunks_from fuel l n)
    /\ forall i c, chunks_from fuel l n !! i = Some c ->
                   (S i < length (chunks_from fuel l n))%nat -> length c = n.
Proof.
  intros Hn. induction fuel as [|fuel IH]; intros l Hlen.
  { simpl. split; [constructor|]. by intros i c ?. }
  destruct l as [|x l]; cbn [chunks_from].
  { split; [constructor|]. by intros i c ?. }
  assert (length (drop n (x :: l)) <= fuel)%nat as Hdrop.
  { rewrite length_drop. simpl in *. lia. }
  destruct (IH _ Hdrop) as [Hall Hfull]. split.
  - constructor; [|done]. rewrite length_take. simpl. lia.
  - intros [|i] c; simpl.
    + intros [= <-] Hmore. rewrite length_take.
      destruct (chunks_from fuel (drop n (x :: l)) n) as [|c1 cs] eqn:Hrest;
        [simpl in Hmore; lia|].
      assert (drop n (x :: l) <> []) as Hne.
      { intros Hnil. rewrite Hnil in Hrest. by destruct fuel. }
      assert (n < length (x :: l))%nat; [|lia].
      destruct (decide (n < length (x :: l))%nat) as [|Hge]; [done|].
      destruct Hne. apply drop_ge. lia.
    + intros Hc Hmore. apply (Hfull i c Hc). lia.
Qed.

(** X5. [chunks] cuts a list into consecutive chunks: for a positive chunk
    size the chunks put end to end are the list, no chunk is empty or longer
    than the chunk size, and every chunk but the last has exactly the chunk
    size.  A chunk size of zero is a [ValueError] of [range]; a negative one
    gives no chunk at all, so that nothing of the list is processed. *)
Theorem chunks_spec (original_list : list Z) (chunk_size : Z) :
  (chunk_size = 0 -> chunks original_list chunk_size = inl ValueError)
  /\ (chunk_size < 0 -> chunks original_list chunk_size = inr [])
  /\ (0 < chunk_size ->
      exists cs,
        chunks original_list chunk_size = inr cs
        /\ mjoin cs = original_list
        /\ Forall (fun c => (0 < length c)%nat /\ Z.of_nat (length c) <= chunk_size) cs
        /\ forall i c, cs !! i = Some c -> (S i < length cs)%nat ->
                       Z.of_nat (length c) = chunk_size).
Proof.
  unfold chunks. split; [|split].
  - intros ->. done.
  - intros Hneg. destruct (decide (chunk_size = 0)); [lia|].
    destruct (decide (chunk_size < 0)); [done|lia].
  - intros Hpos. destruct (decide (chunk_size = 0)); [lia|].
    destruct (decide (chunk_size < 0)); [lia|].
    eexists. split; [done|].
    assert (0 < Z.to_nat chunk_size)%nat as Hn by lia.
    destruct (chunks_from_lengths (length original_list) (Z.to_nat chunk_size) Hn
                original_list (le_n _)) as [Hall Hfull].
    split; [by apply chunks_from_concat|]. split.
    + eapply Forall_impl; [exact Hall|]. intros c Hc. simpl in Hc. lia.
    + intros i c Hc Hmore. rewrite (Hfull i c Hc Hmore). lia.
Qed.

Lemma chunks_spec_witness :
  exists cs,
    chunks [1; 2; 3; 4; 5] 2 = inr cs
    /\ mjoin cs = [1; 2; 3; 4; 5]
    /\ cs = [[1; 2]; [3; 4]; [5]].
Proof.
  destruct (proj2 (proj2 (chunks_spec [1; 2; 3; 4; 5] 2))) as (cs & Hcs & Hjoin & _); [lia|].
  exists cs. split; [exact Hcs|]. split; [exact Hjoin|].
  vm_compute in Hcs. by injection Hcs as <-.
Defined.

Section RetrieverMore.
Context `{Externals}.

(** X6. A chunk reaches the store whole or not at all.  When
    [process_archive_ids] raises, which it does when the extractor raises an
    exception that [retrieve_ad] does not handle or when an upload gives up,
    nothing of the chunk is handed to the database: the trace has grown by
    blob uploads only, without any creative or metadata records, also for
    the archive ids of the chunk that were fetched before the exception. *)
Theorem process_archive_ids_raises_writes_nothing (archive_ids : list Z) (s : St) (e : Exn) :
  (process_archive_ids archive_ids s).2 = inl e ->
  exists uploads,
    trace (world (process_archive_ids archive_ids s).1) = trace (world s) ++ uploads
    /\ Forall is_upload uploads
    /\ inserted_records uploads = []
    /\ (forall records, EvInsertAdCreativeRecords records ∉ uploads)
    /\ (forall records, EvUpdateAdSnapshotMetadata records ∉ uploads).
Proof.
  destruct (process_archive_ids archive_ids s) as [s' res] eqn:E. simpl. intros ->.
  unfold process_archive_ids in E. unfold bind at 1 in E.
  pose proof (process_archive_id_loop_step archive_ids (0, [], []) s)
    as [_ (ups & Hups & Fups)].
  destruct (for_each archive_ids process_archive_id (0, [], []) s)
    as [s1 [e'|[[w metas] recs]]]; simpl in *.
  - injection E as <- <-. exists ups. split; [done|]. split; [done|].
    split; [by apply inserted_records_uploads|].
    rewrite Forall_forall in Fups. split; intros records Hin; by apply Fups in Hin.
  - unfold insert_ad_creative_records, update_ad_snapshot_metadata, on_self, emit in E.
    unfold bind, modify in E. simpl in E. done.
Qed.

End RetrieverMore.

Lemma process_archive_ids_raises_writes_nothing_witness :
  exists uploads,
    trace (world (process_archive_ids [103; 201; 101] example_state).1)
    = trace (world example_state) ++ uploads
    /\ Forall is_upload uploads
    /\ uploads <> [].
Proof.
  destruct (process_archive_ids_raises_writes_nothing [103; 201; 101] example_state
              (TooManyRequestsError (Some 10)))
    as (uploads & Htrace & Hups & _); [by vm_compute|].
  exists uploads. split; [exact Htrace|]. split; [exact Hups|].
  intros ->. by vm_compute in Htrace.
Defined.

(** ** Union-find *)

Lemma root_of_det (parent : gmap Z Z) (x r1 r2 : Z) :
  root_of parent x r1 -> root_of parent x r2 -> r1 = r2.
Proof.
  intros H1. revert r2. induction H1 as [x Hx|x p r Hp Hne _ IH]; intros r2 H2.
  - destruct H2 as [y Hy|y p' r' Hp' Hne' _]; [done|congruence].
  - destruct H2 as [y Hy|y p' r' Hp' Hne' H2]; [congruence|].
    apply IH. congruence.
Qed.

Lemma root_of_is_root (parent : gmap Z Z) (x r : Z) :
  root_of parent x r -> parent !! r = Some r.
Proof. induction 1; auto. Qed.

Lemma root_of_dom (parent : gmap Z Z) (x r : Z) :
  root_of parent x r -> is_Some (parent !! x).
Proof. destruct 1; eauto. Qed.

Lemma root_of_root (parent : gmap Z Z) (x r : Z) :
  root_of parent x r -> root_of parent r r.
Proof. intros Hr. apply root_of_self. by eapply root_of_is_root. Qed.

(** Ranks climb along the links, so a root has the top rank of its tree. *)
Lemma root_of_rank (parent : gmap Z Z) (rk : Z -> nat) (x r : Z) :
  (forall y p, parent !! y = Some p -> p <> y -> (rk y < rk p)%nat) ->
  root_of parent x r -> x <> r -> (rk x < rk r)%nat.
Proof.
  intros Hrk. induction 1 as [x Hx|x p r Hp Hne Hroot IH]; intros Hxr; [done|].
  destruct (decide (p = r)) as [->|Hpr]; [by apply Hrk|].
  specialize (Hrk _ _ Hp Hne). specialize (IH Hpr). lia.
Qed.

(** Re-attaching [x] to its root changes no root. *)
Lemma root_of_compress (parent : gmap Z Z) (x r : Z) :
  root_of parent x r -> r <> x ->
  forall y ry, root_of parent y ry -> root_of (<[x := r]> parent) y ry.
Proof.
  intros Hxr Hrx y ry Hy.
  assert (<[x := r]> parent !! r = Some r) as Hr.
  { rewrite lookup_insert_ne by done. by eapply root_of_is_root. }
  induction Hy as [y Hy|y q ry Hq Hqy Hy IHy].
  - destruct (decide (x = y)) as [<-|Hxy].
    + assert (r = x) by (eapply root_of_det; [exact Hxr|by apply root_of_self]). done.
    + apply root_of_self. by rewrite lookup_insert_ne.
  - destruct (decide (x = y)) as [<-|Hxy].
    + assert (ry = r) as ->.
      { eapply root_of_det; [|exact Hxr]. by eapply root_of_step. }
      eapply root_of_step; [apply lookup_insert_eq|done|by apply root_of_self].
    + eapply root_of_step; [|exact Hqy|exact IHy]. by rewrite lookup_insert_ne.
Qed.

(** What [find_compress] returns and leaves behind. *)
Lemma find_compress_spec (fuel : nat) :
  forall (parent parent' : gmap Z Z) (x root : Z),
    UnionFind.find_compress fuel parent x = Some (root, parent') ->
    root_of parent x root
    /\ (forall y, is_Some (parent' !! y) <-> is_Some (parent !! y))
    /\ (forall y q, parent' !! y = Some q -> parent !! y = Some q \/ root_of parent y q)
    /\ (forall y ry, root_of parent y ry -> root_of parent' y ry).
Proof.
  induction fuel as [|fuel IH]; intros parent parent' x root; simpl; [done|].
  destruct (parent !! x) as [p|] eqn:Hx; [|done].
  destruct (decide (p = x)) as [->|Hne].
  { intros [= <- <-]. split; [by apply root_of_self|]. auto. }
  destruct (UnionFind.find_compress fuel parent p) as [[r parent1]|] eqn:Hrec; [|done].
  intros [= <- <-]. apply IH in Hrec as (Hroot & Hdom & Hlinks & Hroots).
  assert (root_of parent x r) as Hxr by (by eapply root_of_step).
  assert (r <> x) as Hrx.
  { intros ->. apply root_of_is_root in Hroot. congruence. }
  split; [done|]. split; [|split].
  - intros y. destruct (decide (x = y)) as [<-|Hxy].
    + rewrite lookup_insert_eq, Hx. split; eauto.
    + by rewrite lookup_insert_ne.
  - intros y q. destruct (decide (x = y)) as [<-|Hxy].
    + rewrite lookup_insert_eq. intros [= <-]. by right.
    + rewrite lookup_insert_ne by done. apply Hlinks.
  - intros y ry Hy. apply root_of_compress; auto.
Qed.

(** The roots after a compression are the roots before. *)
Lemma root_of_links_back (parent parent' : gmap Z Z) :
  (forall y q, parent' !! y = Some q -> parent !! y = Some q \/ root_of parent y q) ->
  forall y ry, root_of parent' y ry -> root_of parent y ry.
Proof.
  intros Hlinks y ry Hy. induction Hy as [y Hy|y q ry Hq Hqy Hy IHy].
  - destruct (Hlinks _ _ Hy) as [?|?]; [by apply root_of_self|done].
  - destruct (Hlinks _ _ Hq) as [Hq'|Hq']; [by eapply root_of_step|].
    assert (ry = q) as ->; [|done].
    eapply root_of_det; [exact IHy|]. by eapply root_of_root.
Qed.

(** Enough fuel: the elements that outrank [x], and one more. *)
Lemma find_compress_total (rk : Z -> nat) (parent : gmap Z Z) :
  (forall y p, parent !! y = Some p -> is_Some (parent !! p)) ->
  (forall y p, parent !! y = Some p -> p <> y -> (rk y < rk p)%nat) ->
  forall (fuel : nat) (x : Z),
    is_Some (parent !! x) ->
    (size (filter (fun y => (rk x < rk y)%nat) (dom parent)) < fuel)%nat ->
    is_Some (UnionFind.find_compress fuel parent x).
Proof.
  intros Hclosed Hrk. induction fuel as [|fuel IH]; intros x [p Hx] Hfuel; [lia|].
  simpl. rewrite Hx. destruct (decide (p = x)) as [->|Hne]; [eauto|].
  destruct (IH p) as [[r parent1] ->]; eauto.
  specialize (Hrk _ _ Hx Hne).
  assert (filter (fun y => (rk p < rk y)%nat) (dom parent)
          ⊂ filter (fun y => (rk x < rk y)%nat) (dom parent)) as Hsub.
  { split.
    - intros y [Hy ?]%elem_of_filter. apply elem_of_filter. split; [lia|done].
    - intros Hall. assert (p ∈ filter (fun y => (rk p < rk y)%nat) (dom parent)) as Hp.
      { apply Hall, elem_of_filter. split; [done|]. apply elem_of_dom. eauto. }
      apply elem_of_filter in Hp as [? _]. lia. }
  apply subset_size in Hsub. lia.
Qed.

Lemma uf_wf_new : uf_wf UnionFind.new.
Proof.
  split; [|split; [|split]]; simpl.
  - intros x. rewrite lookup_empty. split; [by intros ?%elem_of_nil|by intros [? ?]].
  - apply NoDup_nil_2.
  - intros x p. by rewrite lookup_empty.
  - intros x p. by rewrite lookup_empty.
Qed.

(** [add]: a new element is a root of its own, nothing else changes. *)
Lemma add_spec (uf : UnionFind.t) (x : Z) :
  uf_wf uf ->
  exists uf',
    UnionFind.add x uf = (uf', inr tt)
    /\ uf_wf uf'
    /\ is_Some (UnionFind.par uf' !! x)
    /\ (forall y, is_Some (UnionFind.par uf !! y) -> is_Some (UnionFind.par uf' !! y))
    /\ (forall y ry, root_of (UnionFind.par uf') y ry
                     <-> root_of (UnionFind.par uf) y ry
                         \/ (UnionFind.par uf !! x = None /\ y = x /\ ry = x)).
Proof.
  intros (Helts & Hnd & Hclosed & Hrank).
  unfold UnionFind.add, modify.
  destruct (UnionFind.par uf !! x) as [p|] eqn:Hx.
  { exists uf. split; [done|]. split; [done|]. split; [eauto|]. split; [done|].
    intros y ry. split; [by left|]. by intros [?|(? & _)]. }
  eexists. split; [reflexivity|]. simpl.
  assert (forall y q, UnionFind.par uf !! y = Some q -> y <> x /\ q <> x) as Hfresh.
  { intros y q Hy. split; [congruence|]. intros ->.
    destruct (Hclosed _ _ Hy) as [? ?]. congruence. }
  split; [|split; [|split]].
  - split; [|split; [|split]]; simpl.
    + intros y. rewrite elem_of_app, list_elem_of_singleton, Helts.
      destruct (decide (x = y)) as [<-|Hxy].
      * rewrite lookup_insert_eq. split; eauto.
      * rewrite lookup_insert_ne by done. split; [by intros [?|?]|by left].
    + apply NoDup_app. split; [done|]. split; [|apply NoDup_singleton].
      intros y Hy ->%list_elem_of_singleton. apply Helts in Hy as [? ?]. congruence.
    + intros y q. destruct (decide (x = y)) as [<-|Hxy].
      * rewrite lookup_insert_eq. intros [= <-]. rewrite lookup_insert_eq. eauto.
      * rewrite lookup_insert_ne by done. intros Hy.
        destruct (Hfresh _ _ Hy) as [_ Hq]. rewrite lookup_insert_ne by done. eauto.
    + intros y q. unfold UnionFind.rank_of. simpl.
      destruct (decide (x = y)) as [<-|Hxy].
      * rewrite lookup_insert_eq. by intros [= <-].
      * rewrite lookup_insert_ne by done. intros Hy Hqy.
        destruct (Hfresh _ _ Hy) as [_ Hq]. rewrite !lookup_insert_ne by done.
        by apply Hrank.
  - rewrite lookup_insert_eq. eauto.
  - intros y [q Hy]. destruct (Hfresh _ _ Hy). rewrite lookup_insert_ne by done. eauto.
  - intros y ry. split.
    + induction 1 as [y Hy|y q ry Hq Hqy Hroot IH].
      * destruct (decide (x = y)) as [<-|Hxy]; [by right|].
        left. apply root_of_self. by rewrite lookup_insert_ne in Hy.
      * destruct (decide (x = y)) as [<-|Hxy].
        { rewrite lookup_insert_eq in Hq. congruence. }
        rewrite lookup_insert_ne in Hq by done.
        destruct IH as [IH|(_ & -> & _)]; [left; by eapply root_of_step|].
        by destruct (Hfresh _ _ Hq).
    + intros [Hroot|(_ & -> & ->)].
      * induction Hroot as [y Hy|y q ry Hq Hqy Hroot IH].
        { destruct (Hfresh _ _ Hy). apply root_of_self. by rewrite lookup_insert_ne. }
        destruct (Hfresh _ _ Hq). eapply root_of_step; [|done|done].
        by rewrite lookup_insert_ne.
      * apply root_of_self. apply lookup_insert_eq.
Qed.

(** [find] on an element: its root; the structure keeps its meaning. *)
Lemma find_spec (uf : UnionFind.t) (x : Z) :
  uf_wf uf -> is_Some (UnionFind.par uf !! x) ->
  exists uf' r,
    UnionFind.find x uf = (uf', inr r)
    /\ root_of (UnionFind.par uf) x r
    /\ uf_wf uf'
    /\ UnionFind.elts uf' = UnionFind.elts uf
    /\ UnionFind.rnk uf' = UnionFind.rnk uf
    /\ (forall y ry, root_of (UnionFind.par uf') y ry <-> root_of (UnionFind.par uf) y ry).
Proof.
  intros (Helts & Hnd & Hclosed & Hrank) Hx. unfold UnionFind.find.
  destruct (find_compress_total (UnionFind.rank_of uf) (UnionFind.par uf) Hclosed Hrank
              (size (UnionFind.par uf)) x Hx) as [[r parent'] Hfind].
  { rewrite <-size_dom. apply subset_size. split.
    - intros y [_ ?]%elem_of_filter. done.
    - intros Hall. assert (x ∈ filter (fun y => (UnionFind.rank_of uf x
                                                  < UnionFind.rank_of uf y)%nat)
                                 (dom (UnionFind.par uf))) as Hin.
      { apply Hall. by apply elem_of_dom. }
      apply elem_of_filter in Hin as [? _]. lia. }
  rewrite Hfind. exists (UnionFind.mk (UnionFind.elts uf) parent' (UnionFind.rnk uf)), r.
  apply find_compress_spec in Hfind as (Hroot & Hdom & Hlinks & Hroots).
  split; [done|]. split; [done|]. split; [|split; [done|split; [done|]]].
  - split; [|split; [|split]]; simpl.
    + intros y. by rewrite Helts, Hdom.
    + done.
    + intros y q Hy. apply Hdom. destruct (Hlinks _ _ Hy) as [Hq|Hq]; [eauto|].
      apply root_of_is_root in Hq. eauto.
    + intros y q Hy Hqy. unfold UnionFind.rank_of. simpl.
      destruct (Hlinks _ _ Hy) as [Hq|Hq]; [by apply Hrank|].
      apply (root_of_rank (UnionFind.par uf) (UnionFind.rank_of uf) y q Hrank Hq).
      congruence.
  - intros y ry. simpl. split; [by apply root_of_links_back|by apply Hroots].
Qed.

(** Linking the root [a] under the root [b]: the trees of [a] and [b]
    become one. *)
Lemma root_of_link (parent : gmap Z Z) (a b : Z) :
  parent !! a = Some a -> parent !! b = Some b -> a <> b ->
  forall y r', root_of (<[a := b]> parent) y r'
               <-> exists r, root_of parent y r /\ r' = if decide (r = a) then b else r.
Proof.
  intros Ha Hb Hab y r'. split.
  - induction 1 as [y Hy|y q r' Hq Hqy Hroot IH].
    + destruct (decide (a = y)) as [<-|Hay].
      { rewrite lookup_insert_eq in Hy. congruence. }
      rewrite lookup_insert_ne in Hy by done. exists y.
      split; [by apply root_of_self|]. by rewrite decide_False.
    + destruct IH as (r & Hr & ->). destruct (decide (a = y)) as [<-|Hay].
      * rewrite lookup_insert_eq in Hq. injection Hq as <-.
        assert (r = b) as -> by (eapply root_of_det; [exact Hr|by apply root_of_self]).
        exists a. split; [by apply root_of_self|].
        rewrite (decide_True (P := a = a)) by done. by destruct (decide (b = a)).
      * rewrite lookup_insert_ne in Hq by done. exists r.
        split; [by eapply root_of_step|done].
  - intros (r & Hr & ->). induction Hr as [y Hy|y q r Hq Hqy Hroot IH].
    + destruct (decide (y = a)) as [->|Hya].
      * eapply root_of_step; [apply lookup_insert_eq|done|].
        apply root_of_self. by rewrite lookup_insert_ne.
      * apply root_of_self. by rewrite lookup_insert_ne.
    + eapply root_of_step; [|exact Hqy|exact IH].
      rewrite lookup_insert_ne; [done|]. congruence.
Qed.

Lemma same_set_sym (uf : UnionFind.t) (u v : Z) : same_set uf u v -> same_set uf v u.
Proof. intros (r & ? & ?). by exists r. Qed.

Lemma same_set_trans (uf : UnionFind.t) (u v w : Z) :
  same_set uf u v -> same_set uf v w -> same_set uf u w.
Proof.
  intros (r & Hu & Hv) (r' & Hv' & Hw). exists r. split; [done|].
  by rewrite (root_of_det _ _ _ _ Hv Hv').
Qed.

(** Every element has a root. *)
Lemma root_of_total (uf : UnionFind.t) (x : Z) :
  uf_wf uf -> is_Some (UnionFind.par uf !! x) -> exists r, root_of (UnionFind.par uf) x r.
Proof. intros Hwf Hx. destruct (find_spec uf x Hwf Hx) as (? & r & _ & ? & _). eauto. Qed.

Lemma conn_mono (edges edges' : list (Z * Z)) (u v : Z) :
  edges ⊆ edges' -> conn edges u v -> conn edges' u v.
Proof.
  intros Hsub. induction 1 as [x y Hin|x y _ IH|x y z _ IH1 _ IH2].
  - apply conn_edge. by apply Hsub.
  - by apply conn_sym.
  - by eapply conn_trans.
Qed.

Lemma conn_refl_l (edges : list (Z * Z)) (u v : Z) : conn edges u v -> conn edges u u.
Proof. intros Huv. eapply conn_trans; [exact Huv|by apply conn_sym]. Qed.

(** Adding the edge [(x, y)] to a relation that holds the connections of
    [edges] and relates [x] and [y] to themselves. *)
Lemma conn_extend (P : Z -> Z -> Prop) (edges : list (Z * Z)) (x y : Z) :
  (forall u v, P u v -> P v u) ->
  (forall u v w, P u v -> P v w -> P u w) ->
  (forall u v, P u v <-> conn edges u v \/ (u = x /\ v = x) \/ (u = y /\ v = y)) ->
  forall u v, (P u v \/ (P u x /\ P y v) \/ (P u y /\ P x v))
              <-> conn (edges ++ [(x, y)]) u v.
Proof.
  intros Hsym Htrans HP.
  assert (conn (edges ++ [(x, y)]) x y) as Hxy.
  { apply conn_edge, elem_of_app. right. by apply list_elem_of_singleton. }
  assert (forall u v, P u v -> conn (edges ++ [(x, y)]) u v) as Hsub.
  { intros u v [Huv|[[-> ->]|[-> ->]]]%HP.
    - eapply conn_mono; [|exact Huv]. intros e ?. apply elem_of_app. by left.
    - by eapply conn_refl_l.
    - eapply conn_refl_l. by apply conn_sym. }
  assert (P x x) as Hxx by (apply HP; auto).
  assert (P y y) as Hyy by (apply HP; auto).
  intros u v. split.
  - intros [Huv|[[Hux Hyv]|[Huy Hxv]]]; [by apply Hsub| |].
    + eapply conn_trans; [by apply Hsub|]. eapply conn_trans; [exact Hxy|by apply Hsub].
    + eapply conn_trans; [by apply Hsub|].
      eapply conn_trans; [apply conn_sym, Hxy|by apply Hsub].
  - induction 1 as [a b Hin|a b _ IH|a b c _ IH1 _ IH2].
    + apply elem_of_app in Hin as [Hin|[= -> ->]%list_elem_of_singleton].
      * left. apply HP. left. by apply conn_edge.
      * right. left. done.
    + destruct IH as [?|[[? ?]|[? ?]]]; eauto 6.
    + destruct IH1 as [?|[[? ?]|[? ?]]], IH2 as [?|[[? ?]|[? ?]]]; eauto 8.
Qed.

(** The structure after a root is re-attached under another root. *)
Lemma uf_wf_link (uf : UnionFind.t) (a b : Z) (rnk' : gmap Z nat) :
  uf_wf uf ->
  UnionFind.par uf !! a = Some a -> UnionFind.par uf !! b = Some b -> a <> b ->
  (forall y p, UnionFind.par uf !! y = Some p -> p <> y ->
               (default 0%nat (rnk' !! y) < default 0%nat (rnk' !! p))%nat) ->
  (default 0%nat (rnk' !! a) < default 0%nat (rnk' !! b))%nat ->
  uf_wf (UnionFind.mk (UnionFind.elts uf) (<[a := b]> (UnionFind.par uf)) rnk').
Proof.
  intros (Helts & Hnd & Hclosed & Hrank) Ha Hb Hab Hrk Hrkab.
  split; [|split; [|split]]; simpl.
  - intros y. rewrite Helts. destruct (decide (a = y)) as [<-|Hay].
    + rewrite lookup_insert_eq, Ha. split; eauto.
    + by rewrite lookup_insert_ne.
  - done.
  - intros y q. destruct (decide (a = y)) as [<-|Hay].
    + rewrite lookup_insert_eq. intros [= <-]. rewrite lookup_insert_ne by done. eauto.
    + rewrite lookup_insert_ne by done. intros Hy.
      destruct (decide (a = q)) as [<-|Haq]; [rewrite lookup_insert_eq; eauto|].
      rewrite lookup_insert_ne by done. eauto.
  - intros y q. unfold UnionFind.rank_of. simpl. destruct (decide (a = y)) as [<-|Hay].
    + rewrite lookup_insert_eq. by intros [= <-].
    + rewrite lookup_insert_ne by done. apply Hrk.
Qed.

Lemma link_spec (uf : UnionFind.t) (a b : Z) :
  uf_wf uf ->
  UnionFind.par uf !! a = Some a -> UnionFind.par uf !! b = Some b -> a <> b ->
  exists uf',
    UnionFind.link a b uf = (uf', inr tt)
    /\ uf_wf uf'
    /\ (forall u v, same_set uf' u v
                    <-> exists ru rv,
                          root_of (UnionFind.par uf) u ru /\ root_of (UnionFind.par uf) v rv
                          /\ (ru = rv \/ (ru = a /\ rv = b) \/ (ru = b /\ rv = a))).
Proof.
  intros Hwf Ha Hb Hab.
  assert (forall (c d : Z) (parent : gmap Z Z),
             parent !! c = Some c -> parent !! d = Some d -> c <> d ->
             forall u v,
               (exists r, root_of (<[c := d]> parent) u r /\ root_of (<[c := d]> parent) v r)
               <-> exists ru rv, root_of parent u ru /\ root_of parent v rv
                                 /\ (ru = rv \/ (ru = c /\ rv = d) \/ (ru = d /\ rv = c)))
    as Hmerge.
  { intros c d parent Hc Hd Hcd u v. split.
    - intros (r & (ru & Hu & Hru)%root_of_link & (rv & Hv & Hrv)%root_of_link); try done.
      exists ru, rv. split; [done|]. split; [done|].
      destruct (decide (ru = c)), (decide (rv = c)); subst; auto.
    - intros (ru & rv & Hu & Hv & Hcase).
      exists (if decide (ru = c) then d else ru). split.
      + apply root_of_link; eauto.
      + apply root_of_link; try done. exists rv. split; [done|].
        destruct (decide (ru = c)), (decide (rv = c)); subst; intuition congruence. }
  pose proof Hwf as (Helts & Hnd & Hclosed & Hrank).
  unfold UnionFind.link, modify.
  destruct (UnionFind.rank_of uf a <? UnionFind.rank_of uf b)%nat eqn:Hab_rank.
  { apply Nat.ltb_lt in Hab_rank. eexists. split; [reflexivity|]. split.
    - apply uf_wf_link; auto.
    - intros u v. apply Hmerge; auto. }
  apply Nat.ltb_ge in Hab_rank.
  destruct (UnionFind.rank_of uf b <? UnionFind.rank_of uf a)%nat eqn:Hba_rank.
  { apply Nat.ltb_lt in Hba_rank. eexists. split; [reflexivity|]. split.
    - apply uf_wf_link; auto.
    - intros u v. unfold same_set. simpl. rewrite Hmerge by auto.
      split; intros (ru & rv & ? & ? & ?); exists ru, rv; intuition. }
  apply Nat.ltb_ge in Hba_rank.
  eexists. split; [reflexivity|]. split.
  - apply uf_wf_link; auto.
    + intros y p Hy Hpy. specialize (Hrank _ _ Hy Hpy). unfold UnionFind.rank_of in *.
      assert (y <> a) as Hya by congruence.
      rewrite (lookup_insert_ne _ a y) by done.
      destruct (decide (a = p)) as [<-|Hap].
      * rewrite lookup_insert_eq. simpl. lia.
      * by rewrite lookup_insert_ne.
    + unfold UnionFind.rank_of in *.
      rewrite lookup_insert_eq, lookup_insert_ne by done. simpl. lia.
  - intros u v. unfold same_set. simpl. rewrite Hmerge by auto.
    split; intros (ru & rv & ? & ? & ?); exists ru, rv; intuition.
Qed.

(** [union] keeps the structure in step with the list of edges. *)
Lemma union_spec (uf : UnionFind.t) (edges : list (Z * Z)) (x y : Z) :
  uf_inv uf edges ->
  exists uf', UnionFind.union x y uf = (uf', inr tt) /\ uf_inv uf' (edges ++ [(x, y)]).
Proof.
  intros [Hwf Hconn]. unfold UnionFind.union. unfold bind.
  destruct (add_spec uf x Hwf) as (uf1 & -> & Hwf1 & Hx1 & Hdom1 & Hroots1).
  destruct (add_spec uf1 y Hwf1) as (uf2 & -> & Hwf2 & Hy2 & Hdom2 & Hroots2).
  destruct (find_spec uf2 x Hwf2 (Hdom2 _ Hx1)) as (uf3 & rx & -> & Hrx & Hwf3 & He3 & Hr3 & Hroots3).
  assert (is_Some (UnionFind.par uf3 !! y)) as Hy3.
  { destruct Hwf3 as [He3' _], Hwf2 as [He2' _]. apply He3'. rewrite He3. by apply He2'. }
  destruct (find_spec uf3 y Hwf3 Hy3) as (uf4 & ry & -> & Hry & Hwf4 & He4 & Hr4 & Hroots4).
  assert (forall u r, root_of (UnionFind.par uf4) u r
                      <-> root_of (UnionFind.par uf) u r
                          \/ (UnionFind.par uf !! x = None /\ u = x /\ r = x)
                          \/ (UnionFind.par uf1 !! y = None /\ u = y /\ r = y)) as Hroots.
  { intros u r. rewrite Hroots4, Hroots3, Hroots2, Hroots1. tauto. }
  assert (forall u v, same_set uf4 u v
                      <-> conn edges u v \/ (u = x /\ v = x) \/ (u = y /\ v = y)) as HP.
  { assert (forall w, UnionFind.par uf !! x = None -> ~ root_of (UnionFind.par uf) w x) as HA.
    { intros w Hnone Hw%root_of_is_root. congruence. }
    assert (forall w, UnionFind.par uf1 !! y = None -> ~ root_of (UnionFind.par uf) w y) as HB.
    { intros w Hnone Hw%root_of_is_root. destruct (Hdom1 y) as [? ?]; [eauto|congruence]. }
    intros u v. split.
    - intros (r & Hu%Hroots & Hv%Hroots).
      destruct Hu as [Hu|[(Hnx & Hux & Hrx')|(Hny & Huy & Hry')]];
        destruct Hv as [Hv|[(Hnx2 & Hvx & Hrx2)|(Hny2 & Hvy & Hry2)]]; subst.
      + left. apply Hconn. by exists r.
      + by destruct (HA u).
      + by destruct (HB u).
      + by destruct (HA v).
      + auto.
      + auto.
      + by destruct (HB v).
      + auto.
      + auto.
    - intros [(r & Hu & Hv)%Hconn|[[-> ->]|[-> ->]]].
      + exists r. split; apply Hroots; auto.
      + exists rx. split; by apply Hroots4, Hroots3.
      + exists ry. split; by apply Hroots4. }
  assert (root_of (UnionFind.par uf4) x rx) as Hrx4 by (by apply Hroots4, Hroots3).
  assert (root_of (UnionFind.par uf4) y ry) as Hry4 by (by apply Hroots4).
  destruct (decide (rx = ry)) as [<-|Hne].
  - exists uf4. split; [done|]. split; [done|].
    intros u v. rewrite <-(conn_extend (same_set uf4) edges x y);
      eauto using same_set_sym, same_set_trans.
    split; [by left|].
    assert (same_set uf4 x y) as Hxy by (by exists rx).
    intros [?|[[? ?]|[? ?]]]; eauto using same_set_sym, same_set_trans.
  - destruct (link_spec uf4 rx ry Hwf4) as (uf5 & -> & Hwf5 & Hsame5);
      eauto using root_of_is_root.
    exists uf5. split; [done|]. split; [done|].
    intros u v. rewrite <-(conn_extend (same_set uf4) edges x y);
      eauto using same_set_sym, same_set_trans.
    rewrite Hsame5. split.
    + intros (ru & rv & Hu & Hv & [->|[[-> ->]|[-> ->]]]).
      * left. by exists rv.
      * right. left. split; [by exists rx|by exists ry].
      * right. right. split; [by exists ry|by exists rx].
    + intros [(r & Hu & Hv)|[[(r & Hu & Hx) (r' & Hy & Hv)]|[(r & Hu & Hy) (r' & Hx & Hv)]]].
      * exists r, r. auto.
      * assert (r = rx) as -> by exact (root_of_det _ _ _ _ Hx Hrx4).
        assert (r' = ry) as -> by exact (root_of_det _ _ _ _ Hy Hry4).
        exists rx, ry. split; [done|]. split; [done|]. right. left. done.
      * assert (r = ry) as -> by exact (root_of_det _ _ _ _ Hy Hry4).
        assert (r' = rx) as -> by exact (root_of_det _ _ _ _ Hx Hrx4).
        exists ry, rx. split; [done|]. split; [done|]. right. right. done.
Qed.

Lemma conn_nil (u v : Z) : ~ conn [] u v.
Proof. induction 1 as [x y Hin| |]; [by apply elem_of_nil in Hin|done|done]. Qed.

Lemma uf_inv_new : uf_inv UnionFind.new [].
Proof.
  split; [apply uf_wf_new|]. intros u v. split.
  - intros (r & Hu & _). apply root_of_dom in Hu as [? Hu]. simpl in Hu.
    by rewrite lookup_empty in Hu.
  - by intros ?%conn_nil.
Qed.

(** A run of [union] calls adds its pairs to the edges. *)
Lemma union_loop_spec (pairs : list (Z * Z)) :
  forall (uf : UnionFind.t) (edges : list (Z * Z)),
    uf_inv uf edges ->
    exists uf',
      for_each pairs (fun (_ : unit) archive_id_pair =>
                        UnionFind.union archive_id_pair.1 archive_id_pair.2) tt uf
      = (uf', inr tt)
      /\ uf_inv uf' (edges ++ pairs).
Proof.
  induction pairs as [|[x y] pairs IH]; intros uf edges Hinv; cbn [for_each].
  { exists uf. by rewrite app_nil_r. }
  unfold bind. simpl.
  destruct (union_spec uf edges x y Hinv) as (uf1 & -> & Hinv1).
  destruct (IH uf1 _ Hinv1) as (uf2 & -> & Hinv2).
  exists uf2. split; [done|]. by rewrite <-app_assoc in Hinv2.
Qed.

Lemma union_all_pairs_spec (ids : list Z) (uf : UnionFind.t) (edges : list (Z * Z)) :
  uf_inv uf edges ->
  exists uf', union_all_pairs ids uf = (uf', inr tt)
              /\ uf_inv uf' (edges ++ combinations2 ids).
Proof. apply union_loop_spec. Qed.

(** The loop of [components]: each element with its root. *)
Lemma components_loop_spec (l : list Z) :
  forall (acc : list (Z * Z)) (uf : UnionFind.t),
    uf_wf uf -> (forall x, x ∈ l -> is_Some (UnionFind.par uf !! x)) ->
    exists uf' new,
      for_each l (fun acc x => let* r := UnionFind.find x in ret (acc ++ [(r, x)])) acc uf
      = (uf', inr (acc ++ new))
      /\ new.*2 = l
      /\ Forall (fun p => root_of (UnionFind.par uf) p.2 p.1) new.
Proof.
  induction l as [|x l IH]; intros acc uf Hwf Hdom; cbn [for_each].
  { exists uf, []. by rewrite app_nil_r. }
  unfold bind at 1 2.
  destruct (find_spec uf x Hwf) as (uf1 & r & -> & Hr & Hwf1 & He1 & _ & Hroots1).
  { apply Hdom. by left. }
  unfold ret at 1.
  destruct (IH (acc ++ [(r, x)]) uf1 Hwf1) as (uf2 & new & -> & Hnew & Hall).
  { intros y Hy. destruct Hwf1 as [He1' _], Hwf as [He' _].
    apply He1'. rewrite He1. apply He'. apply Hdom. by right. }
  exists uf2, ((r, x) :: new). rewrite <-app_assoc. split; [done|].
  split; [by rewrite fmap_cons, Hnew|].
  constructor; [done|].
  eapply Forall_impl; [exact Hall|]. intros p Hp. by apply Hroots1.
Qed.

(** The records written for the components of a structure that holds the
    connections of [edges]: two archive ids share a cluster id exactly when
    they are connected, and no archive id has two cluster ids. *)
Lemma components_records_spec (uf : UnionFind.t) (edges : list (Z * Z)) :
  uf_inv uf edges ->
  exists uf' clusters,
    UnionFind.components uf = (uf', inr clusters)
    /\ (forall a b, same_cluster (make_ad_cluster_records clusters) a b <-> conn edges a b)
    /\ (forall a c1 c2,
          AdClusterRecord.mk a c1 ∈ make_ad_cluster_records clusters ->
          AdClusterRecord.mk a c2 ∈ make_ad_cluster_records clusters -> c1 = c2).
Proof.
  intros [Hwf Hconn]. unfold UnionFind.components. unfold bind at 1 2. unfold gets at 1.
  destruct (components_loop_spec (UnionFind.elts uf) [] uf Hwf)
    as (uf' & roots & -> & Hroots2 & Hroots).
  { intros x Hx. by apply Hwf. }
  simpl. unfold ret. eexists uf', _. split; [reflexivity|].
  set (clusters := (fun root => (filter (fun rx : Z * Z => rx.1 = root) roots).*2)
                     <$> remove_dups (roots.*1)).
  assert (forall a r, (r, a) ∈ roots <-> root_of (UnionFind.par uf) a r) as Hin.
  { intros a r. split.
    - intros Hra. rewrite Forall_forall in Hroots. by apply (Hroots (r, a)).
    - intros Hr. assert (a ∈ roots.*2) as Ha.
      { rewrite Hroots2. apply Hwf. by eapply root_of_dom. }
      apply list_elem_of_fmap in Ha as ([r' a'] & -> & Hp). simpl.
      rewrite Forall_forall in Hroots. specialize (Hroots _ Hp). simpl in Hroots.
      by rewrite (root_of_det _ _ _ _ Hr Hroots). }
  assert (forall a cid,
             AdClusterRecord.mk a cid ∈ make_ad_cluster_records clusters
             <-> exists i root, remove_dups (roots.*1) !! i = Some root
                                /\ cid = Z.of_nat i
                                /\ root_of (UnionFind.par uf) a root) as Hrec.
  { intros a cid. unfold make_ad_cluster_records. rewrite list_elem_of_join. split.
    - intros (l & Hal & Hl). apply list_elem_of_lookup in Hl as [i Hl].
      rewrite list_lookup_imap in Hl. unfold clusters in Hl. rewrite list_lookup_fmap in Hl.
      destruct (remove_dups (roots.*1) !! i) as [root|] eqn:Hroot; [|done].
      simpl in Hl. injection Hl as <-.
      apply list_elem_of_fmap in Hal as (a' & [= <- ->] & Ha').
      apply list_elem_of_fmap in Ha' as ([r x] & -> & [Hrx Hp]%list_elem_of_filter).
      simpl in *. subst r. exists i, root. split; [done|]. split; [done|]. by apply Hin.
    - intros (i & root & Hroot & -> & Ha).
      exists ((fun archive_id => AdClusterRecord.mk archive_id (Z.of_nat i))
                <$> (filter (fun rx : Z * Z => rx.1 = root) roots).*2).
      split.
      + apply list_elem_of_fmap. exists a. split; [done|].
        apply list_elem_of_fmap. exists (root, a). split; [done|].
        apply list_elem_of_filter. split; [done|]. by apply Hin.
      + apply list_elem_of_lookup. exists i. rewrite list_lookup_imap.
        unfold clusters. by rewrite list_lookup_fmap, Hroot. }
  split.
  - intros a b. rewrite <-Hconn. split.
    + intros (cid & (i & root & Hi & -> & Ha)%Hrec & (j & root' & Hj & Hij & Hb)%Hrec).
      apply Nat2Z.inj in Hij as <-. rewrite Hi in Hj. injection Hj as <-.
      by exists root.
    + intros (root & Ha & Hb).
      assert (root ∈ remove_dups (roots.*1)) as Hroot.
      { apply elem_of_remove_dups, list_elem_of_fmap. exists (root, a).
        split; [done|]. by apply Hin. }
      apply list_elem_of_lookup in Hroot as [i Hi].
      exists (Z.of_nat i). split; apply Hrec; eauto.
  - intros a c1 c2 (i & root & Hi & -> & Ha)%Hrec (j & root' & Hj & -> & Ha')%Hrec.
    rewrite (root_of_det _ _ _ _ Ha' Ha) in Hj. f_equal.
    exact (NoDup_lookup _ _ _ _ (NoDup_remove_dups (roots.*1)) Hi Hj).
Qed.

(** ** Hamming distance *)

Lemma popcount_Ndouble (n : N) : popcount (Pos.Ndouble n) = popcount n.
Proof. by destruct n. Qed.

Lemma popcount_Nsucc_double (n : N) : popcount (Pos.Nsucc_double n) = S (popcount n).
Proof. by destruct n. Qed.

Lemma popcount_pos_lxor (p q : positive) :
  (popcount (Pos.lxor p q) <= pos_popcount p + pos_popcount q)%nat.
Proof.
  revert q. induction p as [p IH|p IH|]; intros [q|q|];
    cbn [pos_popcount]; lazy beta iota delta [Pos.lxor]; fold Pos.lxor;
    rewrite ?popcount_Ndouble, ?popcount_Nsucc_double; try specialize (IH q);
    cbn [popcount pos_popcount]; lia.
Qed.

Lemma popcount_lxor (x y : N) : (popcount (N.lxor x y) <= popcount x + popcount y)%nat.
Proof. destruct x as [|p], y as [|q]; simpl; try lia. apply popcount_pos_lxor. Qed.

Lemma dhash_distance_sym (a b : N) :
  dhash_get_num_bits_different a b = dhash_get_num_bits_different b a.
Proof. unfold dhash_get_num_bits_different. by rewrite N.lxor_comm. Qed.

Lemma dhash_distance_triangle (a b c : N) :
  (dhash_get_num_bits_different a c
   <= dhash_get_num_bits_different a b + dhash_get_num_bits_different b c)%nat.
Proof.
  unfold dhash_get_num_bits_different.
  replace (N.lxor a c) with (N.lxor (N.lxor a b) (N.lxor b c)); [apply popcount_lxor|].
  rewrite N.lxor_assoc, <-(N.lxor_assoc b b c), N.lxor_nilpotent, N.lxor_0_l. done.
Qed.

Lemma simhash_distance_sym (f : nat) (a b : N) :
  simhash_distance f a b = simhash_distance f b a.
Proof. unfold simhash_distance. by rewrite N.lxor_comm. Qed.

Lemma simhash_distance_self (f : nat) (a : N) : simhash_distance f a a = 0%nat.
Proof. unfold simhash_distance. by rewrite N.lxor_nilpotent, N.land_0_l. Qed.

Lemma dhash_distance_self (a : N) : dhash_get_num_bits_different a a = 0%nat.
Proof. unfold dhash_get_num_bits_different. by rewrite N.lxor_nilpotent. Qed.

(** ** BK-tree *)

Lemma bk_node_ind (P : BKTree.node -> Prop) :
  (forall item children, Forall (fun dc => P dc.2) children -> P (BKTree.Node item children)) ->
  forall n, P n.
Proof.
  intros Hnode. fix IH 1. intros [item children]. apply Hnode.
  induction children as [|[d c] children IHc]; constructor; [apply IH|apply IHc].
Qed.

(** The children after an insert: the insert goes into the child filed
    under the distance of the new item, or a new leaf is filed there. *)
Lemma add_node_unfold (item parent : ArchiveIDAndSimHash.t) (children : list (nat * BKTree.node)) :
  BKTree.add_node item (BKTree.Node parent children)
  = BKTree.Node parent
      ((fix go (cs : list (nat * BKTree.node)) : list (nat * BKTree.node) :=
          match cs with
          | [] => [(get_num_bits_different item parent, BKTree.Node item [])]
          | (d, c) :: cs' =>
              if decide (d = get_num_bits_different item parent)
              then (d, BKTree.add_node item c) :: cs'
              else (d, c) :: go cs'
          end) children).
Proof. reflexivity. Qed.

Lemma add_node_in (item : ArchiveIDAndSimHash.t) (n : BKTree.node) :
  forall x, bk_in x (BKTree.add_node item n) <-> x = item \/ bk_in x n.
Proof.
  induction n as [parent children IH] using bk_node_ind. intros x.
  rewrite add_node_unfold.
  set (go := fix go (cs : list (nat * BKTree.node)) : list (nat * BKTree.node) := _).
  assert (forall d c, (d, c) ∈ go children
                      -> (forall y, bk_in y c -> y = item \/ exists d' c', (d', c') ∈ children
                                                                          /\ bk_in y c'))
    as Hfwd.
  { induction children as [|[d0 c0] cs IHcs]; intros d c; simpl.
    - intros [= -> ->]%list_elem_of_singleton y Hy. left.
      inversion Hy as [|? ? ? ? Hin]; [done|by apply elem_of_nil in Hin].
    - apply Forall_cons in IH as [IH0 IH]. destruct (decide _) as [->|Hne].
      + intros [[= -> ->]|Hin]%elem_of_cons y Hy.
        * apply IH0 in Hy as [?|?]; [by left|]. right. exists (get_num_bits_different item parent), c0.
          split; [by left|done].
        * right. exists d, c. split; [by right|done].
      + intros [[= -> ->]|Hin]%elem_of_cons y Hy.
        * right. exists d0, c0. split; [by left|done].
        * destruct (IHcs IH d c Hin y Hy) as [?|(d' & c' & ? & ?)]; [by left|].
          right. exists d', c'. split; [by right|done]. }
  assert (exists d c, (d, c) ∈ go children /\ bk_in item c) as Hitem.
  { clear Hfwd. induction children as [|[d0 c0] cs IHcs]; simpl.
    - eexists _, _. split; [by left|constructor].
    - apply Forall_cons in IH as [IH0 IH]. destruct (decide _) as [->|Hne].
      + eexists _, _. split; [by left|]. apply IH0. by left.
      + destruct (IHcs IH) as (d & c & ? & ?). exists d, c. split; [by right|done]. }
  assert (forall d c y, (d, c) ∈ children -> bk_in y c
                        -> exists d' c', (d', c') ∈ go children /\ bk_in y c') as Hbwd.
  { clear Hfwd Hitem. induction children as [|[d0 c0] cs IHcs]; intros d c y; simpl.
    - by intros ?%elem_of_nil.
    - apply Forall_cons in IH as [IH0 IH]. destruct (decide _) as [->|Hne].
      + intros [[= -> ->]|Hin]%elem_of_cons Hy.
        * eexists _, _. split; [by left|]. apply IH0. by right.
        * exists d, c. split; [by right|done].
      + intros [[= -> ->]|Hin]%elem_of_cons Hy.
        * exists d0, c0. split; [by left|done].
        * destruct (IHcs IH d c y Hin Hy) as (d' & c' & ? & ?).
          exists d', c'. split; [by right|done]. }
  split.
  - intros Hx. inversion Hx as [|? ? d c Hin Hc]; subst.
    + right. constructor.
    + destruct (Hfwd d c Hin x Hc) as [?|(d' & c' & ? & ?)]; [by left|].
      right. by eapply bk_in_child.
  - intros [->|Hx].
    + destruct Hitem as (d & c & ? & ?). by eapply bk_in_child.
    + inversion Hx as [|? ? d c Hin Hc]; subst; [constructor|].
      destruct (Hbwd d c x Hin Hc) as (d' & c' & ? & ?). by eapply bk_in_child.
Qed.

Lemma add_node_wf (item : ArchiveIDAndSimHash.t) (n : BKTree.node) :
  bk_wf n -> bk_wf (BKTree.add_node item n).
Proof.
  induction n as [parent children IH] using bk_node_ind. intros Hwf.
  inversion Hwf as [? ? Hsub Hdist]; subst. rewrite add_node_unfold.
  set (go := fix go (cs : list (nat * BKTree.node)) : list (nat * BKTree.node) := _).
  assert (forall d c, (d, c) ∈ go children ->
                      bk_wf c /\ forall x, bk_in x c -> get_num_bits_different x parent = d)
    as Hgo.
  { clear Hwf. induction children as [|[d0 c0] cs IHcs]; intros d c; simpl.
    - intros [= -> ->]%list_elem_of_singleton. split.
      + constructor; [by intros ? ? ?%elem_of_nil|by intros ? ? ? ?%elem_of_nil].
      + intros x Hx. inversion Hx as [|? ? ? ? Hin]; [done|by apply elem_of_nil in Hin].
    - apply Forall_cons in IH as [IH0 IH].
      assert (forall d c, (d, c) ∈ cs -> bk_wf c) as Hsub' by (intros; eapply Hsub; by right).
      assert (forall d c x, (d, c) ∈ cs -> bk_in x c -> get_num_bits_different x parent = d)
        as Hdist' by (intros; eapply Hdist; [by right|done]).
      destruct (decide _) as [->|Hne].
      + intros [[= -> ->]|Hin]%elem_of_cons.
        * split; [apply IH0; eapply Hsub; by left|].
          intros x [->|Hx]%add_node_in; [done|]. eapply Hdist; [by left|done].
        * split; [by eapply Hsub'|]. intros x Hx. by eapply Hdist'.
      + intros [[= -> ->]|Hin]%elem_of_cons.
        * split; [eapply Hsub; by left|]. intros x Hx. eapply Hdist; [by left|done].
        * by apply IHcs. }
  constructor.
  - intros d c Hin. by destruct (Hgo d c Hin).
  - intros d c x Hin. by destruct (Hgo d c Hin) as [_ Hd]; apply Hd.
Qed.

Lemma find_node_unfold (item candidate : ArchiveIDAndSimHash.t) (n : nat)
    (children : list (nat * BKTree.node)) :
  BKTree.find_node item n (BKTree.Node candidate children)
  = (if (get_num_bits_different candidate item <=? n)%nat
     then [(get_num_bits_different candidate item, candidate)] else [])
    ++ (fix go (cs : list (nat * BKTree.node)) : list (nat * ArchiveIDAndSimHash.t) :=
          match cs with
          | [] => []
          | (d, c) :: cs' =>
              let lower := Z.of_nat (get_num_bits_different candidate item) - Z.of_nat n in
              let upper := Z.of_nat (get_num_bits_different candidate item) + Z.of_nat n in
              (if (lower <=? Z.of_nat d) && (Z.of_nat d <=? upper)
               then BKTree.find_node item n c else []) ++ go cs'
          end) children.
Proof. reflexivity. Qed.

(** A range query answers with items of the tree within the radius. *)
Lemma find_node_sound (item : ArchiveIDAndSimHash.t) (n : nat) (nd : BKTree.node) :
  forall d x, (d, x) ∈ BKTree.find_node item n nd ->
              bk_in x nd /\ d = get_num_bits_different x item /\ (d <= n)%nat.
Proof.
  induction nd as [candidate children IH] using bk_node_ind. intros d x.
  rewrite find_node_unfold. rewrite elem_of_app. intros [Hhere|Hchild].
  - destruct (Nat.leb_spec (get_num_bits_different candidate item) n);
      [|by apply elem_of_nil in Hhere].
    apply list_elem_of_singleton in Hhere as [= -> ->]. split; [constructor|done].
  - induction children as [|[d0 c0] cs IHcs]; simpl in Hchild.
    { by apply elem_of_nil in Hchild. }
    apply Forall_cons in IH as [IH0 IH]. apply elem_of_app in Hchild as [Hc|Hc].
    + destruct (_ && _); [|by apply elem_of_nil in Hc].
      destruct (IH0 d x Hc) as (? & ? & ?). split; [|done].
      eapply bk_in_child; [by left|done].
    + destruct (IHcs IH Hc) as (Hin & ? & ?). split; [|done].
      inversion Hin as [|? ? d' c' Hin' Hc']; subst; [constructor|].
      eapply bk_in_child; [by right|done].
Qed.

(** A range query misses no item of the tree within the radius. *)
Lemma find_node_complete (item : ArchiveIDAndSimHash.t) (n : nat) (nd : BKTree.node) :
  bk_wf nd ->
  forall x, bk_in x nd -> (get_num_bits_different x item <= n)%nat ->
            (get_num_bits_different x item, x) ∈ BKTree.find_node item n nd.
Proof.
  induction nd as [candidate children IH] using bk_node_ind. intros Hwf x Hx Hle.
  inversion Hwf as [? ? Hsub Hdist]; subst.
  rewrite find_node_unfold. apply elem_of_app.
  inversion Hx as [|? ? d c Hin Hc]; subst.
  { left. rewrite (proj2 (Nat.leb_le _ _) Hle). by left. }
  right. clear Hx Hwf.
  induction children as [|[d0 c0] cs IHcs]; [by apply elem_of_nil in Hin|].
  apply Forall_cons in IH as [IH0 IH]. simpl. apply elem_of_app.
  apply elem_of_cons in Hin as [[= <- <-]|Hin].
  - left. pose proof (Hdist d c x ltac:(by left) Hc) as Hd.
    assert ((Z.of_nat (get_num_bits_different candidate item) - Z.of_nat n <=? Z.of_nat d)
            && (Z.of_nat d <=? Z.of_nat (get_num_bits_different candidate item) + Z.of_nat n)
            = true) as ->.
    { unfold get_num_bits_different in *.
      pose proof (dhash_distance_triangle (ArchiveIDAndSimHash.sim_hash x)
                    (ArchiveIDAndSimHash.sim_hash item)
                    (ArchiveIDAndSimHash.sim_hash candidate)) as T1.
      pose proof (dhash_distance_triangle (ArchiveIDAndSimHash.sim_hash candidate)
                    (ArchiveIDAndSimHash.sim_hash x)
                    (ArchiveIDAndSimHash.sim_hash item)) as T2.
      rewrite (dhash_distance_sym (ArchiveIDAndSimHash.sim_hash item)
                 (ArchiveIDAndSimHash.sim_hash candidate)) in T1.
      rewrite (dhash_distance_sym (ArchiveIDAndSimHash.sim_hash candidate)
                 (ArchiveIDAndSimHash.sim_hash x)) in T2.
      apply andb_true_iff. split; apply Z.leb_le; lia. }
    apply IH0; [eapply Hsub; by left|done|done].
  - right. apply IHcs; auto.
    + intros d' c' ?. eapply Hsub. by right.
    + intros d' c' y ? ?. eapply Hdist; [by right|done].
Qed.

Lemma bk_add_in (item : ArchiveIDAndSimHash.t) (tree : BKTree.t) (x : ArchiveIDAndSimHash.t) :
  bk_tree_in x (BKTree.add item tree) <-> x = item \/ bk_tree_in x tree.
Proof.
  destruct tree as [nd|]; simpl; [apply add_node_in|].
  split.
  - intros Hx. inversion Hx as [|? ? ? ? Hin]; [by left|by apply elem_of_nil in Hin].
  - intros [->|[]]. constructor.
Qed.

Lemma bk_add_wf (item : ArchiveIDAndSimHash.t) (tree : BKTree.t) :
  bk_tree_wf tree -> bk_tree_wf (BKTree.add item tree).
Proof.
  destruct tree as [nd|]; simpl; [apply add_node_wf|].
  intros _. constructor; [by intros ? ? ?%elem_of_nil|by intros ? ? ? ?%elem_of_nil].
Qed.

(** The answer of a range query, as a set of items. *)
Lemma bk_find_spec (tree : BKTree.t) (item : ArchiveIDAndSimHash.t) (n : nat) :
  bk_tree_wf tree ->
  forall d x, (d, x) ∈ BKTree.find tree item n
              <-> bk_tree_in x tree /\ d = get_num_bits_different x item /\ (d <= n)%nat.
Proof.
  destruct tree as [nd|]; simpl; intros Hwf d x.
  - split; [apply find_node_sound|]. intros (Hx & -> & Hle). by apply find_node_complete.
  - split; [by intros ?%elem_of_nil|by intros []].
Qed.

(** ** The banded index *)

Lemma simhash_add_fields (obj_id : Z) (value : N) (index : SimhashIndex.t) :
  SimhashIndex.k (SimhashIndex.add obj_id value index) = SimhashIndex.k index
  /\ SimhashIndex.f (SimhashIndex.add obj_id value index) = SimhashIndex.f index.
Proof. done. Qed.

Lemma simhash_add_bucket (obj_id : Z) (value : N) (index : SimhashIndex.t)
    (key : N * nat) (p : N * Z) :
  p ∈ default ∅ (SimhashIndex.bucket (SimhashIndex.add obj_id value index) !! key)
  <-> (p = (value, obj_id)
       /\ key ∈ SimhashIndex.get_keys (SimhashIndex.f index) (SimhashIndex.k index) value)
      \/ p ∈ default ∅ (SimhashIndex.bucket index !! key).
Proof.
  unfold SimhashIndex.add. simpl.
  generalize (SimhashIndex.get_keys (SimhashIndex.f index) (SimhashIndex.k index) value).
  generalize (SimhashIndex.bucket index). intros b keys. revert b.
  induction keys as [|key0 keys IH]; intros b; simpl.
  { split; [by right|]. intros [[_ ?%elem_of_nil]|?]; done. }
  rewrite IH. destruct (decide (key0 = key)) as [->|Hne].
  - rewrite lookup_insert_eq. simpl. rewrite elem_of_union, elem_of_singleton.
    rewrite elem_of_cons. tauto.
  - rewrite lookup_insert_ne by done. rewrite elem_of_cons.
    split; [tauto|]. intros [[? [?|?]]|?]; try tauto. congruence.
Qed.

Lemma simhash_new_spec (objs : list (Z * N)) (k : nat) :
  SimhashIndex.k (SimhashIndex.new objs k) = k
  /\ SimhashIndex.f (SimhashIndex.new objs k) = 64%nat
  /\ forall key p,
       p ∈ default ∅ (SimhashIndex.bucket (SimhashIndex.new objs k) !! key)
       <-> exists obj_id value,
             p = (value, obj_id) /\ (obj_id, value) ∈ objs
             /\ key ∈ SimhashIndex.get_keys 64 k value.
Proof.
  unfold SimhashIndex.new.
  assert (forall index,
             SimhashIndex.k index = k -> SimhashIndex.f index = 64%nat ->
             let index' := foldl (fun index q => SimhashIndex.add q.1 q.2 index) index objs in
             SimhashIndex.k index' = k
             /\ SimhashIndex.f index' = 64%nat
             /\ forall key p,
                  p ∈ default ∅ (SimhashIndex.bucket index' !! key)
                  <-> (exists obj_id value,
                          p = (value, obj_id) /\ (obj_id, value) ∈ objs
                          /\ key ∈ SimhashIndex.get_keys 64 k value)
                      \/ p ∈ default ∅ (SimhashIndex.bucket index !! key)) as Hgen.
  { induction objs as [|[id h] objs IH]; intros index Hk Hf; simpl.
    { split; [done|]. split; [done|]. intros key p. split; [by right|].
      intros [(? & ? & _ & ?%elem_of_nil & _)|?]; done. }
    destruct (IH (SimhashIndex.add id h index)) as (Hk' & Hf' & Hb); [done|done|].
    split; [done|]. split; [done|]. intros key p. rewrite Hb, simhash_add_bucket, Hk, Hf.
    split.
    - intros [(id' & h' & -> & Hin & Hkey)|[[-> Hkey]|Hp]].
      + left. exists id', h'. split; [done|]. split; [by right|done].
      + left. exists id, h. split; [done|]. split; [by left|done].
      + by right.
    - intros [(id' & h' & -> & [[= -> ->]|Hin]%elem_of_cons & Hkey)|Hp].
      + right. left. done.
      + left. exists id', h'. done.
      + right. by right. }
  destruct (Hgen (SimhashIndex.mk k 64 ∅)) as (Hk & Hf & Hb); [done|done|].
  split; [done|]. split; [done|]. intros key p. rewrite Hb. simpl.
  rewrite lookup_empty. simpl. split; [|by left].
  intros [?|?%not_elem_of_empty]; done.
Qed.

(** The set behind the answer of [get_near_dups]. *)
Lemma simhash_near_dups_set (index : SimhashIndex.t) (value : N) (keys : list (N * nat))
    (ans0 : gset Z) (x : Z) :
  x ∈ foldl (fun ans key =>
               foldl (fun ans (dup : N * Z) =>
                        if (simhash_distance (SimhashIndex.f index) value dup.1
                            <=? SimhashIndex.k index)%nat
                        then {[dup.2]} ∪ ans else ans)
                     ans (elements (default ∅ (SimhashIndex.bucket index !! key))))
            ans0 keys
  <-> x ∈ ans0
      \/ exists key h,
           key ∈ keys
           /\ (h, x) ∈ default ∅ (SimhashIndex.bucket index !! key)
           /\ (simhash_distance (SimhashIndex.f index) value h <= SimhashIndex.k index)%nat.
Proof.
  assert (forall (l : list (N * Z)) (ans : gset Z),
             x ∈ foldl (fun ans (dup : N * Z) =>
                          if (simhash_distance (SimhashIndex.f index) value dup.1
                              <=? SimhashIndex.k index)%nat
                          then {[dup.2]} ∪ ans else ans) ans l
             <-> x ∈ ans
                 \/ exists h, (h, x) ∈ l
                              /\ (simhash_distance (SimhashIndex.f index) value h
                                  <= SimhashIndex.k index)%nat) as Hinner.
  { induction l as [|[h id] l IH]; intros ans; simpl.
    { split; [by left|]. intros [?|(? & ?%elem_of_nil & _)]; done. }
    rewrite IH. destruct (Nat.leb_spec (simhash_distance (SimhashIndex.f index) value h)
                            (SimhashIndex.k index)) as [Hle|Hgt].
    - rewrite elem_of_union, elem_of_singleton. split.
      + intros [[->|?]|(h' & ? & ?)]; [right; exists h; split; [by left|done]|by left|].
        right. exists h'. split; [by right|done].
      + intros [?|(h' & [[= -> ->]|?]%elem_of_cons & ?)]; [by left; right|by left; left|].
        right. by exists h'.
    - split.
      + intros [?|(h' & ? & ?)]; [by left|]. right. exists h'. split; [by right|done].
      + intros [?|(h' & [[= -> ->]|?]%elem_of_cons & ?)]; [by left|lia|].
        right. by exists h'. }
  revert ans0. induction keys as [|key keys IH]; intros ans0; simpl.
  { split; [by left|]. intros [?|(? & ? & ?%elem_of_nil & _)]; done. }
  rewrite IH, Hinner. split.
  - intros [[?|(h & Hin%elem_of_elements & ?)]|(key' & h & ? & ? & ?)]; [by left| |].
    + right. exists key, h. split; [by left|done].
    + right. exists key', h. split; [by right|done].
  - intros [?|(key' & h & [->|?]%elem_of_cons & ? & ?)]; [by left; left| |].
    + left. right. exists h. split; [by apply elem_of_elements|done].
    + right. by exists key', h.
Qed.

(** The answer of the index built from [objs]: the ids of the entries that
    share a band with the probe and lie within distance [k] of it. *)
Lemma simhash_near_dups_spec (objs : list (Z * N)) (k : nat) (value : N) (x : Z) :
  x ∈ SimhashIndex.get_near_dups (SimhashIndex.new objs k) value
  <-> exists h key,
        (x, h) ∈ objs
        /\ key ∈ SimhashIndex.get_keys 64 k value
        /\ key ∈ SimhashIndex.get_keys 64 k h
        /\ (simhash_distance 64 value h <= k)%nat.
Proof.
  destruct (simhash_new_spec objs k) as (Hk & Hf & Hb).
  unfold SimhashIndex.get_near_dups. rewrite elem_of_elements, simhash_near_dups_set.
  rewrite Hk, Hf. split.
  - intros [?%not_elem_of_empty|(key & h & Hkey & Hin & Hle)]; [done|].
    apply Hb in Hin as (id & h' & [= <- <-] & Hin & Hkey'). by exists h, key.
  - intros (h & key & Hin & Hkey & Hkey' & Hle). right. exists key, h.
    split; [done|]. split; [|done]. apply Hb. by exists x, h.
Qed.

(** The answer depends on the set of entries only, not on their order. *)
Lemma simhash_near_dups_perm (objs1 objs2 : list (Z * N)) (k : nat) (value : N) :
  (forall p, p ∈ objs1 <-> p ∈ objs2) ->
  SimhashIndex.get_near_dups (SimhashIndex.new objs1 k) value
  = SimhashIndex.get_near_dups (SimhashIndex.new objs2 k) value.
Proof.
  intros Hobjs.
  pose proof (simhash_near_dups_spec objs1 k value) as H1.
  pose proof (simhash_near_dups_spec objs2 k value) as H2.
  unfold SimhashIndex.get_near_dups in *. f_equal. apply set_eq. intros x.
  specialize (H1 x). specialize (H2 x). rewrite elem_of_elements in H1, H2.
  rewrite H1, H2. split; intros (h & key & Hin & ?); exists h, key; split; try done;
    by apply Hobjs.
Qed.

(** ** The clustering passes *)

Lemma py_min_is_Some (l : list Z) : l <> [] -> is_Some (py_min l).
Proof. destruct l; [done|]. simpl. eauto. Qed.

Lemma py_min_None (l : list Z) : py_min l = None <-> l = [].
Proof. by destruct l. Qed.

(** The first loop of the text pass. *)
Lemma text_first_loop_spec (simhashes : list (N * list Z)) :
  forall (tuples0 : list (Z * N)) (uf : UnionFind.t) (edges : list (Z * Z)),
    uf_inv uf edges ->
    exists uf' r,
      for_each simhashes
        (fun tuples '(sim_hash, archive_id_set) =>
           match py_min archive_id_set with
           | None => raise ValueError
           | Some min_archive_id =>
               union_all_pairs archive_id_set ;;
               ret (tuples ++ [(min_archive_id, sim_hash)])
           end) tuples0 uf = (uf', r)
      /\ (all_nonempty simhashes ->
          r = inr (tuples0 ++ min_tuples simhashes)
          /\ uf_inv uf' (edges ++ same_hash_edges simhashes))
      /\ (~ all_nonempty simhashes -> r = inl ValueError).
Proof.
  induction simhashes as [|[h s] fp IH]; intros tuples0 uf edges Hinv; cbn [for_each].
  { eexists _, _. split; [reflexivity|]. simpl. rewrite !app_nil_r.
    split; [done|]. intros []. constructor. }
  unfold bind at 1. destruct (py_min s) as [m|] eqn:Hmin.
  2: { apply py_min_None in Hmin as ->. eexists _, _. split; [reflexivity|].
       split; [|done]. by intros [? _]%Forall_cons. }
  unfold bind at 1.
  destruct (union_all_pairs_spec s uf edges Hinv) as (uf1 & -> & Hinv1).
  unfold ret at 1.
  destruct (IH (tuples0 ++ [(m, h)]) uf1 _ Hinv1) as (uf2 & r & -> & Hok & Hfail).
  assert (s <> []) as Hs by (by intros ->).
  exists uf2, r. split; [done|]. split.
  - intros [_ Hfp]%Forall_cons. destruct (Hok Hfp) as [-> Hinv2].
    unfold min_tuples, same_hash_edges in *. simpl. rewrite Hmin. simpl.
    rewrite <-!app_assoc in *. done.
  - intros Hne. apply Hfail. intros Hfp. apply Hne. by constructor.
Qed.

(** The second loop of either pass: the pairs of each answer are united. *)
Lemma found_loop_spec (found : N -> list Z) (simhashes : list (N * list Z)) :
  forall (uf : UnionFind.t) (edges : list (Z * Z)),
    uf_inv uf edges ->
    exists uf',
      for_each simhashes
        (fun (_ : unit) '(curr_simhash, _) => union_all_pairs (found curr_simhash)) tt uf
      = (uf', inr tt)
      /\ uf_inv uf' (edges ++ (simhashes ≫= fun p => combinations2 (found p.1))).
Proof.
  induction simhashes as [|[h s] fp IH]; intros uf edges Hinv; cbn [for_each].
  { exists uf. simpl. by rewrite app_nil_r. }
  unfold bind.
  destruct (union_all_pairs_spec (found h) uf edges Hinv) as (uf1 & -> & Hinv1).
  destruct (IH uf1 _ Hinv1) as (uf2 & -> & Hinv2).
  exists uf2. split; [done|]. simpl. by rewrite <-app_assoc in Hinv2.
Qed.

(** The text pass: it raises [ValueError] when a set is empty, and otherwise
    leaves the union-find structure with the connections of [text_edges]. *)
Lemma text_pass_spec (simhashes : list (N * list Z)) (uf : UnionFind.t)
    (edges : list (Z * Z)) :
  uf_inv uf edges ->
  exists uf' r,
    _ad_creative_body_text_similarity_clusters simhashes uf = (uf', r)
    /\ (all_nonempty simhashes ->
        r = inr tt /\ uf_inv uf' (edges ++ text_edges simhashes))
    /\ (~ all_nonempty simhashes -> r = inl ValueError).
Proof.
  intros Hinv. unfold _ad_creative_body_text_similarity_clusters.
  destruct (text_first_loop_spec simhashes [] uf edges Hinv) as (uf1 & r1 & Hloop & Hok & Hfail).
  unfold bind at 1. rewrite Hloop.
  destruct (decide (all_nonempty simhashes)) as [Hne|Hne].
  - destruct (Hok Hne) as [-> Hinv1]. simpl in Hinv1 |- *.
    destruct (found_loop_spec
                (SimhashIndex.get_near_dups
                   (SimhashIndex.new (min_tuples simhashes) BIT_DIFFERENCE_THRESHOLD))
                simhashes uf1 _ Hinv1) as (uf2 & -> & Hinv2).
    exists uf2, (inr tt). split; [done|]. split; [|done]. intros _.
    split; [done|]. unfold text_edges, text_found_edges. by rewrite app_assoc.
  - rewrite (Hfail Hne). exists uf1, (inl ValueError). done.
Qed.

(** The first loop of the image pass. *)
Lemma image_first_loop_spec (simhashes : list (N * list Z)) :
  forall (tree0 : BKTree.t) (uf : UnionFind.t) (edges : list (Z * Z)),
    uf_inv uf edges ->
    exists uf' r,
      for_each simhashes
        (fun tree '(sim_hash, archive_id_set) =>
           match py_min archive_id_set with
           | None => raise ValueError
           | Some min_archive_id =>
               let tree := BKTree.add (ArchiveIDAndSimHash.mk min_archive_id sim_hash) tree in
               union_all_pairs archive_id_set ;;
               ret tree
           end) tree0 uf = (uf', r)
      /\ (all_nonempty simhashes ->
          r = inr (bk_of_tuples tree0 (min_tuples simhashes))
          /\ uf_inv uf' (edges ++ same_hash_edges simhashes))
      /\ (~ all_nonempty simhashes -> r = inl ValueError).
Proof.
  cbv zeta.
  induction simhashes as [|[h s] fp IH]; intros tree0 uf edges Hinv; cbn [for_each].
  { eexists _, _. split; [reflexivity|]. simpl. rewrite !app_nil_r.
    split; [done|]. intros []. constructor. }
  unfold bind at 1. destruct (py_min s) as [m|] eqn:Hmin.
  2: { apply py_min_None in Hmin as ->. eexists _, _. split; [reflexivity|].
       split; [|done]. by intros [? _]%Forall_cons. }
  unfold bind at 1.
  destruct (union_all_pairs_spec s uf edges Hinv) as (uf1 & -> & Hinv1).
  unfold ret at 1.
  destruct (IH (BKTree.add (ArchiveIDAndSimHash.mk m h) tree0) uf1 _ Hinv1)
    as (uf2 & r & -> & Hok & Hfail).
  assert (s <> []) as Hs by (by intros ->).
  exists uf2, r. split; [done|]. split.
  - intros [_ Hfp]%Forall_cons. destruct (Hok Hfp) as [-> Hinv2].
    unfold min_tuples, same_hash_edges, bk_of_tuples in *. simpl. rewrite Hmin. simpl.
    rewrite <-!app_assoc in *. done.
  - intros Hne. apply Hfail. intros Hfp. apply Hne. by constructor.
Qed.

Lemma image_pass_spec (simhashes : list (N * list Z)) (uf : UnionFind.t)
    (edges : list (Z * Z)) :
  uf_inv uf edges ->
  exists uf' r,
    _ad_creative_image_similarity_clusters simhashes uf = (uf', r)
    /\ (all_nonempty simhashes ->
        r = inr tt /\ uf_inv uf' (edges ++ image_edges simhashes))
    /\ (~ all_nonempty simhashes -> r = inl ValueError).
Proof.
  intros Hinv. unfold _ad_creative_image_similarity_clusters.
  destruct (image_first_loop_spec simhashes None uf edges Hinv)
    as (uf1 & r1 & Hloop & Hok & Hfail).
  unfold bind at 1.
  match goal with |- context [for_each simhashes ?body ?acc uf] =>
    assert (for_each simhashes body acc uf = (uf1, r1)) as Hloop' by exact Hloop end.
  rewrite Hloop'.
  destruct (decide (all_nonempty simhashes)) as [Hne|Hne].
  - destruct (Hok Hne) as [-> Hinv1]. simpl in Hinv1 |- *.
    destruct (found_loop_spec (image_found (bk_of_tuples None (min_tuples simhashes)))
                simhashes uf1 _ Hinv1) as (uf2 & Hfound & Hinv2).
    unfold image_found in Hfound at 1. rewrite Hfound.
    exists uf2, (inr tt). split; [done|]. split; [|done]. intros _.
    split; [done|]. unfold image_edges, image_found_edges. by rewrite app_assoc.
  - rewrite (Hfail Hne). exists uf1, (inl ValueError). done.
Qed.

(** ** [update_ad_clusters] *)

Lemma clusters_of_spec (pass : M UnionFind.t unit) (edges : list (Z * Z)) (uf : UnionFind.t) :
  pass UnionFind.new = (uf, inr tt) -> uf_inv uf edges ->
  exists clusters,
    clusters_of pass = inr clusters
    /\ (forall a b, same_cluster (make_ad_cluster_records clusters) a b <-> conn edges a b)
    /\ (forall a c1 c2,
          AdClusterRecord.mk a c1 ∈ make_ad_cluster_records clusters ->
          AdClusterRecord.mk a c2 ∈ make_ad_cluster_records clusters -> c1 = c2).
Proof.
  intros Hpass Hinv. unfold clusters_of, bind. rewrite Hpass.
  destruct (components_records_spec uf edges Hinv) as (uf' & clusters & -> & Hsame & Hfun).
  by exists clusters.
Qed.

Lemma clusters_of_raises (pass : M UnionFind.t unit) (uf : UnionFind.t) (e : Exn) :
  pass UnionFind.new = (uf, inl e) -> clusters_of pass = inl e.
Proof. intros Hpass. unfold clusters_of, bind. by rewrite Hpass. Qed.

(** The clusters of the text pass on a fresh structure. *)
Lemma text_clusters_spec (simhashes : list (N * list Z)) :
  (all_nonempty simhashes ->
   exists clusters,
     clusters_of (_ad_creative_body_text_similarity_clusters simhashes) = inr clusters
     /\ (forall a b, same_cluster (make_ad_cluster_records clusters) a b
                     <-> conn (text_edges simhashes) a b)
     /\ (forall a c1 c2,
           AdClusterRecord.mk a c1 ∈ make_ad_cluster_records clusters ->
           AdClusterRecord.mk a c2 ∈ make_ad_cluster_records clusters -> c1 = c2))
  /\ (~ all_nonempty simhashes ->
      clusters_of (_ad_creative_body_text_similarity_clusters simhashes) = inl ValueError).
Proof.
  destruct (text_pass_spec simhashes UnionFind.new [] uf_inv_new) as (uf & r & Hpass & Hok & Hfail).
  split.
  - intros Hne. destruct (Hok Hne) as [-> Hinv]. by eapply clusters_of_spec.
  - intros Hne. rewrite (Hfail Hne) in Hpass. by eapply clusters_of_raises.
Qed.

Lemma image_clusters_spec (simhashes : list (N * list Z)) :
  (all_nonempty simhashes ->
   exists clusters,
     clusters_of (_ad_creative_image_similarity_clusters simhashes) = inr clusters
     /\ (forall a b, same_cluster (make_ad_cluster_records clusters) a b
                     <-> conn (image_edges simhashes) a b)
     /\ (forall a c1 c2,
           AdClusterRecord.mk a c1 ∈ make_ad_cluster_records clusters ->
           AdClusterRecord.mk a c2 ∈ make_ad_cluster_records clusters -> c1 = c2))
  /\ (~ all_nonempty simhashes ->
      clusters_of (_ad_creative_image_similarity_clusters simhashes) = inl ValueError).
Proof.
  destruct (image_pass_spec simhashes UnionFind.new [] uf_inv_new) as (uf & r & Hpass & Hok & Hfail).
  split.
  - intros Hne. destruct (Hok Hne) as [-> Hinv]. by eapply clusters_of_spec.
  - intros Hne. rewrite (Hfail Hne) in Hpass. by eapply clusters_of_raises.
Qed.

(** The name [components] is bound nowhere. *)
Lemma load_name_components (frame : list (string * PyValue)) :
  load_name frame "components" = inl (NameError "components").
Proof. unfold load_name. by vm_compute. Qed.

(** What [update_ad_clusters] does, by what its two passes do. *)
Lemma update_ad_clusters_unfold (text_simhashes image_simhashes : list (N * list Z))
    (db : list DbEvent) :
  update_ad_clusters text_simhashes image_simhashes db
  = match clusters_of (_ad_creative_body_text_similarity_clusters text_simhashes) with
    | inl e => (db ++ [EvRollback], inl e)
    | inr text_clusters =>
        match clusters_of (_ad_creative_image_similarity_clusters image_simhashes) with
        | inl e =>
            (db ++ [EvInsertOrUpdateAdTextClusterRecords
                      (make_ad_cluster_records text_clusters); EvCommit; EvRollback],
             inl e)
        | inr image_clusters =>
            (db ++ [EvInsertOrUpdateAdTextClusterRecords
                      (make_ad_cluster_records text_clusters); EvCommit;
                    EvInsertOrUpdateAdImageClusterRecords
                      (make_ad_cluster_records image_clusters); EvCommit; EvRollback],
             inl (NameError "components"))
        end
    end.
Proof.
  unfold update_ad_clusters, with_database_connection, lift_result, db_do, modify.
  unfold bind at 1.
  destruct (clusters_of (_ad_creative_body_text_similarity_clusters text_simhashes))
    as [e|text_clusters]; [done|].
  unfold bind at 1 2 3.
  destruct (clusters_of (_ad_creative_image_similarity_clusters image_simhashes))
    as [e|image_clusters].
  { by rewrite <-!app_assoc. }
  unfold bind. rewrite load_name_components. by rewrite <-!app_assoc.
Qed.

(** C8. [update_ad_clusters] never returns a value.  A call that gets as
    far as its [return] statement, which is the case exactly when neither
    pass raises, has written and committed the text and the image cluster
    records and then fails with [NameError] for the name [components], which
    is bound neither in the function nor in the module nor among the
    built-ins; the transaction left open is rolled back. *)
Theorem update_ad_clusters_name_error (text_simhashes image_simhashes : list (N * list Z))
    (db : list DbEvent) :
  (exists e, (update_ad_clusters text_simhashes image_simhashes db).2 = inl e)
  /\ (("components" ∉ update_ad_clusters_local_names)
      /\ ("components" ∉ (module_global_names ++ builtin_names)))
  /\ (forall text_clusters image_clusters,
        clusters_of (_ad_creative_body_text_similarity_clusters text_simhashes)
        = inr text_clusters ->
        clusters_of (_ad_creative_image_similarity_clusters image_simhashes)
        = inr image_clusters ->
        update_ad_clusters text_simhashes image_simhashes db
        = (db ++ [EvInsertOrUpdateAdTextClusterRecords
                    (make_ad_cluster_records text_clusters); EvCommit;
                  EvInsertOrUpdateAdImageClusterRecords
                    (make_ad_cluster_records image_clusters); EvCommit; EvRollback],
           inl (NameError "components")))
  /\ (all_nonempty text_simhashes -> all_nonempty image_simhashes ->
      (update_ad_clusters text_simhashes image_simhashes db).2
      = inl (NameError "components")).
Proof.
  rewrite update_ad_clusters_unfold. split; [|split; [|split]].
  - destruct (clusters_of _) as [e|tc]; [by eexists|].
    destruct (clusters_of _) as [e|ic]; by eexists.
  - split; by apply (bool_decide_unpack _); vm_compute.
  - intros tc ic -> ->. done.
  - intros Ht Hi.
    destruct (text_clusters_spec text_simhashes) as [Hok _].
    destruct (Hok Ht) as (tc & -> & _).
    destruct (image_clusters_spec image_simhashes) as [Hok' _].
    destruct (Hok' Hi) as (ic & -> & _). done.
Qed.

Lemma update_ad_clusters_name_error_witness :
  all_nonempty example_text_simhashes /\ all_nonempty example_image_simhashes
  /\ (update_ad_clusters example_text_simhashes example_image_simhashes []).2
     = inl (NameError "components").
Proof.
  assert (Ht : all_nonempty example_text_simhashes).
  { unfold all_nonempty, example_text_simhashes. repeat constructor; discriminate. }
  assert (Hi : all_nonempty example_image_simhashes).
  { unfold all_nonempty, example_image_simhashes. repeat constructor; discriminate. }
  split; [exact Ht|]. split; [exact Hi|].
  exact (proj2 (proj2 (proj2 (update_ad_clusters_name_error
                                example_text_simhashes example_image_simhashes [])))
           Ht Hi).
Defined.

(** ** Every union joins two ids with near fingerprints *)

Lemma combinations2_elem {A} (l : list A) (x y : A) :
  (x, y) ∈ combinations2 l -> x ∈ l /\ y ∈ l.
Proof.
  induction l as [|a l IH]; simpl; [by intros ?%elem_of_nil|].
  rewrite elem_of_app, list_elem_of_fmap. intros [(z & [= -> ->] & Hz)|Hin].
  - split; [left|by right].
  - destruct (IH Hin). split; by right.
Qed.

Lemma foldl_min_spec (l : list Z) (x : Z) :
  (foldl Z.min x l = x \/ foldl Z.min x l ∈ l)
  /\ foldl Z.min x l <= x
  /\ Forall (fun y => foldl Z.min x l <= y) l.
Proof.
  revert x. induction l as [|a l IH]; intros x; simpl.
  { split; [by left|]. split; [lia|constructor]. }
  destruct (IH (Z.min x a)) as (Hin & Hle & Hall).
  split; [|split].
  - destruct Hin as [Hin|Hin]; [|right; by right].
    destruct (Z.min_spec x a) as [[_ Hm]|[_ Hm]]; rewrite Hm in *;
      [by left|right; rewrite Hin; left].
  - lia.
  - constructor; [lia|done].
Qed.

(** [min] returns the least element. *)
Lemma py_min_spec (l : list Z) (m : Z) :
  py_min l = Some m <-> m ∈ l /\ forall y, y ∈ l -> m <= y.
Proof.
  destruct l as [|x l]; simpl.
  { split; [done|]. by intros [?%elem_of_nil _]. }
  destruct (foldl_min_spec l x) as (Hin & Hle & Hall).
  rewrite Forall_forall in Hall.
  assert (Hleast : forall y, y ∈ x :: l -> foldl Z.min x l <= y).
  { intros y [->|Hy]%elem_of_cons; [done|by apply Hall]. }
  assert (Hmem : foldl Z.min x l ∈ x :: l).
  { destruct Hin as [->|Hin]; [left|by right]. }
  split.
  - intros [= <-]. done.
  - intros [Hm Hmin]. f_equal.
    pose proof (Hleast m Hm). pose proof (Hmin _ Hmem). lia.
Qed.

Lemma min_tuples_elem (simhashes : list (N * list Z)) (m : Z) (h : N) :
  (m, h) ∈ min_tuples simhashes <-> exists s, (h, s) ∈ simhashes /\ py_min s = Some m.
Proof.
  unfold min_tuples. rewrite list_elem_of_omap. split.
  - intros ([h' s] & Hin & Hm). simpl in Hm.
    destruct (py_min s) as [m'|] eqn:E; simplify_eq/=. by exists s.
  - intros (s & Hin & Hm). exists (h, s). split; [done|]. simpl. by rewrite Hm.
Qed.

Lemma text_adjacent_sym (simhashes : list (N * list Z)) (a b : Z) :
  text_adjacent simhashes a b -> text_adjacent simhashes b a.
Proof.
  intros (h1 & s1 & h2 & s2 & ? & ? & ? & ? & ?).
  exists h2, s2, h1, s1. rewrite simhash_distance_sym. done.
Qed.

Lemma image_adjacent_sym (simhashes : list (N * list Z)) (a b : Z) :
  image_adjacent simhashes a b -> image_adjacent simhashes b a.
Proof.
  intros (h1 & s1 & h2 & s2 & ? & ? & ? & ? & ?).
  exists h2, s2, h1, s1. rewrite dhash_distance_sym. done.
Qed.

Lemma rtc_sym {A} (R : relation A) :
  (forall x y, R x y -> R y x) -> forall x y, rtc R x y -> rtc R y x.
Proof.
  intros Hsym x y Hxy. induction Hxy as [|x y z Hxy _ IH]; [done|].
  eapply rtc_trans; [exact IH|]. apply rtc_once. by apply Hsym.
Qed.

(** A connection through edges that each join adjacent ids is a chain. *)
Lemma conn_chain (adjacent : relation Z) (edges : list (Z * Z)) :
  (forall x y, adjacent x y -> adjacent y x) ->
  (forall x y, (x, y) ∈ edges -> rtc adjacent x y) ->
  forall a b, conn edges a b -> rtc adjacent a b.
Proof.
  intros Hsym Hedges a b Hab. induction Hab as [x y Hin|x y _ IH|x y z _ IH1 _ IH2].
  - by apply Hedges.
  - by apply rtc_sym.
  - by eapply rtc_trans.
Qed.

Lemma same_hash_edges_elem (simhashes : list (N * list Z)) (x y : Z) :
  (x, y) ∈ same_hash_edges simhashes ->
  exists h s, (h, s) ∈ simhashes /\ x ∈ s /\ y ∈ s.
Proof.
  unfold same_hash_edges. rewrite list_elem_of_bind.
  intros ([h s] & Hxy & Hin). apply combinations2_elem in Hxy. by exists h, s.
Qed.

(** What the text index holds and returns. *)
Lemma text_found_elem (simhashes : list (N * list Z)) (q : N) (x : Z) :
  x ∈ SimhashIndex.get_near_dups
        (SimhashIndex.new (min_tuples simhashes) BIT_DIFFERENCE_THRESHOLD) q ->
  exists h s, (h, s) ∈ simhashes /\ py_min s = Some x
              /\ (simhash_distance 64 q h <= BIT_DIFFERENCE_THRESHOLD)%nat.
Proof.
  rewrite simhash_near_dups_spec. intros (h & key & Hin & _ & _ & Hd).
  apply min_tuples_elem in Hin as (s & Hin & Hm). by exists h, s.
Qed.

Lemma text_edges_adjacent (simhashes : list (N * list Z)) (x y : Z) :
  all_nonempty simhashes ->
  (x, y) ∈ text_edges simhashes -> rtc (text_adjacent simhashes) x y.
Proof.
  intros Hne. unfold text_edges. rewrite elem_of_app. intros [Hin|Hin].
  - apply same_hash_edges_elem in Hin as (h & s & Hin & Hx & Hy).
    apply rtc_once. exists h, s, h, s. rewrite simhash_distance_self.
    unfold BIT_DIFFERENCE_THRESHOLD. repeat split; try done. lia.
  - unfold text_found_edges in Hin. apply list_elem_of_bind in Hin as ([q sq] & Hxy & Hq).
    simpl in Hxy. apply combinations2_elem in Hxy as [Hx Hy].
    apply text_found_elem in Hx as (hx & sx & Hinx & Hmx & Hdx).
    apply text_found_elem in Hy as (hy & sy & Hiny & Hmy & Hdy).
    apply py_min_spec in Hmx as [Hmx _]. apply py_min_spec in Hmy as [Hmy _].
    unfold all_nonempty in Hne. rewrite Forall_forall in Hne.
    destruct (py_min_is_Some sq (Hne _ Hq)) as [m Hm].
    apply py_min_spec in Hm as [Hm _].
    apply rtc_l with m.
    + exists hx, sx, q, sq. rewrite simhash_distance_sym. done.
    + apply rtc_once. by exists q, sq, hy, sy.
Qed.

(** What the tree holds after the inserts, and what it returns. *)
Lemma bk_of_tuples_spec (tuples : list (Z * N)) (tree : BKTree.t) :
  bk_tree_wf tree ->
  bk_tree_wf (bk_of_tuples tree tuples)
  /\ forall x, bk_tree_in x (bk_of_tuples tree tuples)
               <-> bk_tree_in x tree
                   \/ exists p, p ∈ tuples /\ x = ArchiveIDAndSimHash.mk p.1 p.2.
Proof.
  revert tree. induction tuples as [|p tuples IH]; intros tree Hwf; simpl.
  { split; [done|]. intros x. split; [by left|].
    intros [?|(p & ?%elem_of_nil & _)]; done. }
  destruct (IH _ (bk_add_wf (ArchiveIDAndSimHash.mk p.1 p.2) tree Hwf)) as [Hwf' Hin].
  split; [exact Hwf'|]. intros x. unfold bk_of_tuples in Hin. rewrite Hin, bk_add_in.
  split.
  - intros [[->|?]|(p' & ? & ->)]; [right; exists p; split; [left|done]|by left|].
    right. exists p'. split; [by right|done].
  - intros [?|(p' & [->|?]%elem_of_cons & ->)]; [left; by right|left; by left|].
    right. by exists p'.
Qed.

Lemma image_found_elem (simhashes : list (N * list Z)) (q : N) (x : Z) :
  x ∈ image_found (bk_of_tuples None (min_tuples simhashes)) q
  <-> exists h, (x, h) ∈ min_tuples simhashes
                /\ (dhash_get_num_bits_different h q <= BIT_DIFFERENCE_THRESHOLD)%nat.
Proof.
  destruct (bk_of_tuples_spec (min_tuples simhashes) None I) as [Hwf Hin].
  unfold image_found. rewrite elem_of_elements, elem_of_list_to_set, list_elem_of_fmap.
  split.
  - intros ([d item] & -> & Hfind). apply (bk_find_spec _ _ _ Hwf) in Hfind as (Hitem & -> & Hle).
    apply Hin in Hitem as [[]|([m h] & Hp & ->)]. exists h. by split.
  - intros (h & Hp & Hle).
    exists (get_num_bits_different (ArchiveIDAndSimHash.mk x h) (ArchiveIDAndSimHash.mk (-1) q),
            ArchiveIDAndSimHash.mk x h).
    split; [done|]. apply (bk_find_spec _ _ _ Hwf). split; [|by split].
    apply Hin. right. by exists (x, h).
Qed.

Lemma image_edges_adjacent (simhashes : list (N * list Z)) (x y : Z) :
  all_nonempty simhashes ->
  (x, y) ∈ image_edges simhashes -> rtc (image_adjacent simhashes) x y.
Proof.
  intros Hne. unfold image_edges. rewrite elem_of_app. intros [Hin|Hin].
  - apply same_hash_edges_elem in Hin as (h & s & Hin & Hx & Hy).
    apply rtc_once. exists h, s, h, s. rewrite dhash_distance_self.
    unfold BIT_DIFFERENCE_THRESHOLD. repeat split; try done. lia.
  - unfold image_found_edges in Hin. apply list_elem_of_bind in Hin as ([q sq] & Hxy & Hq).
    simpl in Hxy. apply combinations2_elem in Hxy as [Hx Hy].
    apply image_found_elem in Hx as (hx & Hinx & Hdx).
    apply image_found_elem in Hy as (hy & Hiny & Hdy).
    apply min_tuples_elem in Hinx as (sx & Hinx & Hmx).
    apply min_tuples_elem in Hiny as (sy & Hiny & Hmy).
    apply py_min_spec in Hmx as [Hmx _]. apply py_min_spec in Hmy as [Hmy _].
    unfold all_nonempty in Hne. rewrite Forall_forall in Hne.
    destruct (py_min_is_Some sq (Hne _ Hq)) as [m Hm].
    apply py_min_spec in Hm as [Hm _].
    apply rtc_l with m.
    + by exists hx, sx, q, sq.
    + apply rtc_once. exists q, sq, hy, sy. rewrite dhash_distance_sym. done.
Qed.

Lemma elem_of_text_records_written (records : list AdClusterRecord.t) (db : list DbEvent) :
  records ∈ text_records_written db <-> EvInsertOrUpdateAdTextClusterRecords records ∈ db.
Proof.
  unfold text_records_written. rewrite list_elem_of_omap. split.
  - intros (ev & Hin & Hev). destruct ev; by simplify_eq.
  - intros Hin. by eexists.
Qed.

Lemma elem_of_image_records_written (records : list AdClusterRecord.t) (db : list DbEvent) :
  records ∈ image_records_written db <-> EvInsertOrUpdateAdImageClusterRecords records ∈ db.
Proof.
  unfold image_records_written. rewrite list_elem_of_omap. split.
  - intros (ev & Hin & Hev). destruct ev; by simplify_eq.
  - intros Hin. by eexists.
Qed.

Lemma all_nonempty_dec (simhashes : list (N * list Z)) :
  all_nonempty simhashes \/ ~ all_nonempty simhashes.
Proof. unfold all_nonempty. destruct (decide (Forall (fun p => p.2 <> []) simhashes)); auto. Qed.

(** The text clusters, when they are computed, only join chains. *)
Lemma text_clusters_chains (simhashes : list (N * list Z)) (clusters : list (list Z)) :
  clusters_of (_ad_creative_body_text_similarity_clusters simhashes) = inr clusters ->
  forall a b, same_cluster (make_ad_cluster_records clusters) a b ->
              rtc (text_adjacent simhashes) a b.
Proof.
  intros Hc a b Hab. destruct (text_clusters_spec simhashes) as [Hok Hfail].
  destruct (all_nonempty_dec simhashes) as [Hne|Hne].
  - destruct (Hok Hne) as (clusters' & Hc' & Hsame & _).
    rewrite Hc' in Hc. injection Hc as ->.
    apply Hsame in Hab.
    eapply conn_chain; [apply text_adjacent_sym| |exact Hab].
    intros x y. by apply text_edges_adjacent.
  - rewrite (Hfail Hne) in Hc. done.
Qed.

Lemma image_clusters_chains (simhashes : list (N * list Z)) (clusters : list (list Z)) :
  clusters_of (_ad_creative_image_similarity_clusters simhashes) = inr clusters ->
  forall a b, same_cluster (make_ad_cluster_records clusters) a b ->
              rtc (image_adjacent simhashes) a b.
Proof.
  intros Hc a b Hab. destruct (image_clusters_spec simhashes) as [Hok Hfail].
  destruct (all_nonempty_dec simhashes) as [Hne|Hne].
  - destruct (Hok Hne) as (clusters' & Hc' & Hsame & _).
    rewrite Hc' in Hc. injection Hc as ->.
    apply Hsame in Hab.
    eapply conn_chain; [apply image_adjacent_sym| |exact Hab].
    intros x y. by apply image_edges_adjacent.
  - rewrite (Hfail Hne) in Hc. done.
Qed.

(** C1. Whatever a run of [update_ad_clusters] writes, two archive ids
    that a written list of text cluster records puts in one cluster are the
    ends of a chain of archive ids in which each id and the next have text
    fingerprints that differ in at most three bits; and the same holds of a
    written list of image cluster records and the image fingerprints.  (An
    archive id has a fingerprint for each of its creatives: two ids are
    adjacent when a fingerprint of the one is near a fingerprint of the
    other.) *)
Theorem clusters_are_chains (text_simhashes image_simhashes : list (N * list Z))
    (db : list DbEvent) :
  exists new,
    (update_ad_clusters text_simhashes image_simhashes db).1 = db ++ new
    /\ (forall records a b,
          records ∈ text_records_written new -> same_cluster records a b ->
          rtc (text_adjacent text_simhashes) a b)
    /\ (forall records a b,
          records ∈ image_records_written new -> same_cluster records a b ->
          rtc (image_adjacent image_simhashes) a b).
Proof.
  rewrite update_ad_clusters_unfold.
  destruct (clusters_of (_ad_creative_body_text_similarity_clusters text_simhashes))
    as [e|tc] eqn:Ht.
  { eexists. split; [done|]. split; intros records a b Hin; simpl in Hin;
      by apply elem_of_nil in Hin. }
  destruct (clusters_of (_ad_creative_image_similarity_clusters image_simhashes))
    as [e|ic] eqn:Hi.
  - eexists. split; [done|]. split; intros records a b Hin; simpl in Hin.
    + apply list_elem_of_singleton in Hin as ->. by apply text_clusters_chains.
    + by apply elem_of_nil in Hin.
  - eexists. split; [done|]. split; intros records a b Hin; simpl in Hin.
    + apply list_elem_of_singleton in Hin as ->. by apply text_clusters_chains.
    + apply list_elem_of_singleton in Hin as ->. by apply image_clusters_chains.
Qed.

Lemma clusters_are_chains_witness :
  rtc (text_adjacent example_text_simhashes) 10 31
  /\ rtc (image_adjacent example_image_simhashes) 20 30.
Proof.
  destruct (clusters_are_chains example_text_simhashes example_image_simhashes [])
    as (new & Hnew & Htext & Himage).
  vm_compute in Hnew. subst new. split.
  - eapply Htext; [left|]. exists 0. split; repeat constructor.
  - eapply Himage; [left|]. exists 0. split; repeat constructor.
Defined.

(** ** The partition does not depend on the order of the dictionary *)

Lemma combinations2_complete {A} (l : list A) (x y : A) :
  x ∈ l -> y ∈ l -> x <> y -> (x, y) ∈ combinations2 l \/ (y, x) ∈ combinations2 l.
Proof.
  induction l as [|a l IH]; [by intros ?%elem_of_nil|].
  intros [->|Hx]%elem_of_cons [->|Hy]%elem_of_cons Hxy; simpl; rewrite !elem_of_app.
  - done.
  - left. left. apply list_elem_of_fmap. by exists y.
  - right. left. apply list_elem_of_fmap. by exists x.
  - destruct (IH Hx Hy Hxy); [left|right]; by right.
Qed.

Lemma combinations2_NoDup {A} (l : list A) (x y : A) :
  NoDup l -> (x, y) ∈ combinations2 l -> x <> y.
Proof.
  induction 1 as [|a l Ha Hl IH]; simpl; [by intros ?%elem_of_nil|].
  rewrite elem_of_app, list_elem_of_fmap. intros [(z & [= -> ->] & Hz)|Hin]; [|by apply IH].
  intros ->. done.
Qed.

(** Edges that are connections of a second list connect nothing new. *)
Lemma conn_sub (edges1 edges2 : list (Z * Z)) :
  (forall x y, (x, y) ∈ edges1 -> conn edges2 x y) ->
  forall a b, conn edges1 a b -> conn edges2 a b.
Proof.
  intros Hsub a b Hab. induction Hab as [x y Hin|x y _ IH|x y z _ IH1 _ IH2].
  - by apply Hsub.
  - by apply conn_sym.
  - by eapply conn_trans.
Qed.

Lemma dict_items_lookup (m : gmap N (gset Z)) (items : list (N * list Z)) :
  dict_items_of m items ->
  forall h S, m !! h = Some S <-> exists s, (h, s) ∈ items /\ list_to_set s = S.
Proof.
  intros (Hnd & _ & <-) h S.
  assert (Hfst : (prod_map id (list_to_set (C := gset Z)) <$> items).*1 = items.*1).
  { rewrite <-list_fmap_compose. apply list_fmap_ext. by intros ? [] ?. }
  rewrite <-elem_of_list_to_map by (by rewrite Hfst).
  rewrite list_elem_of_fmap. split.
  - intros ([h' s] & [= -> ->] & Hin). by exists s.
  - intros (s & Hin & <-). by exists (h, s).
Qed.

(** Two lists of the items of one dictionary have the same keys, and under
    each key lists of the same elements. *)
Lemma dict_items_same (m : gmap N (gset Z)) (items1 items2 : list (N * list Z)) :
  dict_items_of m items1 -> dict_items_of m items2 ->
  forall h s1, (h, s1) ∈ items1 ->
               exists s2, (h, s2) ∈ items2 /\ NoDup s2 /\ forall x, x ∈ s1 <-> x ∈ s2.
Proof.
  intros H1 H2 h s1 Hin.
  assert (m !! h = Some (list_to_set s1)) as Hm.
  { apply (dict_items_lookup _ _ H1). by exists s1. }
  apply (dict_items_lookup _ _ H2) in Hm as (s2 & Hin2 & Hs).
  exists s2. split; [done|]. split.
  - destruct H2 as (_ & Hnd & _). rewrite Forall_forall in Hnd. by apply (Hnd _ Hin2).
  - intros x. rewrite <-(elem_of_list_to_set (C := gset Z) x s1).
    rewrite <-(elem_of_list_to_set (C := gset Z) x s2). by rewrite Hs.
Qed.

Lemma py_min_ext (s1 s2 : list Z) :
  (forall x, x ∈ s1 <-> x ∈ s2) -> py_min s1 = py_min s2.
Proof.
  intros Hs. destruct (py_min s1) as [m|] eqn:E1.
  - symmetry. apply py_min_spec. apply py_min_spec in E1 as [Hm Hmin].
    split; [by apply Hs|]. intros y Hy. apply Hmin. by apply Hs.
  - apply py_min_None in E1 as ->. symmetry. apply py_min_None.
    destruct s2 as [|x s2]; [done|]. exfalso. eapply elem_of_nil. apply Hs. left.
Qed.

Lemma all_nonempty_same (m : gmap N (gset Z)) (items1 items2 : list (N * list Z)) :
  dict_items_of m items1 -> dict_items_of m items2 ->
  all_nonempty items1 -> all_nonempty items2.
Proof.
  intros H1 H2. unfold all_nonempty. rewrite !Forall_forall. intros Hne [h s2] Hin. simpl. intros ->.
  destruct (dict_items_same _ _ _ H2 H1 _ _ Hin) as (s1 & Hin1 & _ & Hs).
  apply (Hne _ Hin1). simpl. destruct s1 as [|x s1]; [done|].
  exfalso. eapply elem_of_nil. apply Hs. left.
Qed.

Lemma min_tuples_same (m : gmap N (gset Z)) (items1 items2 : list (N * list Z)) :
  dict_items_of m items1 -> dict_items_of m items2 ->
  forall p, p ∈ min_tuples items1 -> p ∈ min_tuples items2.
Proof.
  intros H1 H2 [x h]. rewrite !min_tuples_elem. intros (s1 & Hin & Hm).
  destruct (dict_items_same _ _ _ H1 H2 _ _ Hin) as (s2 & Hin2 & _ & Hs).
  exists s2. split; [done|]. by rewrite <-(py_min_ext s1 s2 Hs).
Qed.

Lemma same_hash_edges_same (m : gmap N (gset Z)) (items1 items2 : list (N * list Z)) :
  dict_items_of m items1 -> dict_items_of m items2 ->
  forall x y, (x, y) ∈ same_hash_edges items1 -> conn (same_hash_edges items2) x y.
Proof.
  intros H1 H2 x y. unfold same_hash_edges. rewrite list_elem_of_bind.
  intros ([h s1] & Hxy & Hin). simpl in Hxy.
  assert (NoDup s1) as Hnd.
  { destruct H1 as (_ & Hnd & _). rewrite Forall_forall in Hnd. by apply (Hnd _ Hin). }
  pose proof (combinations2_NoDup _ _ _ Hnd Hxy) as Hne.
  apply combinations2_elem in Hxy as [Hx Hy].
  destruct (dict_items_same _ _ _ H1 H2 _ _ Hin) as (s2 & Hin2 & _ & Hs).
  apply Hs in Hx, Hy.
  destruct (combinations2_complete s2 x y Hx Hy Hne) as [Hc|Hc].
  - apply conn_edge. apply list_elem_of_bind. by exists (h, s2).
  - apply conn_sym, conn_edge. apply list_elem_of_bind. by exists (h, s2).
Qed.

Lemma text_found_edges_same (m : gmap N (gset Z)) (items1 items2 : list (N * list Z)) :
  dict_items_of m items1 -> dict_items_of m items2 ->
  forall x y, (x, y) ∈ text_found_edges (min_tuples items1) items1 ->
              (x, y) ∈ text_found_edges (min_tuples items2) items2.
Proof.
  intros H1 H2 x y. unfold text_found_edges. rewrite !list_elem_of_bind.
  intros ([h s1] & Hxy & Hin). simpl in Hxy.
  destruct (dict_items_same _ _ _ H1 H2 _ _ Hin) as (s2 & Hin2 & _).
  exists (h, s2). split; [|done]. simpl.
  rewrite (simhash_near_dups_perm (min_tuples items2) (min_tuples items1)); [done|].
  intros p. split; by apply (min_tuples_same m).
Qed.

Lemma image_found_same (m : gmap N (gset Z)) (items1 items2 : list (N * list Z)) (q : N) :
  dict_items_of m items1 -> dict_items_of m items2 ->
  image_found (bk_of_tuples None (min_tuples items1)) q
  = image_found (bk_of_tuples None (min_tuples items2)) q.
Proof.
  intros H1 H2.
  pose proof (image_found_elem items1 q) as E1.
  pose proof (image_found_elem items2 q) as E2.
  unfold image_found in *. f_equal. apply set_eq. intros x.
  specialize (E1 x). specialize (E2 x). rewrite elem_of_elements in E1, E2.
  rewrite E1, E2. split; intros (h & Hin & Hle); exists h; (split; [|done]).
  - by apply (min_tuples_same m items1 items2).
  - by apply (min_tuples_same m items2 items1).
Qed.

Lemma image_found_edges_same (m : gmap N (gset Z)) (items1 items2 : list (N * list Z)) :
  dict_items_of m items1 -> dict_items_of m items2 ->
  forall x y, (x, y) ∈ image_found_edges (bk_of_tuples None (min_tuples items1)) items1 ->
              (x, y) ∈ image_found_edges (bk_of_tuples None (min_tuples items2)) items2.
Proof.
  intros H1 H2 x y. unfold image_found_edges. rewrite !list_elem_of_bind.
  intros ([h s1] & Hxy & Hin). simpl in Hxy.
  destruct (dict_items_same _ _ _ H1 H2 _ _ Hin) as (s2 & Hin2 & _).
  exists (h, s2). split; [|done]. simpl.
  by rewrite <-(image_found_same m items1 items2).
Qed.

Lemma text_edges_same (m : gmap N (gset Z)) (items1 items2 : list (N * list Z)) :
  dict_items_of m items1 -> dict_items_of m items2 ->
  forall a b, conn (text_edges items1) a b -> conn (text_edges items2) a b.
Proof.
  intros H1 H2. apply conn_sub. intros x y. unfold text_edges. rewrite elem_of_app.
  intros [Hin|Hin].
  - eapply conn_sub; [|by apply (same_hash_edges_same m items1 items2)].
    intros x' y' Hin'. apply conn_edge, elem_of_app. by left.
  - apply conn_edge, elem_of_app. right. by apply (text_found_edges_same m items1).
Qed.

Lemma image_edges_same (m : gmap N (gset Z)) (items1 items2 : list (N * list Z)) :
  dict_items_of m items1 -> dict_items_of m items2 ->
  forall a b, conn (image_edges items1) a b -> conn (image_edges items2) a b.
Proof.
  intros H1 H2. apply conn_sub. intros x y. unfold image_edges. rewrite elem_of_app.
  intros [Hin|Hin].
  - eapply conn_sub; [|by apply (same_hash_edges_same m items1 items2)].
    intros x' y' Hin'. apply conn_edge, elem_of_app. by left.
  - apply conn_edge, elem_of_app. right. by apply (image_found_edges_same m items1).
Qed.

Lemma class_elem (records : list AdClusterRecord.t) (r : AdClusterRecord.t) (a : Z) :
  (forall a c1 c2, AdClusterRecord.mk a c1 ∈ records ->
                   AdClusterRecord.mk a c2 ∈ records -> c1 = c2) ->
  r ∈ records ->
  a ∈ (list_to_set
         (AdClusterRecord.archive_id
            <$> filter (fun r' => AdClusterRecord.ad_cluster_id r'
                                  = AdClusterRecord.ad_cluster_id r) records) : gset Z)
  <-> same_cluster records (AdClusterRecord.archive_id r) a.
Proof.
  intros Hfun Hr. rewrite elem_of_list_to_set, list_elem_of_fmap.
  destruct r as [x c]. simpl. split.
  - intros ([a' c'] & -> & [Hc Hin]%list_elem_of_filter). simpl in *. subst c'.
    by exists c.
  - intros (c' & Hx & Ha). rewrite <-(Hfun _ _ _ Hr Hx) in Ha.
    exists (AdClusterRecord.mk a c). split; [done|]. by apply list_elem_of_filter.
Qed.

(** Lists of records that put the same ids together describe one partition,
    whatever the cluster ids. *)
Lemma partition_of_same (records1 records2 : list AdClusterRecord.t) :
  (forall a c1 c2, AdClusterRecord.mk a c1 ∈ records1 ->
                   AdClusterRecord.mk a c2 ∈ records1 -> c1 = c2) ->
  (forall a c1 c2, AdClusterRecord.mk a c1 ∈ records2 ->
                   AdClusterRecord.mk a c2 ∈ records2 -> c1 = c2) ->
  (forall a b, same_cluster records1 a b -> same_cluster records2 a b) ->
  (forall a b, same_cluster records2 a b -> same_cluster records1 a b) ->
  partition_of records1 = partition_of records2.
Proof.
  assert (Hsub : forall recs1 recs2 : list AdClusterRecord.t,
    (forall a c1 c2, AdClusterRecord.mk a c1 ∈ recs1 ->
                     AdClusterRecord.mk a c2 ∈ recs1 -> c1 = c2) ->
    (forall a c1 c2, AdClusterRecord.mk a c1 ∈ recs2 ->
                     AdClusterRecord.mk a c2 ∈ recs2 -> c1 = c2) ->
    (forall a b, same_cluster recs1 a b -> same_cluster recs2 a b) ->
    (forall a b, same_cluster recs2 a b -> same_cluster recs1 a b) ->
    forall X, X ∈ partition_of recs1 -> X ∈ partition_of recs2).
  { intros recs1 recs2 Hf1 Hf2 H12 H21 X. unfold partition_of.
    rewrite !elem_of_list_to_set, !list_elem_of_fmap. intros (r & -> & Hr).
    assert (same_cluster recs2 (AdClusterRecord.archive_id r) (AdClusterRecord.archive_id r))
      as (c & Hin & _).
    { apply H12. exists (AdClusterRecord.ad_cluster_id r). by destruct r. }
    exists (AdClusterRecord.mk (AdClusterRecord.archive_id r) c). split; [|done].
    apply set_eq. intros a.
    rewrite (class_elem recs1 r a Hf1 Hr), (class_elem recs2 _ a Hf2 Hin). simpl.
    split; auto. }
  intros Hf1 Hf2 H12 H21. apply set_eq. intros X. split; by apply Hsub.
Qed.

Lemma text_clusters_same (m : gmap N (gset Z)) (items1 items2 : list (N * list Z)) :
  dict_items_of m items1 -> dict_items_of m items2 ->
  same_outcome (clusters_of (_ad_creative_body_text_similarity_clusters items1))
               (clusters_of (_ad_creative_body_text_similarity_clusters items2)).
Proof.
  intros H1 H2.
  destruct (text_clusters_spec items1) as [Hok1 Hfail1].
  destruct (text_clusters_spec items2) as [Hok2 Hfail2].
  destruct (all_nonempty_dec items1) as [Hne|Hne].
  - destruct (Hok1 Hne) as (c1 & -> & Hsame1 & Hf1).
    destruct (Hok2 (all_nonempty_same m _ _ H1 H2 Hne)) as (c2 & -> & Hsame2 & Hf2).
    simpl. apply partition_of_same; [done|done| |].
    + intros a b ?%Hsame1. apply Hsame2. by apply (text_edges_same m items1).
    + intros a b ?%Hsame2. apply Hsame1. by apply (text_edges_same m items2).
  - rewrite (Hfail1 Hne), Hfail2; [done|].
    intros Hne2. apply Hne. by apply (all_nonempty_same m items2).
Qed.

Lemma image_clusters_same (m : gmap N (gset Z)) (items1 items2 : list (N * list Z)) :
  dict_items_of m items1 -> dict_items_of m items2 ->
  same_outcome (clusters_of (_ad_creative_image_similarity_clusters items1))
               (clusters_of (_ad_creative_image_similarity_clusters items2)).
Proof.
  intros H1 H2.
  destruct (image_clusters_spec items1) as [Hok1 Hfail1].
  destruct (image_clusters_spec items2) as [Hok2 Hfail2].
  destruct (all_nonempty_dec items1) as [Hne|Hne].
  - destruct (Hok1 Hne) as (c1 & -> & Hsame1 & Hf1).
    destruct (Hok2 (all_nonempty_same m _ _ H1 H2 Hne)) as (c2 & -> & Hsame2 & Hf2).
    simpl. apply partition_of_same; [done|done| |].
    + intros a b ?%Hsame1. apply Hsame2. by apply (image_edges_same m items1).
    + intros a b ?%Hsame2. apply Hsame1. by apply (image_edges_same m items2).
  - rewrite (Hfail1 Hne), Hfail2; [done|].
    intros Hne2. apply Hne. by apply (all_nonempty_same m items2).
Qed.

(** C2. Two runs of [update_ad_clusters] that read the same fingerprint
    dictionaries, each in whatever order the dictionaries and their sets are
    iterated, end the same way and write the same partitions: the text records
    of the one run and of the other group the archive ids into the same set of
    sets, and so do the image records.  The cluster ids may differ. *)
Theorem clustering_partition_deterministic
    (text_dict image_dict : gmap N (gset Z))
    (text_simhashes1 text_simhashes2 image_simhashes1 image_simhashes2 : list (N * list Z))
    (db1 db2 : list DbEvent) :
  dict_items_of text_dict text_simhashes1 -> dict_items_of text_dict text_simhashes2 ->
  dict_items_of image_dict image_simhashes1 -> dict_items_of image_dict image_simhashes2 ->
  exists new1 new2,
    (update_ad_clusters text_simhashes1 image_simhashes1 db1).1 = db1 ++ new1
    /\ (update_ad_clusters text_simhashes2 image_simhashes2 db2).1 = db2 ++ new2
    /\ partition_of <$> text_records_written new1 = partition_of <$> text_records_written new2
    /\ partition_of <$> image_records_written new1
       = partition_of <$> image_records_written new2
    /\ (update_ad_clusters text_simhashes1 image_simhashes1 db1).2
       = (update_ad_clusters text_simhashes2 image_simhashes2 db2).2.
Proof.
  intros Ht1 Ht2 Hi1 Hi2. rewrite !update_ad_clusters_unfold.
  pose proof (text_clusters_same _ _ _ Ht1 Ht2) as Ht.
  pose proof (image_clusters_same _ _ _ Hi1 Hi2) as Hi.
  destruct (clusters_of (_ad_creative_body_text_similarity_clusters text_simhashes1))
    as [e1|tc1];
    destruct (clusters_of (_ad_creative_body_text_similarity_clusters text_simhashes2))
    as [e2|tc2]; simpl in Ht; try done.
  { subst e2. by do 2 eexists. }
  destruct (clusters_of (_ad_creative_image_similarity_clusters image_simhashes1))
    as [e1|ic1];
    destruct (clusters_of (_ad_creative_image_similarity_clusters image_simhashes2))
    as [e2|ic2]; simpl in Hi; try done.
  - subst e2. do 2 eexists. split; [done|]. split; [done|]. simpl. by rewrite Ht.
  - do 2 eexists. split; [done|]. split; [done|]. simpl. by rewrite Ht, Hi.
Qed.

Lemma example_text_snapshots :
  dict_items_of example_text_dict example_text_snapshot_a
  /\ dict_items_of example_text_dict example_text_snapshot_b.
Proof.
  split; (split; [|split]).
  - by apply (bool_decide_unpack _); vm_compute.
  - repeat constructor; by apply (bool_decide_unpack _); vm_compute.
  - done.
  - by apply (bool_decide_unpack _); vm_compute.
  - repeat constructor; by apply (bool_decide_unpack _); vm_compute.
  - by vm_compute.
Defined.

Lemma example_image_snapshots :
  dict_items_of example_image_dict example_image_snapshot_a
  /\ dict_items_of example_image_dict example_image_snapshot_b.
Proof.
  split; (split; [|split]).
  - by apply (bool_decide_unpack _); vm_compute.
  - repeat constructor; by apply (bool_decide_unpack _); vm_compute.
  - done.
  - by apply (bool_decide_unpack _); vm_compute.
  - repeat constructor; by apply (bool_decide_unpack _); vm_compute.
  - by vm_compute.
Defined.

Lemma clustering_partition_deterministic_witness :
  exists new1 new2,
    (update_ad_clusters example_text_snapshot_a example_image_snapshot_a []).1 = [] ++ new1
    /\ (update_ad_clusters example_text_snapshot_b example_image_snapshot_b []).1 = [] ++ new2
    /\ partition_of <$> text_records_written new1 = partition_of <$> text_records_written new2
    /\ partition_of <$> image_records_written new1
       = partition_of <$> image_records_written new2
    /\ (update_ad_clusters example_text_snapshot_a example_image_snapshot_a []).2
       = (update_ad_clusters example_text_snapshot_b example_image_snapshot_b []).2.
Proof.
  exact (clustering_partition_deterministic
           example_text_dict example_image_dict
           example_text_snapshot_a example_text_snapshot_b
           example_image_snapshot_a example_image_snapshot_b [] []
           (proj1 example_text_snapshots) (proj2 example_text_snapshots)
           (proj1 example_image_snapshots) (proj2 example_image_snapshots)).
Defined.

(** The two runs of the example number the clusters differently. *)
Example example_cluster_numbering_differs :
  text_records_written
    (update_ad_clusters example_text_snapshot_a example_image_snapshot_a []).1
  = [[AdClusterRecord.mk 30 0; AdClusterRecord.mk 31 0; AdClusterRecord.mk 10 0;
      AdClusterRecord.mk 20 0; AdClusterRecord.mk 50 1; AdClusterRecord.mk 40 1]]
  /\ text_records_written
       (update_ad_clusters example_text_snapshot_b example_image_snapshot_b []).1
     = [[AdClusterRecord.mk 50 0; AdClusterRecord.mk 40 0; AdClusterRecord.mk 31 1;
         AdClusterRecord.mk 30 1; AdClusterRecord.mk 10 1; AdClusterRecord.mk 20 1]].
Proof. split; by vm_compute. Qed.

(** ** [_get_lowest_archive_id_cluster_id] *)

Lemma lowest_archive_id_cluster_id_loop_spec (existing : gmap Z Z) (fuel : nat) :
  forall archive_id_set : gset Z,
    (size archive_id_set < fuel)%nat ->
    exists r,
      lowest_archive_id_cluster_id_loop fuel existing archive_id_set = Some r
      /\ match r with
         | Some ad_cluster_id =>
             exists a, a ∈ archive_id_set /\ existing !! a = Some ad_cluster_id
                       /\ forall b, b ∈ archive_id_set -> is_Some (existing !! b) -> a <= b
         | None => forall a, a ∈ archive_id_set -> existing !! a = None
         end.
Proof.
  induction fuel as [|fuel IH]; intros archive_id_set Hsize; [lia|]. simpl.
  destruct (py_min (elements archive_id_set)) as [m|] eqn:Hmin.
  - apply py_min_spec in Hmin as [Hm Hleast]. apply elem_of_elements in Hm.
    destruct (existing !! m) as [c|] eqn:Hc.
    + exists (Some c). split; [done|]. exists m. split; [done|]. split; [done|].
      intros b Hb _. apply Hleast. by apply elem_of_elements.
    + destruct (IH (archive_id_set ∖ {[m]})) as (r & -> & Hr).
      { assert (size archive_id_set = size ({[m]} : gset Z) + size (archive_id_set ∖ {[m]}))%nat
          as Hsz.
        { rewrite <-size_union.
          2:{ intros x Hx1%elem_of_singleton [_ Hx2]%elem_of_difference.
              by apply Hx2, elem_of_singleton. }
          f_equal.
          apply set_eq. intros x. rewrite elem_of_union, elem_of_difference, elem_of_singleton.
          destruct (decide (x = m)) as [->|]; intuition. }
        rewrite size_singleton in Hsz. lia. }
      exists r. split; [done|]. destruct r as [c|].
      * destruct Hr as (a & Ha & Hac & Hleast'). exists a.
        apply elem_of_difference in Ha as [Ha _]. split; [done|]. split; [done|].
        intros b Hb Hbk. apply Hleast'; [|done]. apply elem_of_difference. split; [done|].
        rewrite elem_of_singleton. intros ->. rewrite Hc in Hbk. by destruct Hbk.
      * intros a Ha. destruct (decide (a = m)) as [->|Hne]; [done|].
        apply Hr. apply elem_of_difference. split; [done|]. by rewrite elem_of_singleton.
  - apply py_min_None in Hmin. exists None. split; [done|].
    intros a Ha. apply elem_of_elements in Ha. rewrite Hmin in Ha. by apply elem_of_nil in Ha.
Qed.

(** X1. [_get_lowest_archive_id_cluster_id] always returns: the cluster id
    that the dictionary gives the lowest archive id of the set that is among
    its keys, and [None] exactly when no archive id of the set is a key. *)
Theorem lowest_archive_id_cluster_id_spec (existing : gmap Z Z) (archive_id_set : gset Z) :
  exists r,
    _get_lowest_archive_id_cluster_id existing archive_id_set = Some r
    /\ (forall ad_cluster_id,
          r = Some ad_cluster_id
          <-> exists a, a ∈ archive_id_set /\ existing !! a = Some ad_cluster_id
                        /\ forall b, b ∈ archive_id_set -> is_Some (existing !! b) -> a <= b)
    /\ (r = None <-> forall a, a ∈ archive_id_set -> existing !! a = None).
Proof.
  destruct (lowest_archive_id_cluster_id_loop_spec existing (S (size archive_id_set))
              archive_id_set) as (r & Hr & Hspec); [lia|].
  exists r. split; [exact Hr|]. destruct r as [c|].
  - destruct Hspec as (a & Ha & Hac & Hleast). split.
    + intros c'. split.
      * intros [= <-]. by exists a.
      * intros (a' & Ha' & Hac' & Hleast'). f_equal.
        assert (a = a') as ->.
        { pose proof (Hleast a' Ha' ltac:(by eexists)).
          pose proof (Hleast' a Ha ltac:(by eexists)). lia. }
        congruence.
    + split; [done|]. intros Hnone. rewrite (Hnone a Ha) in Hac. done.
  - split.
    + intros c. split; [done|]. intros (a & Ha & Hac & _). rewrite (Hspec a Ha) in Hac. done.
    + done.
Qed.

(** ** The clusters are exactly the chains *)

(** The clusters computed by a pass that did not raise hold exactly the
    connections of its edges. *)
Lemma text_clusters_conn (simhashes : list (N * list Z)) (clusters : list (list Z)) :
  clusters_of (_ad_creative_body_text_similarity_clusters simhashes) = inr clusters ->
  forall a b, same_cluster (make_ad_cluster_records clusters) a b
              <-> conn (text_edges simhashes) a b.
Proof.
  intros Hc. destruct (text_clusters_spec simhashes) as [Hok Hfail].
  destruct (all_nonempty_dec simhashes) as [Hne|Hne].
  - destruct (Hok Hne) as (clusters' & Hc' & Hsame & _).
    rewrite Hc' in Hc. by injection Hc as ->.
  - rewrite (Hfail Hne) in Hc. done.
Qed.

Lemma image_clusters_conn (simhashes : list (N * list Z)) (clusters : list (list Z)) :
  clusters_of (_ad_creative_image_similarity_clusters simhashes) = inr clusters ->
  forall a b, same_cluster (make_ad_cluster_records clusters) a b
              <-> conn (image_edges simhashes) a b.
Proof.
  intros Hc. destruct (image_clusters_spec simhashes) as [Hok Hfail].
  destruct (all_nonempty_dec simhashes) as [Hne|Hne].
  - destruct (Hok Hne) as (clusters' & Hc' & Hsame & _).
    rewrite Hc' in Hc. by injection Hc as ->.
  - rewrite (Hfail Hne) in Hc. done.
Qed.

(** Equal or connected: the reflexive closure of [conn]. *)
Lemma eq_or_conn_trans (edges : list (Z * Z)) (x y z : Z) :
  x = y \/ conn edges x y -> y = z \/ conn edges y z -> x = z \/ conn edges x z.
Proof.
  intros [->|Hxy] [->|Hyz]; auto. right. by eapply conn_trans.
Qed.

Lemma same_hash_conn (simhashes : list (N * list Z)) (h : N) (s : list Z) (a b : Z) :
  (h, s) ∈ simhashes -> a ∈ s -> b ∈ s ->
  a = b \/ conn (same_hash_edges simhashes) a b.
Proof.
  intros Hin Ha Hb. destruct (decide (a = b)) as [|Hne]; [by left|]. right.
  destruct (combinations2_complete s a b Ha Hb Hne) as [Hc|Hc].
  - apply conn_edge, list_elem_of_bind. by exists (h, s).
  - apply conn_sym, conn_edge, list_elem_of_bind. by exists (h, s).
Qed.

Lemma image_found_conn (simhashes : list (N * list Z)) (q : N) (sq : list Z) (x y : Z) :
  (q, sq) ∈ simhashes ->
  x ∈ image_found (bk_of_tuples None (min_tuples simhashes)) q ->
  y ∈ image_found (bk_of_tuples None (min_tuples simhashes)) q ->
  x = y \/ conn (image_found_edges (bk_of_tuples None (min_tuples simhashes)) simhashes) x y.
Proof.
  intros Hin Hx Hy. destruct (decide (x = y)) as [|Hne]; [by left|]. right.
  destruct (combinations2_complete _ x y Hx Hy Hne) as [Hc|Hc].
  - apply conn_edge, list_elem_of_bind. by exists (q, sq).
  - apply conn_sym, conn_edge, list_elem_of_bind. by exists (q, sq).
Qed.

(** Two ids with image fingerprints within the threshold are joined. *)
Lemma image_adjacent_conn (simhashes : list (N * list Z)) (a b : Z) :
  image_adjacent simhashes a b -> a = b \/ conn (image_edges simhashes) a b.
Proof.
  intros (h1 & s1 & h2 & s2 & Hin1 & Ha & Hin2 & Hb & Hd).
  destruct (py_min_is_Some s1) as [m1 Hm1]; [by intros ->; apply elem_of_nil in Ha|].
  destruct (py_min_is_Some s2) as [m2 Hm2]; [by intros ->; apply elem_of_nil in Hb|].
  assert (m1 ∈ image_found (bk_of_tuples None (min_tuples simhashes)) h1) as Hf1.
  { apply image_found_elem. exists h1. split; [apply min_tuples_elem; by exists s1|].
    rewrite dhash_distance_self. unfold BIT_DIFFERENCE_THRESHOLD. lia. }
  assert (m2 ∈ image_found (bk_of_tuples None (min_tuples simhashes)) h1) as Hf2.
  { apply image_found_elem. exists h2. split; [apply min_tuples_elem; by exists s2|].
    by rewrite dhash_distance_sym. }
  apply py_min_spec in Hm1 as [Hm1 _]. apply py_min_spec in Hm2 as [Hm2 _].
  assert (forall x y, x = y \/ conn (same_hash_edges simhashes) x y ->
                      x = y \/ conn (image_edges simhashes) x y) as Hleft.
  { intros x y [->|Hc]; [by left|right]. eapply conn_mono; [|exact Hc].
    intros e He. unfold image_edges. apply elem_of_app. by left. }
  assert (forall x y,
             x = y \/ conn (image_found_edges (bk_of_tuples None (min_tuples simhashes))
                              simhashes) x y ->
             x = y \/ conn (image_edges simhashes) x y) as Hright.
  { intros x y [->|Hc]; [by left|right]. eapply conn_mono; [|exact Hc].
    intros e He. unfold image_edges. apply elem_of_app. by right. }
  eapply eq_or_conn_trans; [apply Hleft, (same_hash_conn simhashes h1 s1 a m1); done|].
  eapply eq_or_conn_trans; [apply Hright, (image_found_conn simhashes h1 s1 m1 m2); done|].
  apply Hleft, (same_hash_conn simhashes h2 s2 m2 b); done.
Qed.

Lemma image_chain_conn (simhashes : list (N * list Z)) (a b : Z) :
  rtc (image_adjacent simhashes) a b -> a = b \/ conn (image_edges simhashes) a b.
Proof.
  induction 1 as [|x y z Hxy _ IH]; [by left|].
  eapply eq_or_conn_trans; [by apply image_adjacent_conn|exact IH].
Qed.

(** X2. The image clusters that a run of [update_ad_clusters] writes are
    exactly the chains of near image fingerprints: two different archive ids
    are in one cluster of the written image records if and only if a chain of
    archive ids leads from the one to the other in which each id and the next
    have image fingerprints that differ in at most three bits. *)
Theorem image_clusters_are_the_chains (text_simhashes image_simhashes : list (N * list Z))
    (db : list DbEvent) :
  exists new,
    (update_ad_clusters text_simhashes image_simhashes db).1 = db ++ new
    /\ forall records a b,
         records ∈ image_records_written new -> a <> b ->
         (same_cluster records a b <-> rtc (image_adjacent image_simhashes) a b).
Proof.
  rewrite update_ad_clusters_unfold.
  destruct (clusters_of (_ad_creative_body_text_similarity_clusters text_simhashes))
    as [e|tc] eqn:Ht.
  { eexists. split; [done|]. intros records a b Hin. by apply elem_of_nil in Hin. }
  destruct (clusters_of (_ad_creative_image_similarity_clusters image_simhashes))
    as [e|ic] eqn:Hi.
  { eexists. split; [done|]. intros records a b Hin. by apply elem_of_nil in Hin. }
  eexists. split; [done|]. intros records a b Hin Hab. simpl in Hin.
  apply list_elem_of_singleton in Hin as ->. split.
  - by apply image_clusters_chains.
  - intros Hchain. apply (image_clusters_conn _ _ Hi).
    by destruct (image_chain_conn _ _ _ Hchain).
Qed.

Lemma image_clusters_are_the_chains_witness :
  exists new,
    (update_ad_clusters example_text_simhashes example_image_simhashes []).1 = [] ++ new
    /\ forall records, records ∈ image_records_written new -> same_cluster records 20 30.
Proof.
  destruct (image_clusters_are_the_chains example_text_simhashes example_image_simhashes [])
    as (new & Hnew & Himage).
  exists new. split; [exact Hnew|]. intros records Hin.
  apply Himage; [exact Hin|done|].
  apply rtc_l with 10.
  - exists 0%N, [10; 20], 0%N, [10; 20]. repeat split; try (by repeat constructor);
      vm_compute; lia.
  - apply rtc_once. exists 0%N, [10; 20], 3%N, [30]. repeat split; try (by repeat constructor);
      vm_compute; lia.
Defined.

(** ** When a pass of [update_ad_clusters] raises *)

(** X3. An empty set of archive ids in the text dictionary makes [min]
    raise [ValueError] in the text pass: nothing is written and the
    transaction is rolled back.  An empty set in the image dictionary makes
    the image pass raise when the text cluster records are already written
    and committed: they stay, no image cluster record is written, and the
    open transaction is rolled back. *)
Theorem update_ad_clusters_failure_order (text_simhashes image_simhashes : list (N * list Z))
    (db : list DbEvent) :
  (~ all_nonempty text_simhashes ->
   update_ad_clusters text_simhashes image_simhashes db = (db ++ [EvRollback], inl ValueError))
  /\ (all_nonempty text_simhashes -> ~ all_nonempty image_simhashes ->
      exists text_clusters,
        clusters_of (_ad_creative_body_text_similarity_clusters text_simhashes)
        = inr text_clusters
        /\ update_ad_clusters text_simhashes image_simhashes db
           = (db ++ [EvInsertOrUpdateAdTextClusterRecords
                       (make_ad_cluster_records text_clusters);
                     EvCommit; EvRollback],
              inl ValueError)).
Proof.
  rewrite update_ad_clusters_unfold.
  destruct (text_clusters_spec text_simhashes) as [Hok Hfail].
  destruct (image_clusters_spec image_simhashes) as [_ Hfail'].
  split.
  - intros Hne. by rewrite (Hfail Hne).
  - intros Hne Hne'. destruct (Hok Hne) as (tc & Htc & _). exists tc.
    split; [done|]. by rewrite Htc, (Hfail' Hne').
Qed.

Lemma update_ad_clusters_failure_order_witness :
  update_ad_clusters [(5%N, [])] example_image_simhashes [] = ([EvRollback], inl ValueError)
  /\ exists text_clusters,
       update_ad_clusters example_text_simhashes [(5%N, [])] []
       = ([EvInsertOrUpdateAdTextClusterRecords (make_ad_cluster_records text_clusters);
           EvCommit; EvRollback],
          inl ValueError).
Proof.
  assert (~ all_nonempty [(5%N, @nil Z)]) as Hempty.
  { intros Hne. inversion Hne as [|? ? Hhead]. by apply Hhead. }
  assert (all_nonempty example_text_simhashes) as Htext.
  { unfold all_nonempty, example_text_simhashes. repeat constructor; discriminate. }
  split.
  - exact (proj1 (update_ad_clusters_failure_order [(5%N, [])] example_image_simhashes [])
             Hempty).
  - destruct (proj2 (update_ad_clusters_failure_order example_text_simhashes [(5%N, [])] [])
                Htext Hempty) as (tc & _ & Hrun).
    by exists tc.
Defined.

(** ** Which archive ids get a cluster record *)

Lemma image_clusters_nonempty (simhashes : list (N * list Z)) (clusters : list (list Z)) :
  clusters_of (_ad_creative_image_similarity_clusters simhashes) = inr clusters ->
  all_nonempty simhashes.
Proof.
  intros Hc. destruct (image_clusters_spec simhashes) as [_ Hfail].
  destruct (all_nonempty_dec simhashes) as [Hne|Hne]; [done|].
  rewrite (Hfail Hne) in Hc. done.
Qed.

(** Both ends of a connection are ends of an edge. *)
Lemma conn_incident (edges : list (Z * Z)) (a b : Z) :
  conn edges a b ->
  (exists c, (a, c) ∈ edges \/ (c, a) ∈ edges) /\ (exists c, (b, c) ∈ edges \/ (c, b) ∈ edges).
Proof.
  induction 1 as [x y Hin|x y _ [IHx IHy]|x y z _ [IHx _] _ [_ IHz]].
  - split; [exists y; by left|exists x; by right].
  - done.
  - done.
Qed.

(** The image pass only joins different archive ids. *)
Lemma image_edges_distinct (simhashes : list (N * list Z)) (x y : Z) :
  Forall (fun p => NoDup p.2) simhashes ->
  (x, y) ∈ image_edges simhashes -> x <> y.
Proof.
  intros Hnd. rewrite Forall_forall in Hnd.
  unfold image_edges, same_hash_edges, image_found_edges.
  rewrite elem_of_app, !list_elem_of_bind.
  intros [([h s] & Hxy & Hin)|([h s] & Hxy & Hin)]; simpl in Hxy.
  - eapply combinations2_NoDup; [|exact Hxy]. by apply (Hnd (h, s)).
  - eapply combinations2_NoDup; [|exact Hxy]. unfold image_found. apply NoDup_elements.
Qed.

(** A chain to a different id starts with a step to a different id. *)
Lemma rtc_first_step `{EqDecision A} (R : relation A) (a b : A) :
  rtc R a b -> a <> b -> exists c, c <> a /\ R a c.
Proof.
  induction 1 as [|x y z Hxy _ IH]; [done|]. intros Hne.
  destruct (decide (x = y)) as [->|Hxy']; [by apply IH|].
  exists y. split; [congruence|done].
Qed.

(** X4. The image cluster records that a run of [update_ad_clusters]
    writes name exactly the archive ids that have a near neighbour: an
    archive id gets an image cluster record if and only if another archive
    id has an image fingerprint within three bits of one of its own (the same
    fingerprint included).  An archive id without such a neighbour gets no
    record, not a cluster of its own. *)
Theorem image_cluster_record_iff_neighbour
    (text_simhashes image_simhashes : list (N * list Z)) (db : list DbEvent) :
  Forall (fun p => NoDup p.2) image_simhashes ->
  exists new,
    (update_ad_clusters text_simhashes image_simhashes db).1 = db ++ new
    /\ forall records a,
         records ∈ image_records_written new ->
         ((exists ad_cluster_id, AdClusterRecord.mk a ad_cluster_id ∈ records)
          <-> exists b, b <> a /\ image_adjacent image_simhashes a b).
Proof.
  intros Hnd. rewrite update_ad_clusters_unfold.
  destruct (clusters_of (_ad_creative_body_text_similarity_clusters text_simhashes))
    as [e|tc] eqn:Ht.
  { eexists. split; [done|]. intros records a Hin. by apply elem_of_nil in Hin. }
  destruct (clusters_of (_ad_creative_image_similarity_clusters image_simhashes))
    as [e|ic] eqn:Hi.
  { eexists. split; [done|]. intros records a Hin. by apply elem_of_nil in Hin. }
  eexists. split; [done|]. intros records a Hin. simpl in Hin.
  apply list_elem_of_singleton in Hin as ->.
  pose proof (image_clusters_conn _ _ Hi) as Hconn.
  pose proof (image_clusters_nonempty _ _ Hi) as Hne.
  split.
  - intros [c Hc].
    assert (conn (image_edges image_simhashes) a a) as Haa.
    { apply Hconn. by exists c. }
    destruct (conn_incident _ _ _ Haa) as [[x Hx] _].
    assert (x <> a /\ rtc (image_adjacent image_simhashes) a x) as [Hxa Hchain].
    { destruct Hx as [Hx|Hx].
      - split; [intros ->; by apply (image_edges_distinct _ _ _ Hnd Hx)|].
        by apply image_edges_adjacent.
      - split; [intros ->; by apply (image_edges_distinct _ _ _ Hnd Hx)|].
        apply rtc_sym; [apply image_adjacent_sym|]. by apply image_edges_adjacent. }
    apply (rtc_first_step _ _ _ Hchain). congruence.
  - intros (b & Hba & Hadj).
    destruct (image_adjacent_conn _ _ _ Hadj) as [->|Hab]; [done|].
    apply Hconn in Hab as (c & Hc & _). by exists c.
Qed.

Lemma image_cluster_record_iff_neighbour_witness :
  exists new,
    (update_ad_clusters example_text_simhashes example_image_simhashes []).1 = [] ++ new
    /\ forall records,
         records ∈ image_records_written new ->
         (exists ad_cluster_id, AdClusterRecord.mk 30 ad_cluster_id ∈ records)
         /\ ~ (exists ad_cluster_id, AdClusterRecord.mk 40 ad_cluster_id ∈ records).
Proof.
  assert (Forall (fun p : N * list Z => NoDup p.2) example_image_simhashes) as Hnd.
  { unfold example_image_simhashes.
    repeat constructor; by apply (bool_decide_unpack _); vm_compute. }
  destruct (image_cluster_record_iff_neighbour
              example_text_simhashes example_image_simhashes [] Hnd)
    as (new & Hnew & Hiff).
  exists new. split; [exact Hnew|]. intros records Hin. split.
  - apply (Hiff records 30 Hin). exists 10. split; [done|].
    exists 3%N, [30], 0%N, [10; 20]. repeat split; try (by repeat constructor);
      vm_compute; lia.
  - intros Hrec. apply (Hiff records 40 Hin) in Hrec as (b & Hb & Hadj).
    destruct Hadj as (h1 & s1 & h2 & s2 & Hin1 & Ha & Hin2 & Hb2 & Hd).
    unfold example_image_simhashes in Hin1, Hin2. clear Hnew Hiff Hin Hnd.
    repeat (apply elem_of_cons in Hin1 as [Hin1|Hin1]; [injection Hin1 as -> ->|]);
      try (by apply elem_of_nil in Hin1);
      repeat (apply elem_of_cons in Ha as [Ha|Ha]; [try discriminate Ha|]);
      try (by apply elem_of_nil in Ha).
    repeat (apply elem_of_cons in Hin2 as [Hin2|Hin2]; [injection Hin2 as -> ->|]);
      try (by apply elem_of_nil in Hin2);
      try (by apply Nat.leb_le in Hd; vm_compute in Hd).
    apply elem_of_cons in Hb2 as [->|Hb2]; [done|by apply elem_of_nil in Hb2].
Defined.
